(** * Half-precision GEMM with WMMA: the CPU reference, result
      verification, kernel configurations, launch geometry, block
      scheduling, tile staging and the epilogue stores, embedded from the
      C++/HIP sources.

    Half and single precision values are IEEE-754 binary16 and binary32,
    taken from the parametric [SpecFloat] specification of the standard
    library.  The device code computes indices in [int] from non-negative
    quantities, where overflow is undefined: indices are natural numbers.
    The host code computes the launch grid in [size_t], [int] and 32-bit
    unsigned arithmetic, which is written out with its wrap-around.  A
    kernel is described by what one thread does: the transfers it issues
    into shared memory and the stores it issues to C.  For
    wmma_shared_warp_buf_vec the cooperative staging of a block and the
    accumulation of a warp are followed as well. *)

From Stdlib Require Import ZArith List Bool Arith Lia PeanoNat.
From Stdlib Require Import Floats.SpecFloat.
From stdpp Require Import base list.
Import ListNotations.

Set Default Proof Using "Type".

(* ********************************************************************* *)
(** * Part I: the embedding *)
(* ********************************************************************* *)

(* ===================================================================== *)
(** ** Floating point: binary16 (half) and binary32 (float) *)
(* ===================================================================== *)

Module Fp.

(** Both formats are carried by [spec_float]; the operations fix the
    precision and the exponent range. *)
Definition half := spec_float.
Definition float := spec_float.

Definition half_prec : Z := 11.
Definition half_emax : Z := 16.
Definition float_prec : Z := 24.
Definition float_emax : Z := 128.

(** [static_cast<float>(h)]: every binary16 value is a binary32 value. *)
Definition to_float (h : half) : float :=
  match h with
  | S754_finite s m e =>
      binary_normalize float_prec float_emax
        (if s then Zneg m else Zpos m) e s
  | _ => h
  end.

(** [static_cast<half>(f)]: one rounding to nearest, ties to even. *)
Definition to_half (f : float) : half :=
  match f with
  | S754_finite s m e =>
      binary_normalize half_prec half_emax
        (if s then Zneg m else Zpos m) e s
  | _ => f
  end.

(** [0.0f] and [static_cast<half>(0.0f)]. *)
Definition fzero : float := S754_zero false.
Definition hzero : half := S754_zero false.

(** Single-precision arithmetic, rounding to nearest, ties to even. *)
Definition fadd : float -> float -> float := SFadd float_prec float_emax.
Definition fsub : float -> float -> float := SFsub float_prec float_emax.
Definition fmul : float -> float -> float := SFmul float_prec float_emax.
Definition fdiv : float -> float -> float := SFdiv float_prec float_emax.
Definition fabs : float -> float := SFabs.

(** [a > b], [a < b] and [a <= b] on floats; all false on NaN. *)
Definition fgt (a b : float) : bool := SFltb b a.
Definition flt (a b : float) : bool := SFltb a b.
Definition fle (a b : float) : bool := SFleb a b.

(** [std::max(a, b)] is [(a < b) ? b : a]. *)
Definition fmax (a b : float) : float := if flt a b then b else a.

(** Literals used by the sources. *)
Definition f_1e_5 : float := S754_finite false 10995116 (-40).   (* 1e-5f *)
Definition f_5e_2 : float := S754_finite false 13421773 (-28).   (* 5e-2f *)

(** The half-precision value of a small natural number. *)
Definition h_of_nat (n : nat) : half :=
  binary_normalize half_prec half_emax (Z.of_nat n) 0 false.

End Fp.

(* ===================================================================== *)
(** ** Errors and loops *)
(* ===================================================================== *)

(** What stops a computation of the model. *)
Inductive error : Type :=
| out_of_range (row col : nat)     (* matrix element access out of range *)
| oob_read (idx : nat).            (* device load outside the buffer *)

(** A computation that returns a value or stops with an error. *)
Definition result (A : Type) : Type := error + A.

Definition ret {A} (a : A) : result A := inr a.
Definition throw {A} (e : error) : result A := inl e.
Definition bind {A B} (m : result A) (k : A -> result B) : result B :=
  match m with
  | inl e => inl e
  | inr a => k a
  end.

Notation "'let*' x ':=' m 'in' k" := (bind m (fun x => k))
  (at level 10, x name, m at level 100, k at level 200).

(** [for(i = lo; i < lo + n; ++i) s = body(i, s)], stopping at the first
    error. *)
Fixpoint for_loop {St} (n lo : nat) (body : nat -> St -> result St) (s : St)
  : result St :=
  match n with
  | 0 => ret s
  | S n' => let* s' := body lo s in for_loop n' (S lo) body s'
  end.

(** The same loop when the body may [return] a value out of the enclosing
    function: [Some r] stops the iteration. *)
Fixpoint for_until {R} (n lo : nat) (body : nat -> result (option R))
  : result (option R) :=
  match n with
  | 0 => ret None
  | S n' =>
      let* r := body lo in
      match r with
      | Some x => ret (Some x)
      | None => for_until n' (S lo) body
      end
  end.

(** [f] on every element, left to right, stopping at the first error. *)
Fixpoint map_result {A B} (f : A -> result B) (l : list A) : result (list B) :=
  match l with
  | [] => ret []
  | x :: l' =>
      let* y := f x in
      let* ys := map_result f l' in
      ret (y :: ys)
  end.

(* ===================================================================== *)
(** ** Matrices *)
(* ===================================================================== *)

Inductive matrix_layout : Type := row_major | col_major.

(** Modelled from the spec: the matrix class of common/matrix.hpp is not
    among the sources.  The spec gives it an immutable shape (rows, cols),
    a layout tag, an owned contiguous element buffer and bounds-checked
    element access. *)
Record matrix : Type := mk_matrix {
  m_layout : matrix_layout;
  m_rows : nat;
  m_cols : nat;
  m_data : list Fp.half
}.

(** The buffer holds rows * cols elements. *)
Definition wf_matrix (A : matrix) : Prop :=
  length (m_data A) = m_rows A * m_cols A.

(** Modelled from the spec: position of element (row, col) in the buffer
    under the layout tag. *)
Definition get_index (A : matrix) (row col : nat) : nat :=
  match m_layout A with
  | row_major => row * m_cols A + col
  | col_major => col * m_rows A + row
  end.

(** Modelled from the spec: the bounds check of element access. *)
Definition in_range (A : matrix) (row col : nat) : bool :=
  (row <? m_rows A) && (col <? m_cols A).

(** Modelled from the spec: [A(row, col)] as an rvalue, bounds-checked. *)
Definition mat_get (A : matrix) (row col : nat) : result Fp.half :=
  if in_range A row col then
    match m_data A !! get_index A row col with
    | Some v => ret v
    | None => throw (out_of_range row col)
    end
  else throw (out_of_range row col).

(** Modelled from the spec: [A(row, col) = v], bounds-checked. *)
Definition mat_set (A : matrix) (row col : nat) (v : Fp.half) : result matrix :=
  if in_range A row col then
    ret (mk_matrix (m_layout A) (m_rows A) (m_cols A)
           (<[get_index A row col := v]> (m_data A)))
  else throw (out_of_range row col).

(** The logical element, total; used to state results. *)
Definition mat_at (A : matrix) (row col : nat) : Fp.half :=
  default Fp.hzero (m_data A !! get_index A row col).

(* ===================================================================== *)
(** ** hgemm.hpp: CPU reference and verification *)
(* ===================================================================== *)

(** The k loop of [hgemm_cpu] for one (i, j): [float acc = 0.0f] and then
    [acc += static_cast<float>(A(i, k)) * static_cast<float>(B(k, j))] for
    k in [0, A.cols()). *)
Definition hgemm_cpu_acc (A B : matrix) (i j : nat) : result Fp.float :=
  for_loop (m_cols A) 0
    (fun k acc =>
       let* a := mat_get A i k in
       let* b := mat_get B k j in
       ret (Fp.fadd acc (Fp.fmul (Fp.to_float a) (Fp.to_float b))))
    Fp.fzero.

(** [hgemm_cpu(C, A, B)]: for every i < C.rows() and j < C.cols(),
    [C(i, j) = static_cast<half>(acc)]. *)
Definition hgemm_cpu (C A B : matrix) : result matrix :=
  for_loop (m_rows C) 0
    (fun i C1 =>
       for_loop (m_cols C) 0
         (fun j C2 =>
            let* acc := hgemm_cpu_acc A B i j in
            mat_set C2 i j (Fp.to_half acc))
         C1)
    C.

(** The fields of the failure line: (i, j), GPU value, CPU value and
    relative difference. *)
Record report : Type := mk_report {
  rep_row : nat;
  rep_col : nat;
  rep_gpu : Fp.float;
  rep_cpu : Fp.float;
  rep_rel : Fp.float
}.

(** What is printed: the failure line on [std::cerr] or the pass line on
    [std::cout]. *)
Inductive verify_output : Type :=
| verification_failed (r : report)
| verification_passed.

(** [abs_diff / std::max(std::abs(cpu_val), 1e-5f)] with
    [abs_diff = std::abs(gpu_val - cpu_val)]. *)
Definition rel_diff (gpu_val cpu_val : Fp.float) : Fp.float :=
  let abs_diff := Fp.fabs (Fp.fsub gpu_val cpu_val) in
  Fp.fdiv abs_diff (Fp.fmax (Fp.fabs cpu_val) Fp.f_1e_5).

(** The body of the two loops of [verify_results]: [Some] report when
    [rel_diff > tolerance], which returns false from the function. *)
Definition verify_cell (gpu_result cpu_result : matrix) (tolerance : Fp.float)
    (i j : nat) : result (option report) :=
  let* g := mat_get gpu_result i j in
  let* c := mat_get cpu_result i j in
  let gpu_val := Fp.to_float g in
  let cpu_val := Fp.to_float c in
  let rd := rel_diff gpu_val cpu_val in
  if Fp.fgt rd tolerance
  then ret (Some (mk_report i j gpu_val cpu_val rd))
  else ret None.

(** [verify_results(gpu_result, cpu_result, tolerance)]: the returned flag
    and what is printed. *)
Definition verify_results (gpu_result cpu_result : matrix)
    (tolerance : Fp.float) : result (bool * verify_output) :=
  let* r := for_until (m_rows gpu_result) 0
              (fun i =>
                 for_until (m_cols gpu_result) 0
                   (fun j => verify_cell gpu_result cpu_result tolerance i j)) in
  match r with
  | Some rep => ret (false, verification_failed rep)
  | None => ret (true, verification_passed)
  end.

(* ===================================================================== *)
(** ** Notions used to state the reference results *)
(* ===================================================================== *)

(** The sum the reference is meant to compute: single-precision products
    accumulated in single precision for k = 0, 1, ..., K-1. *)
Definition dot_f32 (A B : matrix) (i j K : nat) : Fp.float :=
  fold_left
    (fun acc k =>
       Fp.fadd acc (Fp.fmul (Fp.to_float (mat_at A i k))
                            (Fp.to_float (mat_at B k j))))
    (seq 0 K) Fp.fzero.

(** Two matrices with the same shape and the same logical elements; their
    layout tags and buffers may differ. *)
Definition same_logical (A A' : matrix) : Prop :=
  m_rows A = m_rows A' /\ m_cols A = m_cols A' /\
  forall i k, i < m_rows A -> k < m_cols A -> mat_get A i k = mat_get A' i k.

(** The same logical matrix stored under layout [L]. *)
Definition with_layout (L : matrix_layout) (A : matrix) : matrix :=
  mk_matrix L (m_rows A) (m_cols A)
    (map (fun idx =>
            match L with
            | row_major => mat_at A (idx / m_cols A) (idx mod m_cols A)
            | col_major => mat_at A (idx mod m_rows A) (idx / m_rows A)
            end)
         (seq 0 (m_rows A * m_cols A))).

(** State of [C] while the reference runs: shape and layout are those of
    the initial matrix and the cells already visited hold their sums. *)
Record cpu_inv (C A B C1 : matrix) (done : nat -> nat -> Prop) : Prop := {
  inv_layout : m_layout C1 = m_layout C;
  inv_rows : m_rows C1 = m_rows C;
  inv_cols : m_cols C1 = m_cols C;
  inv_wf : wf_matrix C1;
  inv_cells : forall i j, i < m_rows C -> j < m_cols C -> done i j ->
      mat_at C1 i j = Fp.to_half (dot_f32 A B i j (m_cols A))
}.

(** The relative difference [verify_results] computes for cell (i, j). *)
Definition cell_rel (gpu_result cpu_result : matrix) (i j : nat) : Fp.float :=
  rel_diff (Fp.to_float (mat_at gpu_result i j))
           (Fp.to_float (mat_at cpu_result i j)).

(** First index in [lo, lo + n) at which [f] answers, with its answer. *)
Fixpoint first_some {R} (f : nat -> option R) (n lo : nat) : option R :=
  match n with
  | 0 => None
  | S n' =>
      match f lo with
      | Some x => Some x
      | None => first_some f n' (S lo)
      end
  end.

(* ===================================================================== *)
(** ** kernels/common.hpp: shared constants and configurations *)
(* ===================================================================== *)

(** The kernels present in the sources. *)
Inductive kernel_type : Type :=
| wmma_naive
| wmma_shared
| wmma_shared_warp_buf_vec
| wmma_prefetch
| wmma_opt_1
| wmma_opt_2.

(** Modelled from the spec: kernels/common.hpp is not among the sources.
    The MMA primitive works on 16 x 16 tiles and a warp has 32 lanes (the
    kernels' own comments compute 4*4*16 = 256 and use warp_size / 2 = 16
    lanes per half-warp). *)
Definition wmma_tile : nat := 16.
Definition warp_size : nat := 32.

(** [sizeof(float8) / sizeof(half)]: eight 4-byte floats over 2-byte
    halves. *)
Definition float8_width : nat := (8 * 4) / 2.

(** The compile-time constants of a [wmma_config] specialisation. *)
Record wmma_config : Type := mk_config {
  warps_m : nat;
  warps_n : nat;
  total_warps : nat;
  warp_tile_m : nat;
  warp_tile_n : nat;
  block_m : nat;
  block_n : nat;
  block_k : nat;
  lds_stride_A : nat;
  lds_stride_B : nat;
  lds_size : nat;
  vector_width : nat
}.

(** [wmma_config<kernel_type::wmma_shared>]: the block tile is given and the
    warp grid derived from it; each warp owns the single accumulator
    fragment [c_frag], a 1 x 1 warp tile, and staging is element by
    element. *)
Definition config_s : wmma_config :=
  let block_m := 128 in
  let block_n := 64 in
  let block_k := 64 in
  let warps_m := block_m / wmma_tile in
  let warps_n := block_n / wmma_tile in
  mk_config warps_m warps_n (warps_m * warps_n) 1 1
    block_m block_n block_k block_m block_n
    ((block_m * block_k) + (block_k * block_n)) 1.

(** The shape shared by the warp-tiled specialisations: the block tile is
    derived from the warp grid and the warp tile. *)
Definition tiled_config (warps_m warps_n warp_tile_m warp_tile_n block_k
    vector_width : nat) : wmma_config :=
  let block_m := warps_m * warp_tile_m * wmma_tile in
  let block_n := warps_n * warp_tile_n * wmma_tile in
  mk_config warps_m warps_n (warps_m * warps_n) warp_tile_m warp_tile_n
    block_m block_n block_k block_m block_n
    ((block_m * block_k) + (block_k * block_n)) vector_width.

(** wmma_shared_warp_buf_vec, wmma_prefetch (block_k = wmma_tile),
    wmma_opt_1 and wmma_opt_2: 4 x 4 warps of 4 x 4 tiles. *)
Definition config_wbv : wmma_config := tiled_config 4 4 4 4 32 16.
Definition config_p : wmma_config := tiled_config 4 4 4 4 wmma_tile 16.
Definition config_o1 : wmma_config := tiled_config 4 4 4 4 32 float8_width.
Definition config_o2 : wmma_config := tiled_config 4 4 4 4 32 float8_width.

(** The naive kernel has no [wmma_config]. *)
Definition wmma_config_of (k : kernel_type) : option wmma_config :=
  match k with
  | wmma_naive => None
  | wmma_shared => Some config_s
  | wmma_shared_warp_buf_vec => Some config_wbv
  | wmma_prefetch => Some config_p
  | wmma_opt_1 => Some config_o1
  | wmma_opt_2 => Some config_o2
  end.

(** Modelled from the spec: only the declaration of the wmma_opt_1 kernel
    is among the sources.  Its documentation gives it double buffering at
    the global-to-shared level, and the spec asks for staging capacity of
    buffering depth times one (A tile, B tile) pair, which its siblings
    declare as [2 * lds_size]. *)
Definition opt_1_lds_mem_elems : nat := 2 * lds_size config_o1.

(** Number of [half] elements of the kernel's [__shared__ lds_mem] array. *)
Definition lds_mem_elems (k : kernel_type) : nat :=
  match k with
  | wmma_naive => 0
  | wmma_shared => lds_size config_s
  | wmma_shared_warp_buf_vec => 2 * lds_size config_wbv
  | wmma_prefetch => 2 * lds_size config_p
  | wmma_opt_1 => opt_1_lds_mem_elems
  | wmma_opt_2 => 2 * lds_size config_o2
  end.

(** Number of (A tile, B tile) staging buffers the kernel partitions
    [lds_mem] into: [a_tile]/[b_tile] alone, or [a_tiles_0]/[b_tiles_0] and
    [a_tiles_1]/[b_tiles_1]. *)
Definition buffering_depth (k : kernel_type) : nat :=
  match k with
  | wmma_naive => 0
  | wmma_shared => 1
  | _ => 2
  end.

(* ===================================================================== *)
(** ** Host side: launch geometry *)
(* ===================================================================== *)

(** [size_t] is 64 bits wide with wrap-around; [int] is 32 bits wide and a
    conversion to it keeps the low 32 bits in two's complement; the
    components of a [dim3] are 32-bit unsigned. *)
Open Scope Z_scope.

Definition SIZE_MAX : Z := 2 ^ 64 - 1.
Definition INT_MAX : Z := 2 ^ 31 - 1.

Definition to_size_t (z : Z) : Z := z mod 2 ^ 64.
Definition to_uint (z : Z) : Z := z mod 2 ^ 32.
Definition to_int (z : Z) : Z := (z + 2 ^ 31) mod 2 ^ 32 - 2 ^ 31.

Record dim3 : Type := mk_dim3 { dim_x : Z; dim_y : Z; dim_z : Z }.

(** [dim3(x)] and [dim3(x, y)]: missing components default to 1. *)
Definition dim3_1 (x : Z) : dim3 := mk_dim3 (to_uint x) 1 1.
Definition dim3_2 (x y : Z) : dim3 := mk_dim3 (to_uint x) (to_uint y) 1.

(** A kernel launch [<<<grid_dim, block_dim, 0, stream>>>(C, A, B, M, N, K)]
    with the [int] dimensions the kernel receives. *)
Record launch : Type := mk_launch {
  grid_dim : dim3;
  block_dim : dim3;
  arg_M : Z;
  arg_N : Z;
  arg_K : Z
}.

(** Modelled from the spec: [ceil_div] of kernels/common.hpp is not among
    the sources; the spec names it the ceiling division of a dimension by a
    tile size.  It is taken on [size_t] as (a + b - 1) / b, the formula the
    wmma_opt_2 dispatcher writes out. *)
Definition ceil_div (a b : Z) : Z := to_size_t (a + b - 1) / b.

(** [dim3 grid_dim(ceil_div(M, block_m), ceil_div(N, block_n))] with a
    [bx] x [by_] block. *)
Definition launch_2d (cfg : wmma_config) (bx by_ : Z) (M N K : Z) : launch :=
  mk_launch
    (dim3_2 (ceil_div M (Z.of_nat (block_m cfg)))
            (ceil_div N (Z.of_nat (block_n cfg))))
    (dim3_2 bx by_)
    (to_int M) (to_int N) (to_int K).

(** Modelled from the spec: only the declaration of
    [hgemm_gpu<wmma_opt_1>] is among the sources.  The spec's launch
    contract takes the grid as the ceiling division of (M, N) by the block
    tile; the block is one-dimensional as in the sibling
    wmma_shared_warp_buf_vec. *)
Definition hgemm_gpu_opt_1 (M N K : Z) : launch :=
  launch_2d config_o1 (Z.of_nat (warp_size * total_warps config_o1)) 1 M N K.

(** [hgemm_gpu<K_TYPE>(C, A, B, M, N, K, stream)] with [size_t] M, N, K. *)
Definition hgemm_gpu (k : kernel_type) (M N K : Z) : launch :=
  match k with
  | wmma_naive =>
      let warp_size := 32%Z in
      let block_x := to_uint (warp_size * 4) in
      let block_y := to_uint 4 in
      mk_launch
        (dim3_2 (ceil_div M (to_uint (Z.of_nat wmma_tile * block_x) / warp_size))
                (ceil_div N (to_uint (Z.of_nat wmma_tile * block_y))))
        (mk_dim3 block_x block_y 1)
        (to_int M) (to_int N) (to_int K)
  | wmma_shared =>
      launch_2d config_s
        (Z.of_nat (warp_size * warps_m config_s)) (Z.of_nat (warps_n config_s))
        M N K
  | wmma_shared_warp_buf_vec =>
      launch_2d config_wbv (Z.of_nat (warp_size * total_warps config_wbv)) 1
        M N K
  | wmma_prefetch =>
      launch_2d config_p (Z.of_nat (32 * total_warps config_p)) 1 M N K
  | wmma_opt_1 => hgemm_gpu_opt_1 M N K
  | wmma_opt_2 =>
      let bm := Z.of_nat (block_m config_o2) in
      let bn := Z.of_nat (block_n config_o2) in
      let grid_m := to_int (to_size_t (to_size_t (M + bm) - 1) / bm) in
      let grid_n := to_int (to_size_t (to_size_t (N + bn) - 1) / bn) in
      let total_blocks := to_int (grid_m * grid_n) in
      mk_launch
        (dim3_1 total_blocks)
        (dim3_1 (Z.of_nat (warp_size * total_warps config_o2)))
        (to_int M) (to_int N) (to_int K)
  end.

(** The output block tile one execution group is responsible for; the
    naive kernel's block of 4 x 4 warps covers 64 x 64. *)
Definition block_tile (k : kernel_type) : Z * Z :=
  match wmma_config_of k with
  | Some cfg => (Z.of_nat (block_m cfg), Z.of_nat (block_n cfg))
  | None => (64, 64)
  end.

(** wmma_opt_2 flattens its grid and maps the block index itself. *)
Definition grid_is_1d (k : kernel_type) : bool :=
  match k with
  | wmma_opt_2 => true
  | _ => false
  end.

(** [g] is the ceiling of [a / b]. *)
Definition is_ceil (a b g : Z) : Prop := (g - 1) * b < a <= g * b.

(** The launch contract: ceil(M / block_m) by ceil(N / block_n) blocks, in
    a 2-D grid or flattened into a 1-D grid. *)
Definition launches_one_block_per_tile (k : kernel_type) (M N K : Z) : Prop :=
  let g := grid_dim (hgemm_gpu k M N K) in
  let '(bm, bn) := block_tile k in
  if grid_is_1d k
  then exists gm gn, is_ceil M bm gm /\ is_ceil N bn gn /\
                     dim_x g = gm * gn /\ dim_y g = 1 /\ dim_z g = 1
  else is_ceil M bm (dim_x g) /\ is_ceil N bn (dim_y g) /\ dim_z g = 1.

Close Scope Z_scope.

(* ===================================================================== *)
(** ** Block scheduler *)
(* ===================================================================== *)

(** Modelled from the spec: the naive mapping of a linear block index,
    block_row = id / grid_n and block_col = id % grid_n (the kernels with a
    2-D grid read the pair from [blockIdx]). *)
Definition naive_tile_mapping (id grid_n : nat) : nat * nat :=
  (id / grid_n, id mod grid_n).

(** Modelled from the spec: quadrant rotation of the Hilbert construction
    on an s x s square, used by [hilbert_d2xy] below. *)
Definition hilbert_rot (s x y rx ry : nat) : nat * nat :=
  if ry =? 0
  then if rx =? 1 then (s - 1 - y, s - 1 - x) else (y, x)
  else (x, y).

(** Modelled from the spec: [hilbert_tile_mapping] of kernels/common.hpp is
    not among the sources.  The spec describes a Hilbert-curve
    index-to-coordinate mapping over the grid_m x grid_n block grid that
    pads to the next power-of-two bounding square internally and discards
    out-of-range results.

    [hilbert_d2xy order d] is the usual distance-to-coordinate walk over the
    base-4 digits of [d], least significant first: digit number [j] selects
    (rx, ry), rotates the 2^j x 2^j sub-square built so far and moves it
    into its quadrant. *)
Fixpoint hilbert_d2xy (order d : nat) : nat * nat :=
  match order with
  | 0 => (0, 0)
  | S j =>
      let s := 2 ^ j in
      let t := (d / 4 ^ j) mod 4 in
      let rx := (t / 2) mod 2 in
      let ry := (Nat.lxor t rx) mod 2 in
      let '(x, y) := hilbert_d2xy j d in
      let '(x', y') := hilbert_rot s x y rx ry in
      (x' + s * rx, y' + s * ry)
  end.

(** Modelled from the spec: order of the next power-of-two square that
    bounds the grid. *)
Definition bounding_order (grid_m grid_n : nat) : nat :=
  Nat.log2_up (Nat.max grid_m grid_n).

(** Modelled from the spec: the cells that are not discarded. *)
Definition in_grid (grid_m grid_n : nat) (p : nat * nat) : bool :=
  (fst p <? grid_m) && (snd p <? grid_n).

(** Modelled from the spec: the curve over the padded square with the
    out-of-range cells discarded. *)
Definition hilbert_cells (grid_m grid_n : nat) : list (nat * nat) :=
  let order := bounding_order grid_m grid_n in
  List.filter (in_grid grid_m grid_n)
    (map (hilbert_d2xy order) (seq 0 (4 ^ order))).

(** Modelled from the spec: [hilbert_tile_mapping<BLOCK_M, BLOCK_N>(tile_id,
    grid_m, grid_n, &block_row, &block_col)], of which only the call in
    wmma_opt_2 is among the sources: the [tile_id]-th in-range cell of the
    curve, scaled to the top-left element of its block. *)
Definition hilbert_tile_mapping (BLOCK_M BLOCK_N : nat)
    (tile_id grid_m grid_n : nat) : nat * nat :=
  let '(x, y) := nth tile_id (hilbert_cells grid_m grid_n) (0, 0) in
  (x * BLOCK_M, y * BLOCK_N).

(** The cells of a grid_m x grid_n grid in row-major order, as the naive
    mapping enumerates them. *)
Definition grid_cells (grid_m grid_n : nat) : list (nat * nat) :=
  map (fun id => naive_tile_mapping id grid_n) (seq 0 (grid_m * grid_n)).

(* ===================================================================== *)
(** ** Device memory, threads and fragments *)
(* ===================================================================== *)

(** A device buffer is the list of its elements; a load outside it is an
    error of the model. *)
Definition load_elem (buf : list Fp.half) (idx : nat) : result Fp.half :=
  match buf !! idx with
  | Some v => ret v
  | None => throw (oob_read idx)
  end.

(** A vector load of [width] consecutive elements. *)
Definition load_vec (buf : list Fp.half) (idx width : nat)
  : result (list Fp.half) :=
  if idx + width <=? length buf
  then ret (take width (drop idx buf))
  else throw (oob_read idx).

(** [half16 frag = {}]. *)
Definition frag_zero : list Fp.half := replicate 16 Fp.hzero.

(** A store to global memory: target index and value. *)
Definition store : Type := nat * Fp.half.

(** Stores performed one after the other; the last store to an index
    determines its value. *)
Definition apply_stores (sts : list store) (mem : list Fp.half)
  : list Fp.half :=
  fold_left (fun m st => <[fst st := snd st]> m) sts mem.

(** The index range [for(i = start; i < bound; i += step)] walks through. *)
Definition strided (start bound step : nat) : list nat :=
  map (fun t => start + t * step)
      (seq 0 (if start <? bound then (bound - start + step - 1) / step else 0)).

(** [blockIdx] and [threadIdx] of one thread. *)
Record thread_id : Type := mk_thread {
  blockIdx_x : nat;
  blockIdx_y : nat;
  threadIdx_x : nat;
  threadIdx_y : nat
}.

(** Device-side [warpSize] and half of it. *)
Definition warpSize : nat := 32.
Definition half_warp : nat := warpSize / 2.

(** The threads a launch starts. *)
Definition in_launch (l : launch) (t : thread_id) : Prop :=
  (Z.of_nat (blockIdx_x t) < dim_x (grid_dim l))%Z /\
  (Z.of_nat (blockIdx_y t) < dim_y (grid_dim l))%Z /\
  (Z.of_nat (threadIdx_x t) < dim_x (block_dim l))%Z /\
  (Z.of_nat (threadIdx_y t) < dim_y (block_dim l))%Z.

(* ===================================================================== *)
(** ** kernels/wmma.hpp: the naive kernel *)
(* ===================================================================== *)

(** [load_matrix<matrix_a, row_major>(frag, data, row, col, M, N)]. *)
Definition load_matrix_a_row_major (frag data : list Fp.half)
    (row col M N tx : nat) : result (list Fp.half) :=
  let lane := tx mod half_warp in
  let offset := row + lane in
  for_loop wmma_tile 0
    (fun i frag =>
       if (offset <? M) && (col + i <? N)
       then let* v := load_elem data (offset * N + col + i) in
            ret (<[i := v]> frag)
       else ret frag)
    frag.

(** [load_matrix<matrix_a, col_major>(frag, data, row, col, M, N)]. *)
Definition load_matrix_a_col_major (frag data : list Fp.half)
    (row col M N tx : nat) : result (list Fp.half) :=
  let lane := tx mod half_warp in
  let offset := row + lane in
  for_loop wmma_tile 0
    (fun i frag =>
       if (col + i <? N) && (offset <? M)
       then let* v := load_elem data (col * M + offset + i * M) in
            ret (<[i := v]> frag)
       else ret frag)
    frag.

(** [load_matrix<matrix_b, row_major>(frag, data, row, col, M, N)]. *)
Definition load_matrix_b_row_major (frag data : list Fp.half)
    (row col M N tx : nat) : result (list Fp.half) :=
  let lane := tx mod half_warp in
  let offset := col + lane in
  for_loop wmma_tile 0
    (fun i frag =>
       if (row + i <? M) && (offset <? N)
       then let* v := load_elem data (row * N + offset + i * N) in
            ret (<[i := v]> frag)
       else ret frag)
    frag.

(** [load_matrix<matrix_b, col_major>(frag, data, row, col, M, N)]. *)
Definition load_matrix_b_col_major (frag data : list Fp.half)
    (row col M N tx : nat) : result (list Fp.half) :=
  let lane := tx mod half_warp in
  let offset := col + lane in
  for_loop wmma_tile 0
    (fun i frag =>
       if (offset <? N) && (row + i <? M)
       then let* v := load_elem data (offset * M + row + i) in
            ret (<[i := v]> frag)
       else ret frag)
    frag.

(** [store_matrix(data, frag, row, col, M, N)]: the eight stores of one
    thread, issued without any test on [M] or [N]. *)
Definition store_matrix (frag : list Fp.half) (row col M N tx : nat)
  : list store :=
  let lane := tx mod half_warp in
  let half_warp_id := (tx mod warpSize) / half_warp in
  let offset := col + lane in
  map (fun i =>
         let r := i * 2 + half_warp_id in
         ((row + r) * N + offset, nth (i * 2) frag Fp.hzero))
      (seq 0 (wmma_tile / 2)).

(** Modelled from the spec: the hardware MMA primitive
    [__builtin_amdgcn_wmma_f16_16x16x16_f16_w32(a, b, c, false)], a compiler
    builtin whose definition no source file holds, multiplies
    two 16 x 16 half-precision tiles and accumulates into a half-precision
    16 x 16 result with single-precision intermediate accumulation.  In the
    wave, lane l holds row (l mod 16) of the A tile in [a], column
    (l mod 16) of the B tile in [b], and in element 2*i of [c] the entry at
    row 2*i + l / 16 and column l mod 16 of the accumulator, which is how
    the kernels load and store the fragments.  [a_frags], [b_frags] and
    [c_frags] are the fragments of the 32 lanes; the result is the new
    accumulator fragment of [lane]. *)
Definition wmma_entry (a_frags b_frags c_frags : list (list Fp.half))
    (r c : nat) : Fp.half :=
  let a_row := nth r a_frags frag_zero in
  let b_col := nth c b_frags frag_zero in
  let c_in := nth (2 * (r / 2)) (nth (16 * (r mod 2) + c) c_frags frag_zero)
                  Fp.hzero in
  Fp.to_half
    (fold_left
       (fun acc k =>
          Fp.fadd acc (Fp.fmul (Fp.to_float (nth k a_row Fp.hzero))
                               (Fp.to_float (nth k b_col Fp.hzero))))
       (seq 0 16) (Fp.to_float c_in)).

(** Modelled from the spec: the accumulator fragment the primitive returns
    to [lane], entries 2*i for i = 0..7. *)
Definition wmma_f16_16x16x16 (a_frags b_frags c_frags : list (list Fp.half))
    (lane : nat) : list Fp.half :=
  fold_left
    (fun frag i =>
       <[2 * i := wmma_entry a_frags b_frags c_frags
                    (2 * i + lane / 16) (lane mod 16)]> frag)
    (seq 0 8) frag_zero.

(** The K loop of [kernel_hgemm<wmma_naive>] for the wave working on the
    output tile at ([c_row], [c_col]): the accumulator fragments of its 32
    lanes. *)
Definition naive_wave (A B : list Fp.half) (M N K c_row c_col : nat)
  : result (list (list Fp.half)) :=
  let steps := (K + wmma_tile - 1) / wmma_tile in
  for_loop steps 0
    (fun m c_frags =>
       let k := m * wmma_tile in
       let* a_frags :=
         map_result (load_matrix_a_row_major frag_zero A c_row k M K)
                    (seq 0 warpSize) in
       let* b_frags :=
         map_result (load_matrix_b_col_major frag_zero B k c_col K N)
                    (seq 0 warpSize) in
       ret (map (wmma_f16_16x16x16 a_frags b_frags c_frags) (seq 0 warpSize)))
    (replicate warpSize frag_zero).

(** [kernel_hgemm<wmma_naive>] as run by one thread of a block of
    [blockDim_x] x [blockDim_y] threads: the stores it issues to C. *)
Definition naive_thread_stores (A B : list Fp.half) (M N K : nat)
    (blockDim_x blockDim_y : nat) (t : thread_id) : result (list store) :=
  let ix := (blockIdx_x t * blockDim_x + threadIdx_x t) / warpSize in
  let iy := blockIdx_y t * blockDim_y + threadIdx_y t in
  let c_row := ix * wmma_tile in
  let c_col := iy * wmma_tile in
  let* c_frags := naive_wave A B M N K c_row c_col in
  let c_frag := nth (threadIdx_x t mod warpSize) c_frags frag_zero in
  ret (store_matrix c_frag c_row c_col M N (threadIdx_x t)).

(* ===================================================================== *)
(** ** Staging of A and B tiles into shared memory *)
(* ===================================================================== *)

(** What a staging step does to shared memory, as issued. *)
Inductive transfer : Type :=
| vec_copy (dst src width : nat)   (* one vector-wide load and store *)
| elem_copy (dst src : nat)        (* lds[dst] = gmem[src] *)
| elem_zero (dst : nat).           (* lds[dst] = 0 *)

(** The effect of one transfer from the global buffer [gmem] on the shared
    buffer [lds]. *)
Definition exec_transfer (gmem : list Fp.half) (lds : list Fp.half)
    (t : transfer) : result (list Fp.half) :=
  match t with
  | vec_copy dst src width =>
      let* v := load_vec gmem src width in
      ret (list_inserts dst v lds)
  | elem_copy dst src =>
      let* v := load_elem gmem src in
      ret (<[dst := v]> lds)
  | elem_zero dst => ret (<[dst := Fp.hzero]> lds)
  end.

Fixpoint exec_transfers (gmem : list Fp.half) (ts : list transfer)
    (lds : list Fp.half) : result (list Fp.half) :=
  match ts with
  | [] => ret lds
  | t :: ts' =>
      let* lds' := exec_transfer gmem lds t in
      exec_transfers gmem ts' lds'
  end.

(** The element-wise policy for one chunk of [width] positions: position
    [v] is copied when [inb v] holds and zeroed otherwise. *)
Definition elementwise (width dst src : nat) (inb : nat -> bool)
  : list transfer :=
  map (fun v => if inb v then elem_copy (dst + v) (src + v)
                else elem_zero (dst + v))
      (seq 0 width).

(** The value position [v] of a chunk must receive. *)
Definition staged_value (gmem : list Fp.half) (src : nat) (inb : nat -> bool)
    (v : nat) : Fp.half :=
  if inb v then default Fp.hzero (gmem !! (src + v)) else Fp.hzero.

(** *** wmma_shared: element-by-element staging

    Element [i] of the A tile and of the B tile for the K slice starting at
    [k_tile]. *)
Definition ws_load_a_elem (M K block_row k_tile i : nat) : transfer :=
  let col := i / block_m config_s in
  let row := i mod block_m config_s in
  if (block_row + row <? M) && (k_tile + col <? K)
  then elem_copy (col * lds_stride_A config_s + row)
                 (block_row + k_tile * M + col * M + row)
  else elem_zero (col * lds_stride_A config_s + row).

(** The same for B, row-major with leading dimension [N]. *)
Definition ws_load_b_elem (N K block_col k_tile i : nat) : transfer :=
  let row := i / block_n config_s in
  let col := i mod block_n config_s in
  if (k_tile + row <? K) && (block_col + col <? N)
  then elem_copy (row * lds_stride_B config_s + col)
                 (block_col + k_tile * N + row * N + col)
  else elem_zero (row * lds_stride_B config_s + col).

(** The loops [for(i = tid; i < tile; i += num_threads)] of one thread. *)
Definition ws_load_a (M K block_row k_tile tid num_threads : nat)
  : list transfer :=
  map (ws_load_a_elem M K block_row k_tile)
      (strided tid (block_m config_s * block_k config_s) num_threads).

Definition ws_load_b (N K block_col k_tile tid num_threads : nat)
  : list transfer :=
  map (ws_load_b_elem N K block_col k_tile)
      (strided tid (block_k config_s * block_n config_s) num_threads).

(** *** wmma_shared_warp_buf_vec (and, with its own constants, wmma_opt_2)

    One chunk of the A tile, at linear tile offset [i].  A is column-major
    with leading dimension [M]; [k_base] is the first K index of the tile
    being staged: 0 for the load before the main loop (guard [col < K],
    source [A_tile_ptr]), [k_tile + block_k] inside it (guard
    [k_tile + block_k + col < K], source [next_A]). *)
Definition wbv_load_a_chunk (cfg : wmma_config) (M K block_row k_base i : nat)
  : list transfer :=
  let col := i / block_m cfg in
  let row := i mod block_m cfg in
  let src := block_row + k_base * M + col * M + row in
  let dst := col * lds_stride_A cfg + row in
  if (block_row + row + vector_width cfg - 1 <? M) && (k_base + col <? K)
  then [vec_copy dst src (vector_width cfg)]
  else map (fun v =>
              if (block_row + row + v <? M) && (k_base + col <? K)
              then elem_copy (dst + v) (src + v)
              else elem_zero (dst + v))
           (seq 0 (vector_width cfg)).

(** One chunk of the B tile; B is row-major with leading dimension [N]. *)
Definition wbv_load_b_chunk (cfg : wmma_config) (N K block_col k_base i : nat)
  : list transfer :=
  let row := i / block_n cfg in
  let col := i mod block_n cfg in
  let src := block_col + k_base * N + row * N + col in
  let dst := row * lds_stride_B cfg + col in
  if (k_base + row <? K) && (block_col + col + vector_width cfg - 1 <? N)
  then [vec_copy dst src (vector_width cfg)]
  else map (fun v =>
              if (k_base + row <? K) && (block_col + col + v <? N)
              then elem_copy (dst + v) (src + v)
              else elem_zero (dst + v))
           (seq 0 (vector_width cfg)).

(** The chunks thread [cid] of a half block of [half_block] threads owns. *)
Definition chunks_of (cfg : wmma_config) (tile_elems cid half_block : nat)
  : list nat :=
  strided (cid * vector_width cfg) tile_elems (half_block * vector_width cfg).

(** The staging loops of one thread over its chunks. *)
Definition wbv_load_a (cfg : wmma_config) (M K block_row k_base : nat)
    (cid half_block : nat) : list transfer :=
  flat_map (wbv_load_a_chunk cfg M K block_row k_base)
           (chunks_of cfg (block_m cfg * block_k cfg) cid half_block).

Definition wbv_load_b (cfg : wmma_config) (N K block_col k_base : nat)
    (cid half_block : nat) : list transfer :=
  flat_map (wbv_load_b_chunk cfg N K block_col k_base)
           (chunks_of cfg (block_k cfg * block_n cfg) cid half_block).

(** The same staging step in wmma_shared_warp_buf_vec, for comparison. *)
Definition wbv_initial_stage_a (A : list Fp.half) (M K block_row cid : nat)
    (a_tiles : list Fp.half) : result (list Fp.half) :=
  let half_block := (warp_size * total_warps config_wbv) / 2 in
  exec_transfers A (wbv_load_a config_wbv M K block_row 0 cid half_block)
    a_tiles.

(** *** wmma_prefetch

    Global data goes to the per-thread register buffer first and from there
    to shared memory.  The register buffer [a_reg_buf] is declared without
    an initialiser: its content on entry is an input of the model.

    Register load of the A tile by thread [cid].  [k_guard] is the K index
    the bounds test adds to [col] and [a_ptr] the offset of the tile pointer
    into A: before the main loop the test is [col < K] on [A_tile_ptr];
    inside it the test is [(k_tile + col) < K] while the source is
    [next_A = A_tile_ptr + M * block_k]. *)
Definition pf_load_a_regs (cfg : wmma_config) (A : list Fp.half)
    (M K block_row k_guard a_ptr cid half_block : nat)
    (a_reg_buf : list (list Fp.half)) : result (list (list Fp.half)) :=
  fold_left
    (fun acc i =>
       let* regs := acc in
       let col := i / block_m cfg in
       let row := i mod block_m cfg in
       let local_idx := (i / vector_width cfg) / half_block in
       if (block_row + row + vector_width cfg - 1 <? M) && (k_guard + col <? K)
       then let* v := load_vec A (a_ptr + col * M + row) (vector_width cfg) in
            ret (<[local_idx := v]> regs)
       else ret regs)
    (chunks_of cfg (block_m cfg * block_k cfg) cid half_block)
    (ret a_reg_buf).

(** Store of the A registers to the shared A tile [a_tiles]. *)
Definition pf_store_a_regs (cfg : wmma_config) (cid half_block : nat)
    (a_reg_buf : list (list Fp.half)) (a_tiles : list Fp.half)
  : list Fp.half :=
  fold_left
    (fun lds i =>
       let col := i / block_m cfg in
       let row := i mod block_m cfg in
       let local_idx := (i / vector_width cfg) / half_block in
       list_inserts (col * lds_stride_A cfg + row)
                    (nth local_idx a_reg_buf []) lds)
    (chunks_of cfg (block_k cfg * block_n cfg) cid half_block)
    a_tiles.

(** The "initial load to registers" block for a thread of the first half
    of the block ([tid < half_block]): what it leaves in the shared A
    tile. *)
Definition pf_initial_stage_a (A : list Fp.half) (M K block_row cid : nat)
    (a_reg_buf : list (list Fp.half)) (a_tiles : list Fp.half)
  : result (list Fp.half) :=
  let half_block := (warp_size * total_warps config_p) / 2 in
  let* regs := pf_load_a_regs config_p A M K block_row 0 block_row
                 cid half_block a_reg_buf in
  ret (pf_store_a_regs config_p cid half_block regs a_tiles).

(** The "global prefetch for next tile" block at iteration [k_tile] of the
    main loop, for the same thread: its register load. *)
Definition pf_prefetch_a (A : list Fp.half) (M K block_row k_tile cid : nat)
    (a_reg_buf : list (list Fp.half)) : result (list (list Fp.half)) :=
  let half_block := (warp_size * total_warps config_p) / 2 in
  let A_tile_ptr := block_row + k_tile * M in
  let next_A := A_tile_ptr + M * block_k config_p in
  if k_tile + block_k config_p <? K
  then pf_load_a_regs config_p A M K block_row k_tile next_A
         cid half_block a_reg_buf
  else ret a_reg_buf.

(* ===================================================================== *)
(** ** Epilogue: stores of the accumulator fragments to C *)
(* ===================================================================== *)

(** wmma_shared: the store loop of the thread ([threadIdx_x], [threadIdx_y])
    of a [blockDim_x]-wide block, holding the accumulator [c_frag]. *)
Definition ws_epilogue_stores (c_frag : list Fp.half) (M N : nat)
    (blockDim_x : nat) (t : thread_id) : list store :=
  let warp_id :=
    threadIdx_y t * (blockDim_x / warp_size) + threadIdx_x t / warp_size in
  let warps_m := block_m config_s / wmma_tile in
  let warp_m_idx := warp_id mod warps_m in
  let warp_n_idx := warp_id / warps_m in
  let warp_m_offset := warp_m_idx * wmma_tile in
  let warp_n_offset := warp_n_idx * wmma_tile in
  let lane := threadIdx_x t mod warp_size in
  let half_warp_id := lane / (warp_size / 2) in
  let half_lane := lane mod (warp_size / 2) in
  let block_row := blockIdx_x t * block_m config_s in
  let block_col := blockIdx_y t * block_n config_s in
  flat_map
    (fun i =>
       let row := i * 2 + half_warp_id in
       if (block_row + warp_m_offset + row <? M)
          && (block_col + warp_n_offset + half_lane <? N)
       then [((block_row + warp_m_offset + row) * N
              + (block_col + warp_n_offset + half_lane),
              nth (i * 2) c_frag Fp.hzero)]
       else [])
    (seq 0 (wmma_tile / 2)).

(** wmma_shared_warp_buf_vec and wmma_prefetch share their store loop over
    the warp tile grid; [c_frags wm wn] is the accumulator of warp tile
    (wm, wn) of the thread [tid] of block ([block_row], [block_col]). *)
Definition tiled_epilogue_stores (cfg : wmma_config)
    (c_frags : nat -> nat -> list Fp.half)
    (M N block_row block_col tid : nat) : list store :=
  let C_base := block_row * N + block_col in
  let warp_id := tid / warp_size in
  let warp_row := warp_id / warps_n cfg in
  let warp_col := warp_id mod warps_n cfg in
  let half_warp_id := (tid mod warp_size) / (warp_size / 2) in
  let half_lane := tid mod (warp_size / 2) in
  let warp_m_base := warp_row * warp_tile_m cfg * wmma_tile in
  let warp_n_base := warp_col * warp_tile_n cfg * wmma_tile in
  let C_warp := C_base + warp_m_base * N + warp_n_base in
  flat_map
    (fun wm =>
       let C_row := C_warp + wm * wmma_tile * N in
       flat_map
         (fun wn =>
            let n_offset := wn * wmma_tile + half_lane in
            flat_map
              (fun i =>
                 let row := i * 2 + half_warp_id in
                 if (block_row + warp_m_base + row <? M)
                    && (block_col + n_offset <? N)
                 then [(C_row + row * N + n_offset,
                        nth (i * 2) (c_frags wm wn) Fp.hzero)]
                 else [])
              (seq 0 (wmma_tile / 2)))
         (seq 0 (warp_tile_n cfg)))
    (seq 0 (warp_tile_m cfg)).

(* ===================================================================== *)
(** ** kernel_hgemm<wmma_shared_warp_buf_vec>: one block *)
(* ===================================================================== *)

(** One staging buffer: the A tile (column-major, stride [lds_stride_A])
    and the B tile (row-major, stride [lds_stride_B]). *)
Record tiles : Type := mk_tiles {
  a_tile : list Fp.half;
  b_tile : list Fp.half
}.

(** All threads of the block stage the K slice starting at [k_base] into
    [t]: the first half of the block loads A, the second half loads B,
    each thread its own chunks. *)
Definition wbv_stage (cfg : wmma_config) (A B : list Fp.half)
    (M N K block_row block_col k_base : nat) (t : tiles) : result tiles :=
  let half_block := (warp_size * total_warps cfg) / 2 in
  let* a' :=
    exec_transfers A
      (flat_map (fun cid => wbv_load_a cfg M K block_row k_base cid half_block)
                (seq 0 half_block))
      (a_tile t) in
  let* b' :=
    exec_transfers B
      (flat_map (fun cid => wbv_load_b cfg N K block_col k_base cid half_block)
                (seq 0 half_block))
      (b_tile t) in
  ret (mk_tiles a' b').

(** [a_frag[wm]] and [b_frag[wn]] of a lane: sixteen strided reads of the
    current tiles. *)
Definition wbv_a_frag (cfg : wmma_config) (current_a : list Fp.half)
    (k_offset warp_m_base wm lane : nat) : list Fp.half :=
  let half_lane := lane mod (warp_size / 2) in
  let src := k_offset * lds_stride_A cfg
             + (warp_m_base + wm * wmma_tile + half_lane) in
  map (fun i => nth (src + i * lds_stride_A cfg) current_a Fp.hzero)
      (seq 0 wmma_tile).

Definition wbv_b_frag (cfg : wmma_config) (current_b : list Fp.half)
    (k_offset warp_n_base wn lane : nat) : list Fp.half :=
  let half_lane := lane mod (warp_size / 2) in
  let src := k_offset * lds_stride_B cfg
             + (warp_n_base + wn * wmma_tile + half_lane) in
  map (fun i => nth (src + i * lds_stride_B cfg) current_b Fp.hzero)
      (seq 0 wmma_tile).

(** The accumulators of one warp: [c_frags[wm][wn]] for each of its 32
    lanes. *)
Definition warp_acc : Type := list (list (list (list Fp.half))).

Definition warp_acc_zero (cfg : wmma_config) : warp_acc :=
  replicate (warp_tile_m cfg)
    (replicate (warp_tile_n cfg) (replicate warp_size frag_zero)).

(** "Process the loaded block_k in wmma_tile chunks" for the warp
    [warp_id]. *)
Definition wbv_compute (cfg : wmma_config) (current : tiles) (warp_id : nat)
    (acc : warp_acc) : warp_acc :=
  let warp_row := warp_id / warps_n cfg in
  let warp_col := warp_id mod warps_n cfg in
  let warp_m_base := warp_row * warp_tile_m cfg * wmma_tile in
  let warp_n_base := warp_col * warp_tile_n cfg * wmma_tile in
  fold_left
    (fun acc k_offset =>
       let a_frags wm :=
         map (wbv_a_frag cfg (a_tile current) k_offset warp_m_base wm)
             (seq 0 warp_size) in
       let b_frags wn :=
         map (wbv_b_frag cfg (b_tile current) k_offset warp_n_base wn)
             (seq 0 warp_size) in
       map (fun wm =>
              map (fun wn =>
                     let c := nth wn (nth wm acc []) [] in
                     map (wmma_f16_16x16x16 (a_frags wm) (b_frags wn) c)
                         (seq 0 warp_size))
                  (seq 0 (warp_tile_n cfg)))
           (seq 0 (warp_tile_m cfg)))
    (strided 0 (block_k cfg) wmma_tile)
    acc.

(** State of the main loop as seen by one warp: the two staging buffers
    and the warp's accumulators. *)
Record wbv_state : Type := mk_wbv_state {
  st_current : tiles;
  st_next : tiles;
  st_acc : warp_acc
}.

(** The block up to the epilogue, followed for the warp [warp_id]: staging
    of the first K slice into buffer 0, then for each k_tile the staging of
    the next slice into the other buffer, the compute step on the current
    one and the swap.  [lds_0] and [lds_1] are the two halves of [lds_mem]
    as the block finds them. *)
Definition wbv_main_loop (cfg : wmma_config) (A B : list Fp.half)
    (M N K block_row block_col warp_id : nat) (lds_0 lds_1 : tiles)
  : result wbv_state :=
  let* tiles_0 := wbv_stage cfg A B M N K block_row block_col 0 lds_0 in
  for_loop ((K + block_k cfg - 1) / block_k cfg) 0
    (fun it st =>
       let k_tile := it * block_k cfg in
       let* next :=
         if k_tile + block_k cfg <? K
         then wbv_stage cfg A B M N K block_row block_col
                (k_tile + block_k cfg) (st_next st)
         else ret (st_next st) in
       let acc := wbv_compute cfg (st_current st) warp_id (st_acc st) in
       ret (mk_wbv_state next (st_current st) acc))
    (mk_wbv_state tiles_0 lds_1 (warp_acc_zero cfg)).

(** [kernel_hgemm<wmma_shared_warp_buf_vec>] as run by thread [tid] of the
    block at ([block_row], [block_col]): the stores it issues to C. *)
Definition wbv_thread_stores (A B : list Fp.half) (M N K : nat)
    (block_row block_col tid : nat) (lds_0 lds_1 : tiles)
  : result (list store) :=
  let* st := wbv_main_loop config_wbv A B M N K block_row block_col
               (tid / warp_size) lds_0 lds_1 in
  let c_frags wm wn :=
    nth (tid mod warp_size) (nth wn (nth wm (st_acc st) []) []) frag_zero in
  ret (tiled_epilogue_stores config_wbv c_frags M N block_row block_col tid).

(* ===================================================================== *)
(** ** What staging must leave in a tile *)
(* ===================================================================== *)

(** The boundary policy for position [j] of the A tile of the K slice
    starting at [k_base]: the element of A when its row and its K index
    are inside the matrix, zero otherwise. *)
Definition tile_a_value (cfg : wmma_config) (A : list Fp.half)
    (M K block_row k_base j : nat) : Fp.half :=
  let col := j / block_m cfg in
  let row := j mod block_m cfg in
  if (block_row + row <? M) && (k_base + col <? K)
  then default Fp.hzero (A !! (block_row + k_base * M + col * M + row))
  else Fp.hzero.

(** The same for position [j] of the B tile. *)
Definition tile_b_value (cfg : wmma_config) (B : list Fp.half)
    (N K block_col k_base j : nat) : Fp.half :=
  let row := j / block_n cfg in
  let col := j mod block_n cfg in
  if (k_base + row <? K) && (block_col + col <? N)
  then default Fp.hzero (B !! (block_col + k_base * N + row * N + col))
  else Fp.hzero.

(** A staging buffer whose tiles hold what the policy asks; shared memory
    behind the tiles is as in [t]. *)
Definition staged_tiles (cfg : wmma_config) (A B : list Fp.half)
    (M N K block_row block_col k_base : nat) (t : tiles) : tiles :=
  let a_elems := block_m cfg * block_k cfg in
  let b_elems := block_k cfg * block_n cfg in
  mk_tiles
    (map (tile_a_value cfg A M K block_row k_base) (seq 0 a_elems)
       ++ drop a_elems (a_tile t))
    (map (tile_b_value cfg B N K block_col k_base) (seq 0 b_elems)
       ++ drop b_elems (b_tile t)).

(** Whether position [j] lies in one of the chunks of [width] positions
    that start at the offsets [cs]. *)
Definition covered (width : nat) (cs : list nat) (j : nat) : bool :=
  existsb (fun i => (i <=? j) && (j <? i + width)) cs.

(* ===================================================================== *)
(** ** Concrete inputs *)
(* ===================================================================== *)

(** Small operands used to exercise the reference: A is 2 x 3 row-major,
    B is 3 x 2 column-major, [ex_B4] is B with a fourth row, [ex_B2] is B
    without its third row, C is 2 x 2. *)
Definition ex_A : matrix :=
  mk_matrix row_major 2 3 (map Fp.h_of_nat [1; 2; 3; 4; 5; 6]).
Definition ex_A_col : matrix :=
  mk_matrix col_major 2 3 (map Fp.h_of_nat [1; 4; 2; 5; 3; 6]).
Definition ex_B : matrix :=
  mk_matrix col_major 3 2 (map Fp.h_of_nat [1; 0; 2; 0; 1; 3]).
Definition ex_B_row : matrix :=
  mk_matrix row_major 3 2 (map Fp.h_of_nat [1; 0; 0; 1; 2; 3]).
Definition ex_B4 : matrix :=
  mk_matrix row_major 4 2 (map Fp.h_of_nat [1; 0; 0; 1; 2; 3; 7; 7]).
Definition ex_B2 : matrix :=
  mk_matrix row_major 2 2 (map Fp.h_of_nat [1; 0; 0; 1]).
Definition ex_C : matrix :=
  mk_matrix row_major 2 2 (map Fp.h_of_nat [9; 9; 9; 9]).

(** A 1 x 1 result holding NaN, checked against a 1 x 1 reference holding
    1.0. *)
Definition nan_gpu_result : matrix := mk_matrix row_major 1 1 [S754_nan].
Definition one_cpu_result : matrix := mk_matrix row_major 1 1 [Fp.h_of_nat 1].

(** Inputs of the smallest case: M = N = K = 16 with A and B all ones. *)
Definition ones_16x16 : list Fp.half := replicate 256 (Fp.h_of_nat 1).
Definition zeros_16x16 : list Fp.half := replicate 256 Fp.hzero.

(** One element past the MMA tile: M = N = K = 17 with A and B all ones. *)
Definition ones_17x17 : list Fp.half := replicate (17 * 17) (Fp.h_of_nat 1).

(** Threads of the naive launch for M = N = K = 16 that belong to two
    different waves: lane 16 of the wave of tile (0, 0) and lane 0 of the
    wave of tile (0, 16). *)
Definition race_thread_1 : thread_id := mk_thread 0 0 16 0.
Definition race_thread_2 : thread_id := mk_thread 0 0 0 1.

(** Inputs at the ragged edge.  M = 20, K = 16: A (column-major, 20 x 16)
    all ones; the register buffer of the thread holds sevens from whatever
    ran before, the shared tile nines. *)
Definition edge_A : list Fp.half := replicate (20 * 16) (Fp.h_of_nat 1).
Definition stale_regs : list (list Fp.half) := [replicate 16 (Fp.h_of_nat 7)].
Definition stale_tile : list Fp.half := replicate (256 * 16) (Fp.h_of_nat 9).

(** What the boundary policy asks of the chunk of rows 16..31 of column 0:
    the four in-range elements of A followed by twelve zeros. *)
Definition edge_chunk_expected : list Fp.half :=
  replicate 4 (Fp.h_of_nat 1) ++ replicate 12 Fp.hzero.

(** M = 16, K = 17: A (column-major, 16 x 17) all ones. *)
Definition edge_A_k17 : list Fp.half := replicate (16 * 17) (Fp.h_of_nat 1).

(** An input for the block: M = 32, N = 20, K = 16, A (column-major,
    32 x 16) and B (row-major, 16 x 20) all ones, C (32 x 20) all zeros,
    and shared memory as the block finds it. *)
Definition ragged_A : list Fp.half := replicate (32 * 16) (Fp.h_of_nat 1).
Definition ragged_B : list Fp.half := replicate (16 * 20) (Fp.h_of_nat 1).
Definition ragged_C : list Fp.half := replicate (32 * 20) Fp.hzero.
Definition stale_lds : tiles :=
  mk_tiles (stale_tile ++ stale_tile) (stale_tile ++ stale_tile).

(* ===================================================================== *)
(** ** kernel_hgemm<wmma_shared>: staging by the whole block *)
(* ===================================================================== *)

(** The two load loops of iteration [k_tile], run by all [num_threads]
    threads of the block: thread [tid] takes the elements tid,
    tid + num_threads, ... of the A tile and then of the B tile. *)
Definition ws_stage (A B : list Fp.half)
    (M N K block_row block_col k_tile num_threads : nat) (t : tiles)
  : result tiles :=
  let* a' :=
    exec_transfers A
      (flat_map (fun tid => ws_load_a M K block_row k_tile tid num_threads)
                (seq 0 num_threads))
      (a_tile t) in
  let* b' :=
    exec_transfers B
      (flat_map (fun tid => ws_load_b N K block_col k_tile tid num_threads)
                (seq 0 num_threads))
      (b_tile t) in
  ret (mk_tiles a' b').

(** The tiles of the K slice starting at [k_base] as the boundary policy
    wants them, with nothing behind them. *)
Definition slice_tiles (cfg : wmma_config) (A B : list Fp.half)
    (M N K block_row block_col k_base : nat) : tiles :=
  mk_tiles
    (map (tile_a_value cfg A M K block_row k_base)
         (seq 0 (block_m cfg * block_k cfg)))
    (map (tile_b_value cfg B N K block_col k_base)
         (seq 0 (block_k cfg * block_n cfg))).

(* ===================================================================== *)
(** ** kernels/wmma.hpp: the loaders that walk a pointer *)
(* ===================================================================== *)

(** [load_matrix<matrix_a, col_major>] with its pointer: [tmp] starts at
    [data + col * M + offset] and is advanced by [M] in the iterations
    that pass the bounds test. *)
Definition load_matrix_a_col_major_ptr (frag data : list Fp.half)
    (row col M N tx : nat) : result (list Fp.half) :=
  let lane := tx mod half_warp in
  let offset := row + lane in
  let* p :=
    for_loop wmma_tile 0
      (fun i '(frag, tmp) =>
         if (col + i <? N) && (offset <? M)
         then let* v := load_elem data tmp in
              ret (<[i := v]> frag, tmp + M)
         else ret (frag, tmp))
      (frag, col * M + offset) in
  ret (fst p).

(** [load_matrix<matrix_b, row_major>] with its pointer: [tmp] starts at
    [data + row * N + offset] and is advanced by [N]. *)
Definition load_matrix_b_row_major_ptr (frag data : list Fp.half)
    (row col M N tx : nat) : result (list Fp.half) :=
  let lane := tx mod half_warp in
  let offset := col + lane in
  let* p :=
    for_loop wmma_tile 0
      (fun i '(frag, tmp) =>
         if (row + i <? M) && (offset <? N)
         then let* v := load_elem data tmp in
              ret (<[i := v]> frag, tmp + N)
         else ret (frag, tmp))
      (frag, row * N + offset) in
  ret (fst p).

(** M = N = 64, K = 16: sizes the naive block tile divides; A (row-major,
    64 x 16) and B (column-major, 16 x 64) all ones. *)
Definition aligned_A : list Fp.half := replicate (64 * 16) (Fp.h_of_nat 1).
Definition aligned_B : list Fp.half := replicate (16 * 64) (Fp.h_of_nat 1).

(* ===================================================================== *)
(** ** kernel_hgemm<wmma_opt_2>: the epilogue through shared memory *)
(* ===================================================================== *)

(** The compile-time constants of the epilogue. *)
Definition o2_total_tile_elements : nat :=
  block_m config_o2 * block_n config_o2.
Definition o2_max_shared_elements : nat := 2 * lds_size config_o2.
Definition o2_needs_chunking : bool :=
  o2_max_shared_elements <? o2_total_tile_elements.
Definition o2_rows_per_chunk : nat :=
  if o2_needs_chunking
  then o2_max_shared_elements / block_n config_o2
  else block_m config_o2.

(** Step 1 for the thread [tid] and the chunk of rows
    [row_start, row_end) of the block tile: the stores of its accumulator
    fragments into [c_tile], the shared memory reused for C.  Warp tiles
    outside the chunk are skipped. *)
Definition o2_stage_c (c_frags : nat -> nat -> list Fp.half)
    (tid row_start row_end : nat) : list store :=
  let warp_id := tid / warp_size in
  let warp_row := warp_id / warps_n config_o2 in
  let warp_col := warp_id mod warps_n config_o2 in
  let lane_id := tid mod warp_size in
  let half_warp_id := lane_id / (warp_size / 2) in
  let half_lane := tid mod (warp_size / 2) in
  let warp_m_base := warp_row * warp_tile_m config_o2 * wmma_tile in
  let warp_n_base := warp_col * warp_tile_n config_o2 * wmma_tile in
  flat_map
    (fun wm =>
       let warp_m_global := warp_m_base + wm * wmma_tile in
       if (warp_m_global <? row_start) || (row_end <=? warp_m_global)
       then []
       else
         let warp_m_local := warp_m_global - row_start in
         flat_map
           (fun wn =>
              let warp_n_base_local := warp_n_base + wn * wmma_tile in
              map (fun i =>
                     let row_local := warp_m_local + i * 2 + half_warp_id in
                     let col_local := warp_n_base_local + half_lane in
                     (row_local * block_n config_o2 + col_local,
                      nth (i * 2) (c_frags wm wn) Fp.hzero))
                  (seq 0 (wmma_tile / 2)))
           (seq 0 (warp_tile_n config_o2)))
    (seq 0 (warp_tile_m config_o2)).

(** Step 2 for the thread [tid]: the writes from [c_tile] to C, one vector
    of [vector_width] elements where the whole vector lies inside C,
    element by element on a row that C has but that the vector leaves, and
    nothing on rows below C. *)
Definition o2_write_c (c_tile : list Fp.half)
    (M N block_row block_col tid num_threads row_start chunk_height : nat)
  : list store :=
  let C_base := block_row * N + block_col in
  let vw := vector_width config_o2 in
  flat_map
    (fun i =>
       let row_local := i / block_n config_o2 in
       let col_local := i mod block_n config_o2 in
       let row_global := block_row + row_start + row_local in
       let col_global := block_col + col_local in
       if (row_global <? M) && (col_global + vw - 1 <? N)
       then map (fun v =>
                   (C_base + (row_start + row_local) * N + col_local + v,
                    nth (row_local * block_n config_o2 + col_local + v)
                        c_tile Fp.hzero))
                (seq 0 vw)
       else if row_global <? M
       then flat_map
              (fun v =>
                 if col_global + v <? N
                 then [(C_base + (row_start + row_local) * N + col_local + v,
                        nth (row_local * block_n config_o2 + col_local + v)
                            c_tile Fp.hzero)]
                 else [])
              (seq 0 vw)
       else [])
    (strided (tid * vw) (chunk_height * block_n config_o2) (num_threads * vw)).

(** One chunk, run by the [num_threads] threads of the block with a
    barrier between the two steps: shared memory after step 1, and the
    writes to C of step 2.  [c_frags tid] are the accumulators of thread
    [tid]. *)
Definition o2_chunk (c_frags : nat -> nat -> nat -> list Fp.half)
    (M N block_row block_col num_threads row_start : nat)
    (lds_mem : list Fp.half) : list Fp.half * list store :=
  let row_end := Nat.min (row_start + o2_rows_per_chunk) (block_m config_o2) in
  let chunk_height := row_end - row_start in
  let c_tile :=
    apply_stores
      (flat_map (fun tid => o2_stage_c (c_frags tid) tid row_start row_end)
                (seq 0 num_threads))
      lds_mem in
  (c_tile,
   flat_map (fun tid =>
               o2_write_c c_tile M N block_row block_col tid num_threads
                 row_start chunk_height)
            (seq 0 num_threads)).

(** The loop over the chunks: all writes to C, in order. *)
Definition o2_epilogue (c_frags : nat -> nat -> nat -> list Fp.half)
    (M N block_row block_col num_threads : nat) (lds_mem : list Fp.half)
  : list store :=
  snd (fold_left
         (fun '(lds, out) chunk_idx =>
            let '(lds', w) :=
              o2_chunk c_frags M N block_row block_col num_threads chunk_idx
                lds in
            (lds', out ++ w))
         (strided 0 (block_m config_o2) o2_rows_per_chunk)
         (lds_mem, [])).

(** The accumulator entry that belongs at row [lr], column [lc] of the
    block tile: the warp, the warp tile, the lane and the fragment entry
    that hold it. *)
Definition o2_owner_value (c_frags : nat -> nat -> nat -> list Fp.half)
    (lr lc : nat) : Fp.half :=
  let warp_row := lr / 64 in
  let wm := lr mod 64 / 16 in
  let i := lr mod 16 / 2 in
  let half_warp_id := lr mod 2 in
  let warp_col := lc / 64 in
  let wn := lc mod 64 / 16 in
  let half_lane := lc mod 16 in
  let tid := 32 * (4 * warp_row + warp_col) + 16 * half_warp_id + half_lane in
  nth (i * 2) (c_frags tid wm wn) Fp.hzero.

(** Shared memory of wmma_opt_2 as a block may find it. *)
Definition o2_lds : list Fp.half :=
  replicate (lds_mem_elems wmma_opt_2) (Fp.h_of_nat 9).

(** Accumulators that are all zero. *)
Definition frag_zero_grid : nat -> nat -> list Fp.half := fun _ _ => frag_zero.

(** The same tiles with one more element of shared memory behind them. *)
Definition stale_lds_longer : tiles :=
  mk_tiles (a_tile stale_lds ++ [Fp.h_of_nat 1])
           (b_tile stale_lds ++ [Fp.h_of_nat 1]).

(** M = 256, K = 32: one full block of rows; A (column-major) all ones. *)
Definition interior_A : list Fp.half := replicate (256 * 32) (Fp.h_of_nat 1).

(* ===================================================================== *)
(** ** kernel_hgemm<wmma_shared>: the K loop *)
(* ===================================================================== *)

(** [a_frag] of a lane for the chunk [k] of the current tile: sixteen
    strided reads behind the test on the warp's row offset; a lane that
    fails the test keeps the zero fragment. *)
Definition ws_a_frag (a_tile : list Fp.half) (k warp_m_offset lane : nat)
  : list Fp.half :=
  let half_lane := lane mod (warp_size / 2) in
  if warp_m_offset + half_lane <? block_m config_s
  then
    let src := k * lds_stride_A config_s + (warp_m_offset + half_lane) in
    map (fun i => nth (src + i * lds_stride_A config_s) a_tile Fp.hzero)
        (seq 0 wmma_tile)
  else frag_zero.

Definition ws_b_frag (b_tile : list Fp.half) (k warp_n_offset lane : nat)
  : list Fp.half :=
  let half_lane := lane mod (warp_size / 2) in
  if warp_n_offset + half_lane <? block_n config_s
  then
    let src := k * lds_stride_B config_s + warp_n_offset + half_lane in
    map (fun i => nth (src + i * lds_stride_B config_s) b_tile Fp.hzero)
        (seq 0 wmma_tile)
  else frag_zero.

(** "Process the current tile in chunks of size wmma_tile" for the warp
    [warp_id]; [c_frag] holds the accumulator of each of its 32 lanes. *)
Definition ws_compute (current : tiles) (warp_id : nat)
    (c_frag : list (list Fp.half)) : list (list Fp.half) :=
  let warps_m := block_m config_s / wmma_tile in
  let warp_m_offset := warp_id mod warps_m * wmma_tile in
  let warp_n_offset := warp_id / warps_m * wmma_tile in
  fold_left
    (fun c k =>
       let a_frags :=
         map (ws_a_frag (a_tile current) k warp_m_offset) (seq 0 warp_size) in
       let b_frags :=
         map (ws_b_frag (b_tile current) k warp_n_offset) (seq 0 warp_size) in
       map (wmma_f16_16x16x16 a_frags b_frags c) (seq 0 warp_size))
    (strided 0 (block_k config_s) wmma_tile)
    c_frag.

(** The loop over k_tile as seen by the warp [warp_id] of a block of
    [num_threads] threads: each iteration stages the K slice into the one
    pair of tiles and then accumulates from it. *)
Definition ws_main_loop (A B : list Fp.half)
    (M N K block_row block_col num_threads warp_id : nat) (lds : tiles)
  : result (tiles * list (list Fp.half)) :=
  for_loop ((K + block_k config_s - 1) / block_k config_s) 0
    (fun it '(lds, c_frag) =>
       let k_tile := it * block_k config_s in
       let* lds' :=
         ws_stage A B M N K block_row block_col k_tile num_threads lds in
       ret (lds', ws_compute lds' warp_id c_frag))
    (lds, replicate warp_size frag_zero).

(** [kernel_hgemm<wmma_shared>] as run by the thread [t] of a
    [blockDim_x] x [blockDim_y] block: the stores it issues to C. *)
Definition ws_thread_stores (A B : list Fp.half) (M N K : nat)
    (blockDim_x blockDim_y : nat) (t : thread_id) (lds : tiles)
  : result (list store) :=
  let warp_id :=
    threadIdx_y t * (blockDim_x / warp_size) + threadIdx_x t / warp_size in
  let warps_m := block_m config_s / wmma_tile in
  let warp_n_offset := warp_id / warps_m * wmma_tile in
  let lane := threadIdx_x t mod warp_size in
  let num_threads := blockDim_x * blockDim_y in
  let block_row := blockIdx_x t * block_m config_s in
  let block_col := blockIdx_y t * block_n config_s in
  if warp_n_offset <? block_n config_s
  then
    let* p := ws_main_loop A B M N K block_row block_col num_threads
                warp_id lds in
    ret (ws_epilogue_stores (nth lane (snd p) frag_zero) M N blockDim_x t)
  else ret [].

(** Shared memory of wmma_shared as a block may find it: an A tile of
    128 x 64 and a B tile of 64 x 64 stale values. *)
Definition stale_lds_s : tiles :=
  mk_tiles (stale_tile ++ stale_tile) stale_tile.
(* ===================================================================== *)
(** ** kernel_hgemm<wmma_opt_2>: the main loop *)
(* ===================================================================== *)

(** The fragment loads of thread [tid] for the chunk at [k_offset]: for
    each of the sixteen K positions one walk over the warp tiles of A and
    one over those of B, the source pointer advancing by [wmma_tile].
    [a_frag] and [b_frag] are the thread's fragment arrays. *)
Definition o2_load_frags (current : tiles)
    (k_offset warp_m_base warp_n_base tid : nat)
    (a_frag b_frag : list (list Fp.half))
  : list (list Fp.half) * list (list Fp.half) :=
  let half_lane := tid mod (warp_size / 2) in
  let curr_a :=
    k_offset * lds_stride_A config_o2 + (warp_m_base + half_lane) in
  let curr_b :=
    k_offset * lds_stride_B config_o2 + (warp_n_base + half_lane) in
  fold_left
    (fun '(a_frag, b_frag) i =>
       let a_frag' :=
         fst (fold_left
                (fun '(a_frag, srca) wm =>
                   (<[wm := <[i := nth srca (a_tile current) Fp.hzero]>
                              (nth wm a_frag [])]> a_frag,
                    srca + wmma_tile))
                (seq 0 (warp_tile_m config_o2))
                (a_frag, curr_a + i * lds_stride_A config_o2)) in
       let b_frag' :=
         fst (fold_left
                (fun '(b_frag, srcb) wn =>
                   (<[wn := <[i := nth srcb (b_tile current) Fp.hzero]>
                              (nth wn b_frag [])]> b_frag,
                    srcb + wmma_tile))
                (seq 0 (warp_tile_n config_o2))
                (b_frag, curr_b + i * lds_stride_B config_o2)) in
       (a_frag', b_frag'))
    (seq 0 wmma_tile)
    (a_frag, b_frag).

(** The registers of one warp: the fragment arrays of each of its 32
    lanes and the accumulators. *)
Record o2_warp : Type := mk_o2_warp {
  w_frags : list (list (list Fp.half) * list (list Fp.half));
  w_acc : warp_acc
}.

Definition o2_warp_zero : o2_warp :=
  mk_o2_warp
    (replicate warp_size
       (replicate (warp_tile_m config_o2) frag_zero,
        replicate (warp_tile_n config_o2) frag_zero))
    (warp_acc_zero config_o2).

(** "Process the loaded block_k in wmma_tile chunks" for the warp
    [warp_id]: its lanes are the threads warp_id * 32 + lane. *)
Definition o2_compute (current : tiles) (warp_id : nat) (w : o2_warp)
  : o2_warp :=
  let warp_row := warp_id / warps_n config_o2 in
  let warp_col := warp_id mod warps_n config_o2 in
  let warp_m_base := warp_row * warp_tile_m config_o2 * wmma_tile in
  let warp_n_base := warp_col * warp_tile_n config_o2 * wmma_tile in
  fold_left
    (fun w k_offset =>
       let frags :=
         map (fun lane =>
                let '(a_frag, b_frag) := nth lane (w_frags w) ([], []) in
                o2_load_frags current k_offset warp_m_base warp_n_base
                  (warp_id * warp_size + lane) a_frag b_frag)
             (seq 0 warp_size) in
       let a_frags wm := map (fun p => nth wm (fst p) []) frags in
       let b_frags wn := map (fun p => nth wn (snd p) []) frags in
       mk_o2_warp frags
         (map (fun wm =>
                 map (fun wn =>
                        let c := nth wn (nth wm (w_acc w) []) [] in
                        map (wmma_f16_16x16x16 (a_frags wm) (b_frags wn) c)
                            (seq 0 warp_size))
                     (seq 0 (warp_tile_n config_o2)))
              (seq 0 (warp_tile_m config_o2))))
    (strided 0 (block_k config_o2) wmma_tile)
    w.

(** State of the block in the main loop: the two staging buffers, whether
    they have changed places an odd number of times, and the registers of
    each warp. *)
Record o2_state : Type := mk_o2_state {
  o2_current : tiles;
  o2_next : tiles;
  o2_swapped : bool;
  o2_warps : list o2_warp
}.

(** The block up to the epilogue: the first K slice is staged into buffer
    0 (A by the first half of the block, B by the second); then, for each
    k_tile, the second half stages the next A tile, every warp computes
    on the current tiles, the first half stages the next B tile, and the
    buffers change places. *)
Definition o2_main_loop (A B : list Fp.half)
    (M N K block_row block_col : nat) (lds_0 lds_1 : tiles)
  : result o2_state :=
  let half_block := (warp_size * total_warps config_o2) / 2 in
  let* tiles_0 :=
    wbv_stage config_o2 A B M N K block_row block_col 0 lds_0 in
  for_loop ((K + block_k config_o2 - 1) / block_k config_o2) 0
    (fun it st =>
       let k_tile := it * block_k config_o2 in
       let* next_a :=
         if k_tile + block_k config_o2 <? K
         then exec_transfers A
                (flat_map
                   (fun cid =>
                      wbv_load_a config_o2 M K block_row
                        (k_tile + block_k config_o2) cid half_block)
                   (seq 0 half_block))
                (a_tile (o2_next st))
         else ret (a_tile (o2_next st)) in
       let warps :=
         map (fun warp_id =>
                o2_compute (o2_current st) warp_id
                  (nth warp_id (o2_warps st) o2_warp_zero))
             (seq 0 (total_warps config_o2)) in
       let* next_b :=
         if k_tile + block_k config_o2 <? K
         then exec_transfers B
                (flat_map
                   (fun cid =>
                      wbv_load_b config_o2 N K block_col
                        (k_tile + block_k config_o2) cid half_block)
                   (seq 0 half_block))
                (b_tile (o2_next st))
         else ret (b_tile (o2_next st)) in
       ret (mk_o2_state (mk_tiles next_a next_b) (o2_current st)
              (negb (o2_swapped st)) warps))
    (mk_o2_state tiles_0 lds_1 false
       (replicate (total_warps config_o2) o2_warp_zero)).

(** [kernel_hgemm<wmma_opt_2>] for the block at ([block_row],
    [block_col]): main loop, then the epilogue through shared memory,
    which is the two buffers in their place.  The writes to C. *)
Definition o2_block_stores (A B : list Fp.half)
    (M N K block_row block_col : nat) (lds_0 lds_1 : tiles)
  : result (list store) :=
  let* st := o2_main_loop A B M N K block_row block_col lds_0 lds_1 in
  let buf_0 := if o2_swapped st then o2_next st else o2_current st in
  let buf_1 := if o2_swapped st then o2_current st else o2_next st in
  let lds_mem :=
    a_tile buf_0 ++ b_tile buf_0 ++ a_tile buf_1 ++ b_tile buf_1 in
  let c_frags tid wm wn :=
    nth (tid mod warp_size)
      (nth wn
         (nth wm (w_acc (nth (tid / warp_size) (o2_warps st) o2_warp_zero))
            [])
         [])
      frag_zero in
  ret (o2_epilogue c_frags M N block_row block_col
         (warp_size * total_warps config_o2) lds_mem).

(** A fragment array as the kernel declares it: [n] fragments of sixteen
    halves. *)
Definition frag_array (n : nat) (a : list (list Fp.half)) : Prop :=
  length a = n /\ List.Forall (fun f => length f = wmma_tile) a.

Definition o2_warp_ok (w : o2_warp) : Prop :=
  length (w_frags w) = warp_size /\
  List.Forall
    (fun p => frag_array (warp_tile_m config_o2) (fst p) /\
              frag_array (warp_tile_n config_o2) (snd p))
    (w_frags w).

(** Fragment arrays that still hold what an earlier kernel left. *)
Definition stale_regs_4 : list (list Fp.half) :=
  replicate 4 (replicate 16 (Fp.h_of_nat 7)).

(** The accumulator fragments the threads of a block hold when every K
    slice reaches the compute step as the boundary policy wants it. *)
Definition o2_slice_frags (A B : list Fp.half)
    (M N K block_row block_col : nat) (tid wm wn : nat) : list Fp.half :=
  nth (tid mod warp_size)
    (nth wn
       (nth wm
          (fold_left
             (fun acc it =>
                wbv_compute config_o2
                  (slice_tiles config_o2 A B M N K block_row block_col
                     (it * block_k config_o2))
                  (tid / warp_size) acc)
             (seq 0 ((K + block_k config_o2 - 1) / block_k config_o2))
             (warp_acc_zero config_o2))
          [])
       [])
    frag_zero.

(* ********************************************************************* *)
(** * Part II: lemmas and theorems *)
(* ********************************************************************* *)

(** Closed facts are settled by running the embedding. *)
Ltac by_running := vm_compute; reflexivity.

(* ===================================================================== *)
(** ** Loop combinators *)
(* ===================================================================== *)

Section Loops.
Context {St : Type}.

(** Invariant rule: if every iteration in range succeeds and carries
    [P i] to [P (S i)], the loop succeeds and ends in [P (lo + n)]. *)
Lemma for_loop_inv (P : nat -> St -> Prop) (body : nat -> St -> result St) :
  forall n lo s,
    P lo s ->
    (forall i t, lo <= i < lo + n -> P i t ->
                 exists t', body i t = inr t' /\ P (S i) t') ->
    exists s', for_loop n lo body s = inr s' /\ P (lo + n) s'.
Proof.
  induction n as [|n IH]; intros lo s HP Hstep; simpl.
  - exists s. rewrite Nat.add_0_r. split; [reflexivity | assumption].
  - destruct (Hstep lo s) as (t' & Hb & HP'); [lia | assumption |].
    rewrite Hb. simpl.
    destruct (IH (S lo) t' HP') as (s' & Hl & HQ).
    + intros i t Hi Pi. apply Hstep; [lia | assumption].
    + exists s'. split; [assumption |].
      replace (lo + S n) with (S lo + n) by lia. assumption.
Qed.

(** Two bodies that agree on the iterated range give the same loop. *)
Lemma for_loop_ext (body body' : nat -> St -> result St) :
  forall n lo s,
    (forall i t, lo <= i < lo + n -> body i t = body' i t) ->
    for_loop n lo body s = for_loop n lo body' s.
Proof.
  induction n as [|n IH]; intros lo s Hext; simpl; [reflexivity |].
  rewrite Hext by lia.
  destruct (body' lo s) as [e | t]; simpl; [reflexivity |].
  apply IH. intros i u Hi. apply Hext. lia.
Qed.

(** The first failing iteration aborts the loop with its error. *)
Lemma for_loop_fail (body : nat -> St -> result St) (P : nat -> St -> Prop) :
  forall n lo s e m,
    m < n ->
    P lo s ->
    (forall i t, lo <= i < lo + m -> P i t ->
                 exists t', body i t = inr t' /\ P (S i) t') ->
    (forall t, P (lo + m) t -> body (lo + m) t = inl e) ->
    for_loop n lo body s = inl e.
Proof.
  induction n as [|n IH]; intros lo s e m Hm HP Hok Hbad; [lia |].
  simpl. destruct m as [|m].
  - rewrite Nat.add_0_r in Hbad. rewrite (Hbad s HP). reflexivity.
  - destruct (Hok lo s) as (t' & Hb & HP'); [lia | assumption |].
    rewrite Hb. simpl. apply (IH (S lo) t' e m); [lia | assumption | |].
    + intros i t Hi Pi. apply Hok; [lia | assumption].
    + intros t Pt. replace (S lo + m) with (lo + S m) in * by lia.
      apply Hbad. assumption.
Qed.

(** A returning loop whose body never fails finds the first answer. *)
Lemma for_until_first {R} (body : nat -> result (option R))
    (f : nat -> option R) :
  forall n lo,
    (forall i, lo <= i < lo + n -> body i = inr (f i)) ->
    for_until n lo body = inr (first_some f n lo).
Proof.
  induction n as [|n IH]; intros lo Hb; simpl; [reflexivity |].
  rewrite Hb by lia. simpl. destruct (f lo); [reflexivity |].
  apply IH. intros i Hi. apply Hb. lia.
Qed.

Lemma first_some_none {R} (f : nat -> option R) :
  forall n lo,
    first_some f n lo = None <-> (forall i, lo <= i < lo + n -> f i = None).
Proof.
  induction n as [|n IH]; intros lo; simpl.
  - split; [intros _ i Hi; lia | reflexivity].
  - destruct (f lo) eqn:E.
    + split; [discriminate |]. intros H. rewrite H in E by lia. discriminate.
    + rewrite IH. split; intros H i Hi.
      * destruct (decide (i = lo)) as [-> | Hne]; [assumption |].
        apply H. lia.
      * apply H. lia.
Qed.

Lemma first_some_some {R} (f : nat -> option R) :
  forall n lo x,
    first_some f n lo = Some x ->
    exists i, lo <= i < lo + n /\ f i = Some x /\
              forall i', lo <= i' < i -> f i' = None.
Proof.
  induction n as [|n IH]; intros lo x; simpl; [discriminate |].
  destruct (f lo) eqn:E.
  - intros [= ->]. exists lo. repeat split; [lia | lia | assumption |].
    intros i' Hi'. lia.
  - intros H. destruct (IH _ _ H) as (i & Hi & Hf & Hbefore).
    exists i. repeat split; [lia | lia | assumption |].
    intros i' Hi'. destruct (decide (i' = lo)) as [-> | Hne]; [assumption |].
    apply Hbefore. lia.
Qed.

End Loops.

(* ===================================================================== *)
(** ** Matrix access *)
(* ===================================================================== *)

Lemma get_index_lt (A : matrix) (r c : nat) :
  r < m_rows A -> c < m_cols A -> get_index A r c < m_rows A * m_cols A.
Proof.
  intros Hr Hc. unfold get_index. destruct (m_layout A); nia.
Qed.

Lemma get_index_inj (A : matrix) (r c r' c' : nat) :
  r < m_rows A -> c < m_cols A -> r' < m_rows A -> c' < m_cols A ->
  get_index A r c = get_index A r' c' -> r = r' /\ c = c'.
Proof.
  intros Hr Hc Hr' Hc'. unfold get_index. destruct (m_layout A); intros E.
  - assert (r = r') by nia. subst. split; [reflexivity | lia].
  - assert (c = c') by nia. subst. split; [lia | reflexivity].
Qed.

Lemma in_range_true (A : matrix) (r c : nat) :
  in_range A r c = true <-> r < m_rows A /\ c < m_cols A.
Proof.
  unfold in_range. rewrite andb_true_iff, !Nat.ltb_lt. reflexivity.
Qed.

Lemma mat_get_in_range (A : matrix) (r c : nat) :
  wf_matrix A -> r < m_rows A -> c < m_cols A ->
  mat_get A r c = inr (mat_at A r c).
Proof.
  intros Hwf Hr Hc. unfold mat_get, mat_at.
  replace (in_range A r c) with true
    by (symmetry; apply in_range_true; split; assumption).
  destruct (lookup_lt_is_Some_2 (m_data A) (get_index A r c)) as [v Hv].
  - rewrite Hwf. apply get_index_lt; assumption.
  - rewrite Hv. reflexivity.
Qed.

Lemma mat_get_out_of_range (A : matrix) (r c : nat) :
  in_range A r c = false -> mat_get A r c = inl (out_of_range r c).
Proof. intros H. unfold mat_get. rewrite H. reflexivity. Qed.

(** Shape, layout and well-formedness are preserved by an assignment, the
    assigned cell reads back, and every other cell is unchanged. *)
Lemma mat_set_spec (A : matrix) (r c : nat) (v : Fp.half) :
  wf_matrix A -> r < m_rows A -> c < m_cols A ->
  exists A', mat_set A r c v = inr A' /\
             m_layout A' = m_layout A /\ m_rows A' = m_rows A /\
             m_cols A' = m_cols A /\ wf_matrix A' /\
             mat_at A' r c = v /\
             (forall r' c', r' < m_rows A -> c' < m_cols A ->
                            (r', c') <> (r, c) -> mat_at A' r' c' = mat_at A r' c').
Proof.
  intros Hwf Hr Hc. unfold mat_set.
  replace (in_range A r c) with true
    by (symmetry; apply in_range_true; split; assumption).
  eexists. split; [reflexivity |]. simpl.
  repeat split.
  - unfold wf_matrix. simpl. rewrite length_insert. exact Hwf.
  - unfold mat_at, get_index. simpl. fold (get_index A r c).
    rewrite list_lookup_insert_eq; [reflexivity |].
    rewrite Hwf. apply get_index_lt; assumption.
  - intros r' c' Hr' Hc' Hne. unfold mat_at, get_index. simpl.
    fold (get_index A r c). fold (get_index A r' c').
    rewrite list_lookup_insert_ne; [reflexivity |].
    intros E. apply Hne.
    destruct (get_index_inj A r c r' c' Hr Hc Hr' Hc' E). congruence.
Qed.

Lemma index_in_extent (r c M N : nat) :
  r < M -> c < N -> r * N + c < M * N.
Proof. intros Hr Hc. nia. Qed.

(* ===================================================================== *)
(** ** The CPU reference *)
(* ===================================================================== *)

Lemma dot_f32_step (A B : matrix) (i j k : nat) :
  dot_f32 A B i j (S k) =
  Fp.fadd (dot_f32 A B i j k)
          (Fp.fmul (Fp.to_float (mat_at A i k)) (Fp.to_float (mat_at B k j))).
Proof.
  unfold dot_f32. rewrite seq_S, fold_left_app. reflexivity.
Qed.

(** The inner k loop: with every index in range, the accumulator ends as
    the left-to-right single-precision sum over [0, A.cols()). *)
Lemma hgemm_cpu_acc_ok (A B : matrix) (i j : nat) :
  wf_matrix A -> wf_matrix B ->
  i < m_rows A -> m_cols A <= m_rows B -> j < m_cols B ->
  hgemm_cpu_acc A B i j = inr (dot_f32 A B i j (m_cols A)).
Proof.
  intros HA HB Hi HK Hj. unfold hgemm_cpu_acc.
  destruct (for_loop_inv (fun k acc => acc = dot_f32 A B i j k)
              (fun k acc =>
                 let* a := mat_get A i k in
                 let* b := mat_get B k j in
                 ret (Fp.fadd acc (Fp.fmul (Fp.to_float a) (Fp.to_float b))))
              (m_cols A) 0 Fp.fzero) as (acc & Hrun & Hacc).
  - reflexivity.
  - intros k acc Hk ->. eexists. split; [| symmetry; apply dot_f32_step].
    rewrite mat_get_in_range by (assumption || lia). simpl.
    rewrite mat_get_in_range by (assumption || lia). reflexivity.
  - rewrite Hrun. simpl in Hacc. rewrite Hacc. reflexivity.
Qed.

(** The j loop fills row [i] and keeps the rows above it. *)
Lemma hgemm_cpu_row (C A B C1 : matrix) (i : nat) :
  wf_matrix A -> wf_matrix B ->
  m_rows C <= m_rows A -> m_cols C <= m_cols B -> m_cols A <= m_rows B ->
  i < m_rows C ->
  cpu_inv C A B C1 (fun i' _ => i' < i) ->
  exists C2,
    for_loop (m_cols C) 0
      (fun j C2 =>
         let* acc := hgemm_cpu_acc A B i j in
         mat_set C2 i j (Fp.to_half acc)) C1 = inr C2 /\
    cpu_inv C A B C2 (fun i' _ => i' < S i).
Proof.
  intros HA HB HM HN HK Hi Hinv.
  destruct (for_loop_inv
              (fun j C2 => cpu_inv C A B C2
                             (fun i' j' => i' < i \/ (i' = i /\ j' < j)))
              (fun j C2 =>
                 let* acc := hgemm_cpu_acc A B i j in
                 mat_set C2 i j (Fp.to_half acc))
              (m_cols C) 0 C1) as (C2 & Hrun & Hend).
  - destruct Hinv as [Hl Hr Hc Hw Hcells].
    constructor; try assumption.
    intros i' j' Hi' Hj' [Hlt | [_ Hlt]]; [auto | lia].
  - intros j C2 Hj [Hl Hr Hc Hw Hcells].
    rewrite hgemm_cpu_acc_ok by (assumption || lia). simpl.
    destruct (mat_set_spec C2 i j (Fp.to_half (dot_f32 A B i j (m_cols A))))
      as (C3 & Hset & Hl3 & Hr3 & Hc3 & Hw3 & Hhit & Hmiss);
      [assumption | lia | lia |].
    exists C3. split; [assumption |].
    constructor; try congruence.
    intros i' j' Hi' Hj' Hdone.
    destruct (decide ((i', j') = (i, j))) as [E | NE].
    + injection E as -> ->. exact Hhit.
    + rewrite Hmiss by (congruence || lia).
      apply Hcells; [assumption | assumption |].
      destruct Hdone as [Hlt | [-> Hlt]]; [left; assumption |].
      right. split; [reflexivity |].
      assert (j' <> j) by congruence. lia.
  - exists C2. split; [assumption |].
    destruct Hend as [Hl Hr Hc Hw Hcells].
    constructor; try assumption.
    intros i' j' Hi' Hj' Hdone. apply Hcells; [assumption | assumption |].
    simpl. destruct (decide (i' = i)); [right | left]; lia.
Qed.

(** The reference on any shapes whose accesses stay in range: [B] may have
    more rows than [A] has columns, [A] more rows and [B] more columns than
    [C]. *)
Lemma hgemm_cpu_run (C A B : matrix) :
  wf_matrix C -> wf_matrix A -> wf_matrix B ->
  m_rows C <= m_rows A -> m_cols C <= m_cols B -> m_cols A <= m_rows B ->
  exists C',
    hgemm_cpu C A B = inr C' /\
    m_layout C' = m_layout C /\ m_rows C' = m_rows C /\
    m_cols C' = m_cols C /\ wf_matrix C' /\
    forall i j, i < m_rows C -> j < m_cols C ->
      mat_get C' i j = inr (Fp.to_half (dot_f32 A B i j (m_cols A))).
Proof.
  intros HC HA HB HM HN HK. unfold hgemm_cpu.
  destruct (for_loop_inv
              (fun i C1 => cpu_inv C A B C1 (fun i' _ => i' < i))
              (fun i C1 =>
                 for_loop (m_cols C) 0
                   (fun j C2 =>
                      let* acc := hgemm_cpu_acc A B i j in
                      mat_set C2 i j (Fp.to_half acc)) C1)
              (m_rows C) 0 C) as (C' & Hrun & Hend).
  - constructor; try reflexivity; [assumption |]. intros; lia.
  - intros i C1 Hi Hinv. apply hgemm_cpu_row; (assumption || lia).
  - exists C'. split; [assumption |].
    destruct Hend as [Hl Hr Hc Hw Hcells].
    repeat split; try assumption.
    intros i j Hi Hj.
    rewrite mat_get_in_range by (assumption || lia).
    f_equal. apply Hcells; (assumption || (simpl; lia)).
Qed.

(** [[1 2 3] [4 5 6]] times [[1 0] [0 1] [2 3]]. *)
Example hgemm_cpu_2x3x2 :
  hgemm_cpu ex_C ex_A ex_B =
  inr (mk_matrix row_major 2 2 (map Fp.h_of_nat [7; 11; 16; 23])).
Proof. by_running. Qed.

(** C2.  For C of shape M x N, A of shape M x K and B of shape K x N, in
    any combination of layouts, [hgemm_cpu] returns normally and leaves in
    every C(i,j) the single rounding to half precision of the
    single-precision sum, for k = 0 .. A.cols()-1 in that order, of
    float(A(i,k)) * float(B(k,j)). *)
Theorem hgemm_cpu_reference_sum (C A B : matrix) (M N K : nat) :
  wf_matrix C -> wf_matrix A -> wf_matrix B ->
  m_rows C = M -> m_cols C = N ->
  m_rows A = M -> m_cols A = K ->
  m_rows B = K -> m_cols B = N ->
  exists C',
    hgemm_cpu C A B = inr C' /\
    m_layout C' = m_layout C /\ m_rows C' = M /\ m_cols C' = N /\
    forall i j, i < M -> j < N ->
      mat_get C' i j = inr (Fp.to_half (dot_f32 A B i j (m_cols A))).
Proof.
  intros HC HA HB <- <- EM EK EKB EN.
  destruct (hgemm_cpu_run C A B HC HA HB) as (C' & Hrun & Hl & Hr & Hc & _ & Hcells);
    try lia.
  exists C'. repeat split; assumption.
Qed.

Lemma hgemm_cpu_reference_sum_witness :
  exists C',
    hgemm_cpu ex_C ex_A ex_B = inr C' /\
    m_layout C' = m_layout ex_C /\ m_rows C' = 2 /\ m_cols C' = 2 /\
    forall i j, i < 2 -> j < 2 ->
      mat_get C' i j = inr (Fp.to_half (dot_f32 ex_A ex_B i j (m_cols ex_A))).
Proof.
  apply (hgemm_cpu_reference_sum ex_C ex_A ex_B 2 2 3); reflexivity.
Defined.

(** The first out-of-range access of the k loop is reported as it is. *)
Lemma hgemm_cpu_acc_overrun (A B : matrix) (i j : nat) :
  wf_matrix A -> wf_matrix B ->
  i < m_rows A -> j < m_cols B -> m_rows B < m_cols A ->
  hgemm_cpu_acc A B i j = inl (out_of_range (m_rows B) j).
Proof.
  intros HA HB Hi Hj HK. unfold hgemm_cpu_acc.
  apply (for_loop_fail _ (fun _ _ => True)) with (m := m_rows B);
    [assumption | exact I | |].
  - intros k acc Hk _. eexists. split; [| exact I].
    rewrite mat_get_in_range by (assumption || lia). simpl.
    rewrite mat_get_in_range by (assumption || lia). reflexivity.
  - intros acc _. simpl.
    rewrite mat_get_in_range by (assumption || lia). simpl.
    rewrite mat_get_out_of_range; [reflexivity |].
    unfold in_range. rewrite Nat.ltb_irrefl. reflexivity.
Qed.

(** C10.  [hgemm_cpu] does not compare A.cols() with B.rows(): the k loop
    runs over [0, A.cols()) whatever B.rows() is.  When B has at least
    A.cols() rows the call succeeds and every C(i,j) is the sum over exactly
    the first A.cols() rows of B; when B has fewer rows the loop still
    reaches k = B.rows() and the element access B(B.rows(), 0) is what
    fails. *)
Theorem hgemm_cpu_no_shape_validation (C A B : matrix) :
  wf_matrix C -> wf_matrix A -> wf_matrix B ->
  0 < m_rows C -> 0 < m_cols C ->
  m_rows C <= m_rows A -> m_cols C <= m_cols B ->
  (m_cols A <= m_rows B ->
   exists C',
     hgemm_cpu C A B = inr C' /\
     forall i j, i < m_rows C -> j < m_cols C ->
       mat_get C' i j = inr (Fp.to_half (dot_f32 A B i j (m_cols A)))) /\
  (m_rows B < m_cols A ->
   hgemm_cpu C A B = inl (out_of_range (m_rows B) 0)).
Proof.
  intros HC HA HB HM0 HN0 HM HN. split; intros HK.
  - destruct (hgemm_cpu_run C A B HC HA HB HM HN HK)
      as (C' & Hrun & _ & _ & _ & _ & Hcells).
    exists C'. split; assumption.
  - unfold hgemm_cpu.
    destruct (m_rows C) as [|m] eqn:Em; [lia |].
    destruct (m_cols C) as [|n] eqn:En; [lia |].
    simpl. rewrite hgemm_cpu_acc_overrun by (assumption || lia).
    reflexivity.
Qed.

Lemma hgemm_cpu_no_shape_validation_witness :
  (exists C',
     hgemm_cpu ex_C ex_A ex_B4 = inr C' /\
     forall i j, i < m_rows ex_C -> j < m_cols ex_C ->
       mat_get C' i j =
       inr (Fp.to_half (dot_f32 ex_A ex_B4 i j (m_cols ex_A)))) /\
  hgemm_cpu ex_C ex_A ex_B2 = inl (out_of_range (m_rows ex_B2) 0).
Proof.
  split.
  - apply (proj1 (hgemm_cpu_no_shape_validation ex_C ex_A ex_B4
                    eq_refl eq_refl eq_refl ltac:(simpl; lia) ltac:(simpl; lia)
                    ltac:(simpl; lia) ltac:(simpl; lia))).
    simpl. lia.
  - apply (proj2 (hgemm_cpu_no_shape_validation ex_C ex_A ex_B2
                    eq_refl eq_refl eq_refl ltac:(simpl; lia) ltac:(simpl; lia)
                    ltac:(simpl; lia) ltac:(simpl; lia))).
    simpl. lia.
Defined.

(* ===================================================================== *)
(** ** Layout law for the reference *)
(* ===================================================================== *)

Lemma same_logical_get (A A' : matrix) :
  same_logical A A' -> forall i k, mat_get A i k = mat_get A' i k.
Proof.
  intros (Hr & Hc & Hv) i k.
  destruct (in_range A i k) eqn:E.
  - apply in_range_true in E. apply Hv; tauto.
  - rewrite !mat_get_out_of_range; [reflexivity | | assumption].
    unfold in_range in *. rewrite <- Hr, <- Hc. assumption.
Qed.

Lemma with_layout_wf (L : matrix_layout) (A : matrix) :
  wf_matrix (with_layout L A).
Proof. unfold wf_matrix. simpl. rewrite length_map, length_seq. reflexivity. Qed.

Lemma with_layout_same_logical (L : matrix_layout) (A : matrix) :
  wf_matrix A -> same_logical A (with_layout L A).
Proof.
  intros Hwf. split; [reflexivity |]. split; [reflexivity |].
  intros i k Hi Hk.
  rewrite mat_get_in_range by assumption.
  rewrite mat_get_in_range by (apply with_layout_wf || assumption).
  f_equal. unfold mat_at at 2. simpl.
  assert (Hlt : get_index (with_layout L A) i k < m_rows A * m_cols A)
    by (apply (get_index_lt (with_layout L A)); assumption).
  rewrite list_lookup_fmap, lookup_seq_lt by exact Hlt. simpl.
  unfold get_index. simpl. destruct L.
  - rewrite Nat.div_add_l, Nat.div_small, Nat.add_0_r by lia.
    rewrite Nat.add_comm, Nat.Div0.mod_add, Nat.mod_small by lia. reflexivity.
  - rewrite Nat.div_add_l, Nat.div_small, Nat.add_0_r by lia.
    rewrite Nat.add_comm, Nat.Div0.mod_add, Nat.mod_small by lia. reflexivity.
Qed.

(** The k loop only sees the operands through their element access. *)
Lemma hgemm_cpu_acc_congr (A A' B B' : matrix) (i j : nat) :
  same_logical A A' -> same_logical B B' ->
  hgemm_cpu_acc A B i j = hgemm_cpu_acc A' B' i j.
Proof.
  intros HA HB. unfold hgemm_cpu_acc.
  destruct HA as (HAr & HAc & HAv) eqn:EA. rewrite <- HAc.
  apply for_loop_ext. intros k acc _.
  rewrite (same_logical_get A A') by (repeat split; assumption).
  rewrite (same_logical_get B B' HB). reflexivity.
Qed.

(** C8.  Replacing A and B by matrices of the same shape and the same
    logical elements A(i,k), B(k,j), stored under any layout tag, does not
    change what [hgemm_cpu] returns: the output matrix (or the error) is
    identical. *)
Theorem hgemm_cpu_layout_law (C A A' B B' : matrix) :
  same_logical A A' -> same_logical B B' ->
  hgemm_cpu C A B = hgemm_cpu C A' B'.
Proof.
  intros HA HB. unfold hgemm_cpu.
  apply for_loop_ext. intros i C1 _.
  apply for_loop_ext. intros j C2 _.
  rewrite (hgemm_cpu_acc_congr A A' B B' i j HA HB). reflexivity.
Qed.

Lemma hgemm_cpu_layout_law_witness :
  hgemm_cpu ex_C ex_A ex_B = hgemm_cpu ex_C ex_A_col ex_B_row.
Proof.
  apply (hgemm_cpu_layout_law ex_C ex_A ex_A_col ex_B ex_B_row).
  - split; [reflexivity |]. split; [reflexivity |].
    intros i k Hi Hk. simpl in Hi, Hk.
    destruct i as [|[|i]]; [| | lia];
      (destruct k as [|[|[|k]]]; [| | | lia]); reflexivity.
  - split; [reflexivity |]. split; [reflexivity |].
    intros i k Hi Hk. simpl in Hi, Hk.
    destruct i as [|[|[|i]]]; [| | | lia];
      (destruct k as [|[|k]]; [| | lia]); reflexivity.
Defined.

(** Re-laying out either operand leaves the reference result unchanged. *)
Corollary hgemm_cpu_relayout (C A B : matrix) (LA LB : matrix_layout) :
  wf_matrix A -> wf_matrix B ->
  hgemm_cpu C (with_layout LA A) (with_layout LB B) = hgemm_cpu C A B.
Proof.
  intros HA HB. unfold hgemm_cpu.
  apply for_loop_ext. intros i C1 _.
  apply for_loop_ext. intros j C2 _.
  rewrite (hgemm_cpu_acc_congr A (with_layout LA A) B (with_layout LB B) i j)
    by (apply with_layout_same_logical; assumption).
  reflexivity.
Qed.

(* ===================================================================== *)
(** ** Verification against the reference *)
(* ===================================================================== *)

(** What one cell contributes, as a pure function of the logical values. *)
Lemma verify_cell_in_range (gpu cpu : matrix) (tol : Fp.float) (i j : nat) :
  wf_matrix gpu -> wf_matrix cpu ->
  i < m_rows gpu -> j < m_cols gpu -> i < m_rows cpu -> j < m_cols cpu ->
  verify_cell gpu cpu tol i j =
  inr (if Fp.fgt (cell_rel gpu cpu i j) tol
       then Some (mk_report i j (Fp.to_float (mat_at gpu i j))
                    (Fp.to_float (mat_at cpu i j)) (cell_rel gpu cpu i j))
       else None).
Proof.
  intros Hg Hc Hi Hj Hi' Hj'. unfold verify_cell.
  rewrite !mat_get_in_range by assumption. simpl.
  fold (cell_rel gpu cpu i j). destruct (Fp.fgt _ tol); reflexivity.
Qed.

(** What [verify_results] decides: it passes exactly when no cell has a
    relative difference that compares greater than the tolerance, and
    otherwise reports the first offending cell in row-by-row order. *)
Lemma verify_results_decides (gpu cpu : matrix) (tol : Fp.float) :
  wf_matrix gpu -> wf_matrix cpu ->
  m_rows gpu <= m_rows cpu -> m_cols gpu <= m_cols cpu ->
  (verify_results gpu cpu tol = inr (true, verification_passed) /\
   forall i j, i < m_rows gpu -> j < m_cols gpu ->
     Fp.fgt (cell_rel gpu cpu i j) tol = false) \/
  (exists i j,
     i < m_rows gpu /\ j < m_cols gpu /\
     Fp.fgt (cell_rel gpu cpu i j) tol = true /\
     (forall i' j', i' < m_rows gpu -> j' < m_cols gpu ->
        i' < i \/ (i' = i /\ j' < j) ->
        Fp.fgt (cell_rel gpu cpu i' j') tol = false) /\
     verify_results gpu cpu tol =
     inr (false,
          verification_failed
            (mk_report i j (Fp.to_float (mat_at gpu i j))
               (Fp.to_float (mat_at cpu i j)) (cell_rel gpu cpu i j)))).
Proof.
  intros Hg Hc Hr Hcl. unfold verify_results.
  set (cell := fun i j =>
         if Fp.fgt (cell_rel gpu cpu i j) tol
         then Some (mk_report i j (Fp.to_float (mat_at gpu i j))
                      (Fp.to_float (mat_at cpu i j)) (cell_rel gpu cpu i j))
         else None).
  set (row := fun i => first_some (cell i) (m_cols gpu) 0).
  rewrite (for_until_first _ row).
  2:{ intros i Hi. apply for_until_first. intros j Hj.
      apply verify_cell_in_range; (assumption || lia). }
  simpl. destruct (first_some row (m_rows gpu) 0) as [rep |] eqn:E.
  - right. apply first_some_some in E as (i & Hi & Hrow & Hbefore).
    unfold row in Hrow. apply first_some_some in Hrow as (j & Hj & Hcell & Hleft).
    unfold cell in Hcell.
    destruct (Fp.fgt (cell_rel gpu cpu i j) tol) eqn:Egt; [| discriminate].
    injection Hcell as <-.
    exists i, j. repeat split; try lia; try assumption.
    intros i' j' Hi' Hj' [Hlt | [-> Hlt]].
    + specialize (Hbefore i' ltac:(lia)). unfold row in Hbefore.
      rewrite first_some_none in Hbefore.
      specialize (Hbefore j' ltac:(lia)). unfold cell in Hbefore.
      destruct (Fp.fgt (cell_rel gpu cpu i' j') tol); [discriminate | reflexivity].
    + specialize (Hleft j' ltac:(lia)). unfold cell in Hleft.
      destruct (Fp.fgt (cell_rel gpu cpu i j') tol); [discriminate | reflexivity].
  - left. split; [reflexivity |]. intros i j Hi Hj.
    rewrite first_some_none in E. specialize (E i ltac:(lia)).
    unfold row in E. rewrite first_some_none in E.
    specialize (E j ltac:(lia)). unfold cell in E.
    destruct (Fp.fgt (cell_rel gpu cpu i j) tol); [discriminate | reflexivity].
Qed.

(** 2.0 against the reference 1.0: reported at (0, 0) with relative
    difference 1.0. *)
Example verify_results_reports :
  verify_results (mk_matrix row_major 1 1 [Fp.h_of_nat 2]) one_cpu_result
    Fp.f_5e_2 =
  inr (false,
       verification_failed
         (mk_report 0 0 (Fp.to_float (Fp.h_of_nat 2))
            (Fp.to_float (Fp.h_of_nat 1)) (Fp.to_float (Fp.h_of_nat 1)))).
Proof. by_running. Qed.

(** C4, at a failing input.  A GPU result holding NaN compared with the
    reference value 1.0 under the default tolerance: the relative
    difference is NaN, which is not at most the tolerance, yet
    [verify_results] prints the pass line and returns true. *)
Theorem verify_results_accepts_nan :
  cell_rel nan_gpu_result one_cpu_result 0 0 = S754_nan /\
  Fp.fle (cell_rel nan_gpu_result one_cpu_result 0 0) Fp.f_5e_2 = false /\
  verify_results nan_gpu_result one_cpu_result Fp.f_5e_2 =
  inr (true, verification_passed).
Proof. repeat split; vm_compute; reflexivity. Qed.

(* ===================================================================== *)
(** ** Static constraints of the configurations *)
(* ===================================================================== *)

(** C7.  Every [wmma_config] specialisation satisfies
    warps_m * warp_tile_m * 16 = block_m and
    warps_n * warp_tile_n * 16 = block_n, and the staging array its kernel
    declares holds buffering_depth * (block_m * block_k + block_k * block_n)
    elements. *)
Theorem config_static_constraints (k : kernel_type) (cfg : wmma_config) :
  wmma_config_of k = Some cfg ->
  warps_m cfg * warp_tile_m cfg * 16 = block_m cfg /\
  warps_n cfg * warp_tile_n cfg * 16 = block_n cfg /\
  lds_mem_elems k =
  buffering_depth k * (block_m cfg * block_k cfg + block_k cfg * block_n cfg).
Proof.
  destruct k; cbn [wmma_config_of]; intros [= <-];
    repeat split; vm_compute; reflexivity.
Qed.

Lemma config_static_constraints_witness :
  warps_m config_o1 * warp_tile_m config_o1 * 16 = block_m config_o1 /\
  warps_n config_o1 * warp_tile_n config_o1 * 16 = block_n config_o1 /\
  lds_mem_elems wmma_opt_1 =
  buffering_depth wmma_opt_1 *
  (block_m config_o1 * block_k config_o1 + block_k config_o1 * block_n config_o1).
Proof.
  apply (config_static_constraints wmma_opt_1 config_o1). reflexivity.
Defined.

(* ===================================================================== *)
(** ** Launch geometry *)
(* ===================================================================== *)

Open Scope Z_scope.

(** [is_ceil] determines the ceiling, and (a + b - 1) / b is it. *)
Lemma is_ceil_unique (a b g g' : Z) :
  0 < b -> is_ceil a b g -> is_ceil a b g' -> g = g'.
Proof. unfold is_ceil. intros Hb H H'. nia. Qed.

Lemma is_ceil_div (a b : Z) :
  0 < b -> is_ceil a b ((a + b - 1) / b).
Proof.
  intros Hb. unfold is_ceil.
  pose proof (Z.div_mod (a + b - 1) b ltac:(lia)) as E.
  pose proof (Z.mod_pos_bound (a + b - 1) b Hb) as Hm. nia.
Qed.

(** Below [INT_MAX] nothing wraps. *)
Lemma ceil_div_small (a b : Z) :
  1 <= a <= INT_MAX -> 1 <= b <= 256 ->
  ceil_div a b = (a + b - 1) / b /\ 1 <= ceil_div a b <= a.
Proof.
  unfold INT_MAX, ceil_div, to_size_t. intros Ha Hb.
  rewrite Z.mod_small by lia. split; [reflexivity |].
  pose proof (is_ceil_div a b ltac:(lia)) as Hc. unfold is_ceil in Hc. nia.
Qed.

Lemma to_uint_small (z : Z) : 0 <= z <= INT_MAX -> to_uint z = z.
Proof. unfold to_uint, INT_MAX. intros H. apply Z.mod_small. lia. Qed.

Lemma to_int_small (z : Z) : 0 <= z <= INT_MAX -> to_int z = z.
Proof.
  unfold to_int, INT_MAX. intros H. rewrite Z.mod_small by lia. lia.
Qed.

Lemma launch_2d_grid (cfg : wmma_config) (bx by_ M N K : Z) :
  1 <= M <= INT_MAX -> 1 <= N <= INT_MAX ->
  1 <= Z.of_nat (block_m cfg) <= 256 -> 1 <= Z.of_nat (block_n cfg) <= 256 ->
  let g := grid_dim (launch_2d cfg bx by_ M N K) in
  is_ceil M (Z.of_nat (block_m cfg)) (dim_x g) /\
  is_ceil N (Z.of_nat (block_n cfg)) (dim_y g) /\ dim_z g = 1.
Proof.
  intros HM HN Hbm Hbn. simpl.
  destruct (ceil_div_small M _ HM Hbm) as [EM BM].
  destruct (ceil_div_small N _ HN Hbn) as [EN BN].
  rewrite !to_uint_small by lia. rewrite EM, EN.
  repeat split; try apply is_ceil_div; lia.
Qed.

(** The smallest case M = N = K = 16 in the naive dispatcher: one block of
    128 x 4 threads, sixteen waves for one 16 x 16 output tile. *)
Example hgemm_gpu_naive_16 :
  hgemm_gpu wmma_naive 16 16 16 =
  mk_launch (mk_dim3 1 1 1) (mk_dim3 128 4 1) 16 16 16.
Proof. by_running. Qed.

(** C6, as amended.  For dimensions M, N, K >= 1 that fit the [int]
    parameters of the kernels, and, for the 1-D-grid variant, a block count
    that fits an [int], every dispatcher launches ceil(M / block_m) by
    ceil(N / block_n) blocks (their product in the 1-D grid), and hands the
    kernel the dimensions unchanged. *)
Theorem dispatcher_grid (k : kernel_type) (M N K : Z) :
  1 <= M <= INT_MAX -> 1 <= N <= INT_MAX -> 1 <= K <= INT_MAX ->
  (grid_is_1d k = true ->
   ((M + 255) / 256) * ((N + 255) / 256) <= INT_MAX) ->
  launches_one_block_per_tile k M N K /\
  arg_M (hgemm_gpu k M N K) = M /\
  arg_N (hgemm_gpu k M N K) = N /\
  arg_K (hgemm_gpu k M N K) = K.
Proof.
  intros HM HN HK H1d.
  assert (Hargs : to_int M = M /\ to_int N = N /\ to_int K = K)
    by (rewrite !to_int_small by lia; tauto).
  destruct k; (split; [| exact Hargs]);
    unfold launches_one_block_per_tile;
    cbn [grid_is_1d block_tile wmma_config_of hgemm_gpu].
  - (* wmma_naive *)
    change (to_uint (Z.of_nat wmma_tile * to_uint (32 * 4)) / 32) with 64.
    change (to_uint (Z.of_nat wmma_tile * to_uint 4)) with 64.
    cbn [grid_dim dim3_2 dim_x dim_y dim_z].
    destruct (ceil_div_small M 64 HM ltac:(lia)) as [EM BM].
    destruct (ceil_div_small N 64 HN ltac:(lia)) as [EN BN].
    rewrite !to_uint_small by lia. rewrite EM, EN.
    repeat split; try apply is_ceil_div; lia.
  - apply launch_2d_grid; try assumption; vm_compute; split; discriminate.
  - apply launch_2d_grid; try assumption; vm_compute; split; discriminate.
  - apply launch_2d_grid; try assumption; vm_compute; split; discriminate.
  - apply launch_2d_grid; try assumption; vm_compute; split; discriminate.
  - (* wmma_opt_2 *)
    change (Z.of_nat (block_m config_o2)) with 256.
    change (Z.of_nat (block_n config_o2)) with 256.
    cbn [grid_dim dim3_1 dim_x dim_y dim_z].
    specialize (H1d eq_refl).
    destruct (ceil_div_small M 256 HM ltac:(lia)) as [EM BM].
    destruct (ceil_div_small N 256 HN ltac:(lia)) as [EN BN].
    unfold ceil_div in *.
    assert (E1 : forall a, 1 <= a <= INT_MAX ->
                 to_size_t (to_size_t (a + 256) - 1) = to_size_t (a + 256 - 1)).
    { intros a Ha. unfold to_size_t, INT_MAX in *.
      rewrite (Z.mod_small (a + 256)) by lia. reflexivity. }
    rewrite !E1 by assumption. rewrite EM, EN in *.
    replace (M + 256 - 1) with (M + 255) in * by lia.
    replace (N + 256 - 1) with (N + 255) in * by lia.
    rewrite (to_int_small ((M + 255) / 256)) by lia.
    rewrite (to_int_small ((N + 255) / 256)) by lia.
    assert (0 <= (M + 255) / 256 * ((N + 255) / 256)) by nia.
    rewrite to_int_small by lia. rewrite to_uint_small by lia.
    exists ((M + 255) / 256), ((N + 255) / 256).
    replace (M + 255) with (M + 256 - 1) by lia.
    replace (N + 255) with (N + 256 - 1) by lia.
    repeat split; try apply is_ceil_div; lia.
Qed.

Lemma dispatcher_grid_witness :
  launches_one_block_per_tile wmma_opt_2 257 4096 4096 /\
  arg_M (hgemm_gpu wmma_opt_2 257 4096 4096) = 257 /\
  arg_N (hgemm_gpu wmma_opt_2 257 4096 4096) = 4096 /\
  arg_K (hgemm_gpu wmma_opt_2 257 4096 4096) = 4096.
Proof.
  apply (dispatcher_grid wmma_opt_2 257 4096 4096);
    try (vm_compute; split; discriminate).
  intros _. vm_compute. discriminate.
Defined.

(** C6 as stated fails where the [size_t] sum wraps: for M = 2^64 - 1 the
    1-D dispatcher computes grid_m = 0 and launches no block at all. *)
Lemma dispatcher_grid_wraps :
  1 <= SIZE_MAX /\
  dim_x (grid_dim (hgemm_gpu wmma_opt_2 SIZE_MAX 1 1)) = 0 /\
  ~ launches_one_block_per_tile wmma_opt_2 SIZE_MAX 1 1.
Proof.
  split; [vm_compute; discriminate |].
  split; [vm_compute; reflexivity |].
  unfold launches_one_block_per_tile.
  cbn [grid_is_1d block_tile wmma_config_of].
  change (Z.of_nat (block_m config_o2)) with 256.
  change (Z.of_nat (block_n config_o2)) with 256.
  change (dim_x (grid_dim (hgemm_gpu wmma_opt_2 SIZE_MAX 1 1))) with 0.
  intros (gm & gn & HM & HN & Hx & _).
  unfold is_ceil, SIZE_MAX in *. nia.
Qed.

Close Scope Z_scope.

(* ===================================================================== *)
(** ** Block scheduler: the Hilbert mapping is a bijection *)
(* ===================================================================== *)

(** The four quadrant placements of one construction step. *)
Lemma hilbert_d2xy_step (j d : nat) :
  let s := 2 ^ j in
  let '(x, y) := hilbert_d2xy j d in
  let t := (d / 4 ^ j) mod 4 in
  hilbert_d2xy (S j) d =
  match t with
  | 0 => (y, x)
  | 1 => (x, y + s)
  | 2 => (x + s, y + s)
  | _ => (s - 1 - y + s, s - 1 - x)
  end.
Proof.
  cbn [hilbert_d2xy].
  destruct (hilbert_d2xy j d) as [x y].
  assert (Ht : (d / 4 ^ j) mod 4 < 4) by (apply Nat.mod_upper_bound; lia).
  destruct ((d / 4 ^ j) mod 4) as [|[|[|[|t]]]]; [| | | | lia];
    cbn; rewrite ?Nat.mul_0_r, ?Nat.mul_1_r, ?Nat.add_0_r; reflexivity.
Qed.

Example hilbert_d2xy_order_2 :
  map (hilbert_d2xy 2) (seq 0 16) =
  [(0, 0); (1, 0); (1, 1); (0, 1); (0, 2); (0, 3); (1, 3); (1, 2);
   (2, 2); (2, 3); (3, 3); (3, 2); (3, 1); (2, 1); (2, 0); (3, 0)].
Proof. by_running. Qed.

(** A 3 x 2 grid inside the 4 x 4 square. *)
Example hilbert_cells_3x2 :
  hilbert_cells 3 2 = [(0, 0); (1, 0); (1, 1); (0, 1); (2, 1); (2, 0)].
Proof. by_running. Qed.

(** The walk of order j stays inside the 2^j x 2^j square. *)
Lemma hilbert_d2xy_range (j d : nat) :
  fst (hilbert_d2xy j d) < 2 ^ j /\ snd (hilbert_d2xy j d) < 2 ^ j.
Proof.
  induction j as [|j IH]; [simpl; lia |].
  pose proof (hilbert_d2xy_step j d) as Hs. cbv zeta in Hs.
  destruct (hilbert_d2xy j d) as [x y]. simpl in IH.
  rewrite Hs. rewrite Nat.pow_succ_r'.
  destruct ((d / 4 ^ j) mod 4) as [|[|[|t]]]; simpl; lia.
Qed.

(** Equal images force equal low [j] base-4 digits. *)
Lemma hilbert_d2xy_inj_mod (j : nat) :
  forall d d', hilbert_d2xy j d = hilbert_d2xy j d' ->
               d mod 4 ^ j = d' mod 4 ^ j.
Proof.
  induction j as [|j IH]; intros d d' E.
  - change (4 ^ 0) with 1. rewrite !Nat.mod_1_r. reflexivity.
  - pose proof (hilbert_d2xy_step j d) as Hs.
    pose proof (hilbert_d2xy_step j d') as Hs'. cbv zeta in Hs, Hs'.
    pose proof (hilbert_d2xy_range j d) as Hr.
    pose proof (hilbert_d2xy_range j d') as Hr'.
    specialize (IH d d').
    destruct (hilbert_d2xy j d) as [x y].
    destruct (hilbert_d2xy j d') as [x' y'].
    simpl in Hr, Hr'. rewrite Hs, Hs' in E.
    assert (Ht : (d / 4 ^ j) mod 4 < 4) by (apply Nat.mod_upper_bound; lia).
    assert (Ht' : (d' / 4 ^ j) mod 4 < 4) by (apply Nat.mod_upper_bound; lia).
    assert (Hq : (d / 4 ^ j) mod 4 = (d' / 4 ^ j) mod 4 /\ (x, y) = (x', y')).
    { destruct ((d / 4 ^ j) mod 4) as [|[|[|[|t]]]]; [| | | | lia];
        (destruct ((d' / 4 ^ j) mod 4) as [|[|[|[|t']]]]; [| | | | lia]);
        injection E as E1 E2; split;
        first [ reflexivity | lia | (f_equal; lia) ]. }
    destruct Hq as [Hq Hxy].
    rewrite Nat.pow_succ_r', (Nat.mul_comm 4).
    rewrite !Nat.Div0.mod_mul_r. rewrite Hq, (IH Hxy). reflexivity.
Qed.

Lemma hilbert_d2xy_inj (j d d' : nat) :
  d < 4 ^ j -> d' < 4 ^ j ->
  hilbert_d2xy j d = hilbert_d2xy j d' -> d = d'.
Proof.
  intros Hd Hd' E. apply hilbert_d2xy_inj_mod in E.
  rewrite !Nat.mod_small in E by assumption. exact E.
Qed.

(** The row-major enumeration lists every cell of the grid once. *)
Lemma grid_cells_In (grid_m grid_n : nat) (p : nat * nat) :
  0 < grid_n ->
  In p (grid_cells grid_m grid_n) <-> fst p < grid_m /\ snd p < grid_n.
Proof.
  intros Hn. unfold grid_cells, naive_tile_mapping. rewrite in_map_iff.
  split.
  - intros (id & <- & Hid). apply in_seq in Hid. simpl. split.
    + apply Nat.Div0.div_lt_upper_bound. lia.
    + apply Nat.mod_upper_bound. lia.
  - destruct p as [x y]. simpl. intros [Hx Hy].
    exists (x * grid_n + y). split.
    + rewrite Nat.div_add_l, Nat.div_small, Nat.add_0_r by lia.
      rewrite Nat.add_comm, Nat.Div0.mod_add, Nat.mod_small by lia.
      reflexivity.
    + apply in_seq. nia.
Qed.

Lemma grid_cells_NoDup (grid_m grid_n : nat) :
  0 < grid_n -> List.NoDup (grid_cells grid_m grid_n).
Proof.
  intros Hn. unfold grid_cells, naive_tile_mapping.
  apply NoDup_map_NoDup_ForallPairs; [| apply seq_NoDup].
  intros a b _ _ [= Hq Hr].
  rewrite (Nat.div_mod a grid_n), (Nat.div_mod b grid_n) by lia.
  rewrite Hq, Hr. reflexivity.
Qed.

Lemma grid_cells_length (grid_m grid_n : nat) :
  length (grid_cells grid_m grid_n) = grid_m * grid_n.
Proof. unfold grid_cells. rewrite length_map, length_seq. reflexivity. Qed.

Lemma pow2_square (k : nat) : 2 ^ k * 2 ^ k = 4 ^ k.
Proof. rewrite <- Nat.pow_mul_l. reflexivity. Qed.

(** The curve of order k visits no cell twice. *)
Lemma hilbert_curve_NoDup (k : nat) :
  List.NoDup (map (hilbert_d2xy k) (seq 0 (4 ^ k))).
Proof.
  apply NoDup_map_NoDup_ForallPairs; [| apply seq_NoDup].
  intros a b Ha Hb E. apply in_seq in Ha, Hb.
  apply (hilbert_d2xy_inj k); (assumption || lia).
Qed.

(** The curve of order k visits every cell of the 2^k x 2^k square. *)
Lemma hilbert_curve_onto (k : nat) (p : nat * nat) :
  fst p < 2 ^ k -> snd p < 2 ^ k ->
  In p (map (hilbert_d2xy k) (seq 0 (4 ^ k))).
Proof.
  intros Hx Hy.
  assert (Hpos : 0 < 2 ^ k) by lia.
  apply (@List.NoDup_length_incl _ (map (hilbert_d2xy k) (seq 0 (4 ^ k)))
           (grid_cells (2 ^ k) (2 ^ k)) (hilbert_curve_NoDup k)).
  - rewrite grid_cells_length, length_map, length_seq, pow2_square. lia.
  - intros q Hq. apply in_map_iff in Hq as (d & <- & _).
    apply grid_cells_In; [assumption |]. apply hilbert_d2xy_range.
  - apply grid_cells_In; [assumption |]. split; assumption.
Qed.

Lemma bounding_order_covers (grid_m grid_n : nat) :
  1 <= grid_m -> 1 <= grid_n ->
  grid_m <= 2 ^ bounding_order grid_m grid_n /\
  grid_n <= 2 ^ bounding_order grid_m grid_n.
Proof.
  intros Hm Hn. unfold bounding_order.
  pose proof (Nat.log2_log2_up_spec (Nat.max grid_m grid_n) ltac:(lia)) as H.
  lia.
Qed.

(** After discarding, exactly the cells of the grid remain, each once. *)
Lemma hilbert_cells_In (grid_m grid_n : nat) (p : nat * nat) :
  1 <= grid_m -> 1 <= grid_n ->
  In p (hilbert_cells grid_m grid_n) <-> fst p < grid_m /\ snd p < grid_n.
Proof.
  intros Hm Hn. unfold hilbert_cells. rewrite filter_In.
  unfold in_grid. rewrite andb_true_iff, !Nat.ltb_lt.
  destruct (bounding_order_covers grid_m grid_n Hm Hn) as [Bm Bn].
  split; [tauto |]. intros [Hx Hy]. split; [| tauto].
  apply hilbert_curve_onto; lia.
Qed.

Lemma hilbert_cells_NoDup (grid_m grid_n : nat) :
  List.NoDup (hilbert_cells grid_m grid_n).
Proof. apply List.NoDup_filter, hilbert_curve_NoDup. Qed.

Lemma hilbert_cells_length (grid_m grid_n : nat) :
  1 <= grid_m -> 1 <= grid_n ->
  length (hilbert_cells grid_m grid_n) = grid_m * grid_n.
Proof.
  intros Hm Hn. rewrite <- (grid_cells_length grid_m grid_n).
  apply Permutation_length, Permutation.NoDup_Permutation.
  - apply hilbert_cells_NoDup.
  - apply grid_cells_NoDup. lia.
  - intros p. rewrite hilbert_cells_In, grid_cells_In by lia. reflexivity.
Qed.

(** C5.  For grid_m, grid_n >= 1 (and positive block sizes) the Hilbert
    mapping restricted to tile ids in [0, grid_m * grid_n) is a bijection
    onto the block coordinates of the grid: every image is the top-left
    corner (i * block_m, j * block_n) of a block with i < grid_m and
    j < grid_n, hence inside [0, grid_m * block_m) x [0, grid_n * block_n)
    and aligned; distinct ids have distinct images; and every block of the
    grid is the image of some id. *)
Theorem hilbert_tile_mapping_bijection (BLOCK_M BLOCK_N grid_m grid_n : nat) :
  1 <= BLOCK_M -> 1 <= BLOCK_N -> 1 <= grid_m -> 1 <= grid_n ->
  (forall id, id < grid_m * grid_n ->
     let p := hilbert_tile_mapping BLOCK_M BLOCK_N id grid_m grid_n in
     fst p < grid_m * BLOCK_M /\ snd p < grid_n * BLOCK_N /\
     fst p mod BLOCK_M = 0 /\ snd p mod BLOCK_N = 0) /\
  (forall id id', id < grid_m * grid_n -> id' < grid_m * grid_n ->
     hilbert_tile_mapping BLOCK_M BLOCK_N id grid_m grid_n =
     hilbert_tile_mapping BLOCK_M BLOCK_N id' grid_m grid_n ->
     id = id') /\
  (forall i j, i < grid_m -> j < grid_n ->
     exists id, id < grid_m * grid_n /\
       hilbert_tile_mapping BLOCK_M BLOCK_N id grid_m grid_n =
       (i * BLOCK_M, j * BLOCK_N)).
Proof.
  intros HBM HBN Hm Hn.
  pose proof (hilbert_cells_length grid_m grid_n Hm Hn) as Hlen.
  pose proof (hilbert_cells_NoDup grid_m grid_n) as Hnd.
  unfold hilbert_tile_mapping. repeat split.
  - assert (Hin : In (nth id (hilbert_cells grid_m grid_n) (0, 0))
                     (hilbert_cells grid_m grid_n))
      by (apply nth_In; lia).
    apply hilbert_cells_In in Hin; [| assumption | assumption].
    destruct (nth id (hilbert_cells grid_m grid_n) (0, 0)) as [x y].
    simpl in *. nia.
  - assert (Hin : In (nth id (hilbert_cells grid_m grid_n) (0, 0))
                     (hilbert_cells grid_m grid_n))
      by (apply nth_In; lia).
    apply hilbert_cells_In in Hin; [| assumption | assumption].
    destruct (nth id (hilbert_cells grid_m grid_n) (0, 0)) as [x y].
    simpl in *. nia.
  - destruct (nth id (hilbert_cells grid_m grid_n) (0, 0)) as [x y].
    simpl. apply Nat.Div0.mod_mul.
  - destruct (nth id (hilbert_cells grid_m grid_n) (0, 0)) as [x y].
    simpl. apply Nat.Div0.mod_mul.
  - intros id id' Hid Hid' E.
    apply (proj1 (List.NoDup_nth (hilbert_cells grid_m grid_n) (0, 0)) Hnd);
      [lia | lia |].
    destruct (nth id (hilbert_cells grid_m grid_n) (0, 0)) as [x y].
    destruct (nth id' (hilbert_cells grid_m grid_n) (0, 0)) as [x' y'].
    injection E as E1 E2. f_equal; nia.
  - intros i j Hi Hj.
    assert (Hin : In (i, j) (hilbert_cells grid_m grid_n))
      by (apply hilbert_cells_In; simpl; (assumption || lia)).
    destruct (In_nth _ _ (0, 0) Hin) as (id & Hid & Hnth).
    exists id. split; [lia |]. rewrite Hnth. reflexivity.
Qed.

Lemma hilbert_tile_mapping_bijection_witness :
  (forall id, id < 3 * 2 ->
     let p := hilbert_tile_mapping 256 256 id 3 2 in
     fst p < 3 * 256 /\ snd p < 2 * 256 /\
     fst p mod 256 = 0 /\ snd p mod 256 = 0) /\
  (forall id id', id < 3 * 2 -> id' < 3 * 2 ->
     hilbert_tile_mapping 256 256 id 3 2 =
     hilbert_tile_mapping 256 256 id' 3 2 ->
     id = id') /\
  (forall i j, i < 3 -> j < 2 ->
     exists id, id < 3 * 2 /\
       hilbert_tile_mapping 256 256 id 3 2 = (i * 256, j * 256)).
Proof.
  apply (hilbert_tile_mapping_bijection 256 256 3 2); lia.
Defined.

(* ===================================================================== *)
(** ** Staging: where the boundary policy is exact *)
(* ===================================================================== *)

Lemma load_elem_lt (buf : list Fp.half) (idx : nat) :
  idx < length buf ->
  load_elem buf idx = inr (default Fp.hzero (buf !! idx)).
Proof.
  intros H. unfold load_elem.
  destruct (lookup_lt_is_Some_2 buf idx H) as [v ->]. reflexivity.
Qed.

(** Element (row, col) of the staged A tile receives A(block_row + row,
    k_tile + col) when that lies inside A and zero otherwise; the load
    never leaves A. *)
Lemma ws_load_a_elem_exact (A lds : list Fp.half) (M K block_row k_tile i : nat) :
  length A = M * K ->
  let col := i / block_m config_s in
  let row := i mod block_m config_s in
  exec_transfer A lds (ws_load_a_elem M K block_row k_tile i) =
  inr (<[col * lds_stride_A config_s + row :=
           if (block_row + row <? M) && (k_tile + col <? K)
           then default Fp.hzero (A !! ((k_tile + col) * M + (block_row + row)))
           else Fp.hzero]> lds).
Proof.
  intros HA col row. unfold ws_load_a_elem. fold col row.
  destruct ((block_row + row <? M) && (k_tile + col <? K)) eqn:E;
    [| reflexivity].
  apply andb_true_iff in E as [Hr Hc]. apply Nat.ltb_lt in Hr, Hc.
  cbn [exec_transfer].
  replace (block_row + k_tile * M + col * M + row)
    with ((k_tile + col) * M + (block_row + row)) by lia.
  rewrite load_elem_lt; [reflexivity |].
  rewrite HA, (Nat.mul_comm M K). apply index_in_extent; assumption.
Qed.

Lemma ws_load_b_elem_exact (B lds : list Fp.half) (N K block_col k_tile i : nat) :
  length B = K * N ->
  let row := i / block_n config_s in
  let col := i mod block_n config_s in
  exec_transfer B lds (ws_load_b_elem N K block_col k_tile i) =
  inr (<[row * lds_stride_B config_s + col :=
           if (k_tile + row <? K) && (block_col + col <? N)
           then default Fp.hzero (B !! ((k_tile + row) * N + (block_col + col)))
           else Fp.hzero]> lds).
Proof.
  intros HB row col. unfold ws_load_b_elem. fold row col.
  destruct ((k_tile + row <? K) && (block_col + col <? N)) eqn:E;
    [| reflexivity].
  apply andb_true_iff in E as [Hr Hc]. apply Nat.ltb_lt in Hr, Hc.
  cbn [exec_transfer].
  replace (block_col + k_tile * N + row * N + col)
    with ((k_tile + row) * N + (block_col + col)) by lia.
  rewrite load_elem_lt; [reflexivity |].
  rewrite HB. apply index_in_extent; assumption.
Qed.

(** Element-wise staging of positions [a, a + n). *)
Lemma exec_elementwise_from (gmem : list Fp.half) (dst src : nat)
    (inb : nat -> bool) :
  forall n a lds,
    (forall v, a <= v < a + n -> inb v = true -> src + v < length gmem) ->
    dst + a + n <= length lds ->
    exists lds',
      exec_transfers gmem
        (map (fun v => if inb v then elem_copy (dst + v) (src + v)
                       else elem_zero (dst + v)) (seq a n)) lds = inr lds' /\
      length lds' = length lds /\
      (forall v, a <= v < a + n ->
                 lds' !! (dst + v) = Some (staged_value gmem src inb v)) /\
      (forall j, j < dst + a \/ dst + a + n <= j -> lds' !! j = lds !! j).
Proof.
  induction n as [|n IH]; intros a lds Hsrc Hdst.
  - exists lds. split; [reflexivity |]. split; [reflexivity |].
    split; [intros v Hv; lia | intros j _; reflexivity].
  - cbn [seq map exec_transfers].
    assert (Hstep : exec_transfer gmem lds
                      (if inb a then elem_copy (dst + a) (src + a)
                       else elem_zero (dst + a))
                    = inr (<[dst + a := staged_value gmem src inb a]> lds)).
    { unfold staged_value. destruct (inb a) eqn:E; simpl; [| reflexivity].
      rewrite load_elem_lt by (apply Hsrc; [lia | assumption]). reflexivity. }
    rewrite Hstep. cbn [bind].
    destruct (IH (S a) (<[dst + a := staged_value gmem src inb a]> lds))
      as (lds' & Hrun & Hlen & Hin & Hout).
    + intros v Hv. apply Hsrc. lia.
    + rewrite length_insert. lia.
    + exists lds'. split; [exact Hrun |].
      rewrite length_insert in Hlen. split; [exact Hlen |]. split.
      * intros v Hv. destruct (decide (v = a)) as [-> | Hne].
        -- rewrite Hout by lia. apply list_lookup_insert_eq. lia.
        -- apply Hin. lia.
      * intros j Hj. rewrite Hout by lia.
        apply list_lookup_insert_ne. lia.
Qed.

Lemma exec_elementwise (gmem : list Fp.half) (width dst src : nat)
    (inb : nat -> bool) (lds : list Fp.half) :
  (forall v, v < width -> inb v = true -> src + v < length gmem) ->
  dst + width <= length lds ->
  exists lds',
    exec_transfers gmem (elementwise width dst src inb) lds = inr lds' /\
    length lds' = length lds /\
    (forall v, v < width ->
               lds' !! (dst + v) = Some (staged_value gmem src inb v)) /\
    (forall j, j < dst \/ dst + width <= j -> lds' !! j = lds !! j).
Proof.
  intros Hsrc Hdst.
  destruct (exec_elementwise_from gmem dst src inb width 0 lds)
    as (lds' & Hrun & Hlen & Hin & Hout).
  - intros v Hv. apply Hsrc. lia.
  - lia.
  - exists lds'. split; [exact Hrun |]. split; [exact Hlen |]. split.
    + intros v Hv. apply Hin. lia.
    + intros j Hj. apply Hout. lia.
Qed.

(** One vector-wide transfer, when the whole source vector exists. *)
Lemma exec_vec_copy (gmem : list Fp.half) (width dst src : nat)
    (lds : list Fp.half) :
  src + width <= length gmem ->
  dst + width <= length lds ->
  exists lds',
    exec_transfers gmem [vec_copy dst src width] lds = inr lds' /\
    length lds' = length lds /\
    (forall v, v < width ->
               lds' !! (dst + v)
               = Some (staged_value gmem src (fun _ => true) v)) /\
    (forall j, j < dst \/ dst + width <= j -> lds' !! j = lds !! j).
Proof.
  intros Hsrc Hdst. cbn [exec_transfers exec_transfer]. unfold load_vec.
  replace (src + width <=? length gmem) with true
    by (symmetry; apply Nat.leb_le; assumption).
  cbn [bind ret].
  assert (Hlen : length (take width (drop src gmem)) = width)
    by (rewrite length_take, length_drop; lia).
  eexists. split; [reflexivity |]. split; [apply length_inserts |]. split.
  - intros v Hv. rewrite list_lookup_inserts by lia.
    replace (dst + v - dst) with v by lia.
    rewrite lookup_take_lt, lookup_drop by lia.
    unfold staged_value.
    destruct (lookup_lt_is_Some_2 gmem (src + v) ltac:(lia)) as [x ->].
    reflexivity.
  - intros j [Hj | Hj].
    + apply list_lookup_inserts_lt. assumption.
    + apply list_lookup_inserts_ge. lia.
Qed.

(** The test the code makes on the last position of the vector decides
    whether every position of the chunk is in range. *)
Lemma wbv_load_a_chunk_policy (cfg : wmma_config) (M K block_row k_base i : nat) :
  1 <= vector_width cfg ->
  let col := i / block_m cfg in
  let row := i mod block_m cfg in
  let src := block_row + k_base * M + col * M + row in
  let dst := col * lds_stride_A cfg + row in
  let inb := fun v => (block_row + row + v <? M) && (k_base + col <? K) in
  wbv_load_a_chunk cfg M K block_row k_base i =
  if forallb inb (seq 0 (vector_width cfg))
  then [vec_copy dst src (vector_width cfg)]
  else elementwise (vector_width cfg) dst src inb.
Proof.
  intros Hvw col row src dst inb. unfold wbv_load_a_chunk.
  fold col row src dst.
  assert (E : (block_row + row + vector_width cfg - 1 <? M)
              && (k_base + col <? K)
              = forallb inb (seq 0 (vector_width cfg))).
  { apply eq_true_iff_eq. rewrite forallb_forall.
    rewrite andb_true_iff, !Nat.ltb_lt. unfold inb. split.
    - intros [H1 H2] v Hv. apply in_seq in Hv.
      rewrite andb_true_iff, !Nat.ltb_lt. lia.
    - intros H. specialize (H (vector_width cfg - 1)).
      rewrite andb_true_iff, !Nat.ltb_lt in H.
      replace (block_row + row + vector_width cfg - 1)
        with (block_row + row + (vector_width cfg - 1)) by lia.
      apply H, in_seq. lia. }
  rewrite E. destruct (forallb inb (seq 0 (vector_width cfg))); reflexivity.
Qed.

(** What the chunk leaves in shared memory: in-range positions hold the
    element of A, out-of-range positions hold zero, nothing else changes
    and no load leaves A. *)
Lemma wbv_load_a_chunk_exact (cfg : wmma_config) (A lds : list Fp.half)
    (M K block_row k_base i : nat) :
  1 <= vector_width cfg ->
  length A = M * K ->
  let col := i / block_m cfg in
  let row := i mod block_m cfg in
  let src := block_row + k_base * M + col * M + row in
  let dst := col * lds_stride_A cfg + row in
  let inb := fun v => (block_row + row + v <? M) && (k_base + col <? K) in
  dst + vector_width cfg <= length lds ->
  exists lds',
    exec_transfers A (wbv_load_a_chunk cfg M K block_row k_base i) lds
      = inr lds' /\
    length lds' = length lds /\
    (forall v, v < vector_width cfg ->
               lds' !! (dst + v) = Some (staged_value A src inb v)) /\
    (forall j, j < dst \/ dst + vector_width cfg <= j -> lds' !! j = lds !! j).
Proof.
  intros Hvw HA col row src dst inb Hdst.
  pose proof (wbv_load_a_chunk_policy cfg M K block_row k_base i Hvw) as Hp.
  cbv zeta in Hp. fold col row src dst inb in Hp. rewrite Hp.
  assert (Hsrc : forall v, inb v = true -> src + v < length A).
  { intros v Hv. unfold inb in Hv.
    rewrite andb_true_iff, !Nat.ltb_lt in Hv. rewrite HA. unfold src. nia. }
  destruct (forallb inb (seq 0 (vector_width cfg))) eqn:Eall.
  - rewrite forallb_forall in Eall.
    destruct (exec_vec_copy A (vector_width cfg) dst src lds)
      as (lds' & Hrun & Hlen & Hin & Hout); [| assumption |].
    + specialize (Hsrc (vector_width cfg - 1)
                    (Eall (vector_width cfg - 1) ltac:(apply in_seq; lia))).
      lia.
    + exists lds'. repeat split; try assumption.
      intros v Hv. rewrite Hin by assumption. unfold staged_value.
      rewrite (Eall v) by (apply in_seq; lia). reflexivity.
  - apply exec_elementwise; [| assumption].
    intros v _ Hv. apply Hsrc. assumption.
Qed.

Lemma wbv_load_b_chunk_policy (cfg : wmma_config) (N K block_col k_base i : nat) :
  1 <= vector_width cfg ->
  let row := i / block_n cfg in
  let col := i mod block_n cfg in
  let src := block_col + k_base * N + row * N + col in
  let dst := row * lds_stride_B cfg + col in
  let inb := fun v => (k_base + row <? K) && (block_col + col + v <? N) in
  wbv_load_b_chunk cfg N K block_col k_base i =
  if forallb inb (seq 0 (vector_width cfg))
  then [vec_copy dst src (vector_width cfg)]
  else elementwise (vector_width cfg) dst src inb.
Proof.
  intros Hvw row col src dst inb. unfold wbv_load_b_chunk.
  fold row col src dst.
  assert (E : (k_base + row <? K)
              && (block_col + col + vector_width cfg - 1 <? N)
              = forallb inb (seq 0 (vector_width cfg))).
  { apply eq_true_iff_eq. rewrite forallb_forall.
    rewrite andb_true_iff, !Nat.ltb_lt. unfold inb. split.
    - intros [H1 H2] v Hv. apply in_seq in Hv.
      rewrite andb_true_iff, !Nat.ltb_lt. lia.
    - intros H. specialize (H (vector_width cfg - 1)).
      rewrite andb_true_iff, !Nat.ltb_lt in H.
      replace (block_col + col + vector_width cfg - 1)
        with (block_col + col + (vector_width cfg - 1)) by lia.
      apply H, in_seq. lia. }
  rewrite E. destruct (forallb inb (seq 0 (vector_width cfg))); reflexivity.
Qed.

Lemma wbv_load_b_chunk_exact (cfg : wmma_config) (B lds : list Fp.half)
    (N K block_col k_base i : nat) :
  1 <= vector_width cfg ->
  length B = K * N ->
  let row := i / block_n cfg in
  let col := i mod block_n cfg in
  let src := block_col + k_base * N + row * N + col in
  let dst := row * lds_stride_B cfg + col in
  let inb := fun v => (k_base + row <? K) && (block_col + col + v <? N) in
  dst + vector_width cfg <= length lds ->
  exists lds',
    exec_transfers B (wbv_load_b_chunk cfg N K block_col k_base i) lds
      = inr lds' /\
    length lds' = length lds /\
    (forall v, v < vector_width cfg ->
               lds' !! (dst + v) = Some (staged_value B src inb v)) /\
    (forall j, j < dst \/ dst + vector_width cfg <= j -> lds' !! j = lds !! j).
Proof.
  intros Hvw HB row col src dst inb Hdst.
  pose proof (wbv_load_b_chunk_policy cfg N K block_col k_base i Hvw) as Hp.
  cbv zeta in Hp. fold row col src dst inb in Hp. rewrite Hp.
  assert (Hsrc : forall v, inb v = true -> src + v < length B).
  { intros v Hv. unfold inb in Hv.
    rewrite andb_true_iff, !Nat.ltb_lt in Hv. rewrite HB. unfold src. nia. }
  destruct (forallb inb (seq 0 (vector_width cfg))) eqn:Eall.
  - rewrite forallb_forall in Eall.
    destruct (exec_vec_copy B (vector_width cfg) dst src lds)
      as (lds' & Hrun & Hlen & Hin & Hout); [| assumption |].
    + specialize (Hsrc (vector_width cfg - 1)
                    (Eall (vector_width cfg - 1) ltac:(apply in_seq; lia))).
      lia.
    + exists lds'. repeat split; try assumption.
      intros v Hv. rewrite Hin by assumption. unfold staged_value.
      rewrite (Eall v) by (apply in_seq; lia). reflexivity.
  - apply exec_elementwise; [| assumption].
    intros v _ Hv. apply Hsrc. assumption.
Qed.

(** The chunk of rows 16..31 of column 0 for M = 20: four copies, twelve
    zeros. *)
Example wbv_load_a_chunk_edge :
  wbv_load_a_chunk config_wbv 20 16 0 0 16 =
  map (fun v => elem_copy (16 + v) (16 + v)) (seq 0 4) ++
  map (fun v => elem_zero (20 + v)) (seq 0 12).
Proof. by_running. Qed.

(* ===================================================================== *)
(** ** Staging of a whole tile *)
(* ===================================================================== *)

Lemma exec_transfers_app (gmem : list Fp.half) (ts1 ts2 : list transfer) :
  forall lds,
    exec_transfers gmem (ts1 ++ ts2) lds =
    let* lds' := exec_transfers gmem ts1 lds in exec_transfers gmem ts2 lds'.
Proof.
  induction ts1 as [|t ts1 IH]; intros lds; [reflexivity |].
  cbn [app exec_transfers].
  destruct (exec_transfer gmem lds t) as [e | lds1]; [reflexivity |].
  cbn [bind]. apply IH.
Qed.

Lemma flat_map_flat_map {X Y Z : Type} (f : Y -> list Z) (g : X -> list Y)
    (l : list X) :
  flat_map (fun x => flat_map f (g x)) l = flat_map f (flat_map g l).
Proof.
  induction l as [|x l IH]; [reflexivity |].
  cbn [flat_map]. rewrite flat_map_app, IH. reflexivity.
Qed.

(** The loop [for(i = start; i < bound; i += step)] visits exactly the
    offsets [start + t * step] below [bound]. *)
Lemma strided_In (start bound step i : nat) :
  0 < step ->
  In i (strided start bound step) <->
  exists t, i = start + t * step /\ i < bound.
Proof.
  intros Hstep. unfold strided. rewrite in_map_iff.
  destruct (start <? bound) eqn:E.
  - apply Nat.ltb_lt in E.
    set (q := (bound - start + step - 1) / step).
    assert (Hq1 : q * step <= bound - start + step - 1)
      by (unfold q; rewrite Nat.mul_comm; apply Nat.Div0.mul_div_le).
    assert (Hq2 : bound - start + step - 1 < (q + 1) * step).
    { unfold q. pose proof (Nat.div_mod_eq (bound - start + step - 1) step).
      pose proof (Nat.mod_upper_bound (bound - start + step - 1) step
                    ltac:(lia)).
      nia. }
    split.
    + intros (t & <- & Ht). apply in_seq in Ht. exists t.
      split; [reflexivity |]. nia.
    + intros (t & -> & Ht). exists t. split; [reflexivity |].
      apply in_seq. nia.
  - apply Nat.ltb_ge in E. split.
    + intros (t & _ & []).
    + intros (t & -> & Ht). lia.
Qed.

(** A chunk that starts at a multiple of the vector width stays inside one
    column of the tile. *)
Lemma chunk_in_column (bm vw i v : nat) :
  0 < vw -> bm mod vw = 0 -> i mod vw = 0 -> v < vw ->
  (i + v) / bm = i / bm /\ (i + v) mod bm = i mod bm + v.
Proof.
  intros Hvw Hbm Hi Hv.
  destruct (Nat.eq_dec bm 0) as [-> | Hnz]; [split; reflexivity |].
  pose proof (Nat.div_mod_eq bm vw) as Ebm. rewrite Hbm in Ebm.
  pose proof (Nat.div_mod_eq i vw) as Ei. rewrite Hi in Ei.
  pose proof (Nat.div_mod_eq i bm) as Eq.
  pose proof (Nat.mod_upper_bound i bm Hnz) as Hr.
  set (c := bm / vw) in *. set (a := i / vw) in *.
  set (q := i / bm) in *. set (r := i mod bm) in *.
  assert (Er : r = vw * (a - c * q)) by nia.
  assert (He : a - c * q < c) by nia.
  assert (Hfit : r + v < bm) by nia.
  split; symmetry.
  - apply (Nat.div_unique _ _ _ (r + v)); [exact Hfit | lia].
  - apply (Nat.mod_unique _ _ q); [exact Hfit | lia].
Qed.

Section Chunks.

Variable gmem : list Fp.half.
Variable width : nat.
Variable chunk : nat -> list transfer.
Variable value : nat -> Fp.half.

Hypothesis width_pos : 0 < width.

(** What is known of one chunk: it writes the [width] positions from its
    offset on, each with its value, and nothing else. *)
Hypothesis chunk_exact :
  forall i lds,
    i mod width = 0 -> i + width <= length lds ->
    exists lds',
      exec_transfers gmem (chunk i) lds = inr lds' /\
      length lds' = length lds /\
      (forall v, v < width -> lds' !! (i + v) = Some (value (i + v))) /\
      (forall j, j < i \/ i + width <= j -> lds' !! j = lds !! j).

(** Chunks one after the other, in any order and with any repetition. *)
Lemma exec_chunks :
  forall cs lds,
    (forall i, In i cs -> i mod width = 0 /\ i + width <= length lds) ->
    exists lds',
      exec_transfers gmem (flat_map chunk cs) lds = inr lds' /\
      length lds' = length lds /\
      forall j, lds' !! j
                = if covered width cs j then Some (value j) else lds !! j.
Proof using width_pos chunk_exact.
  induction cs as [|i cs IH]; intros lds Hcs.
  - exists lds. repeat split; reflexivity.
  - destruct (Hcs i (or_introl eq_refl)) as [Hi Hfit].
    destruct (chunk_exact i lds Hi Hfit) as (lds1 & Hrun1 & Hlen1 & Hin1 & Hout1).
    destruct (IH lds1) as (lds' & Hrun & Hlen & Hlook).
    { intros i' Hi'. rewrite Hlen1. apply Hcs. right. exact Hi'. }
    exists lds'. split; [| split].
    + cbn [flat_map]. rewrite exec_transfers_app, Hrun1. exact Hrun.
    + congruence.
    + intros j. rewrite Hlook. unfold covered. cbn [existsb].
      fold (covered width cs j).
      destruct (covered width cs j); [rewrite orb_true_r; reflexivity |].
      rewrite orb_false_r.
      destruct ((i <=? j) && (j <? i + width)) eqn:E.
      * apply andb_true_iff in E. destruct E as [E1 E2].
        apply Nat.leb_le in E1. apply Nat.ltb_lt in E2.
        replace j with (i + (j - i)) by lia. apply Hin1. lia.
      * apply Hout1. apply andb_false_iff in E.
        destruct E as [E | E];
          [apply Nat.leb_gt in E | apply Nat.ltb_ge in E]; lia.
Qed.

Variable tile_elems : nat.
Variable half_block : nat.

Hypothesis half_block_pos : 0 < half_block.

(** The chunk offsets of all threads of the half block. *)
Lemma all_chunks_In (i : nat) :
  In i (flat_map (fun cid =>
                    strided (cid * width) tile_elems (half_block * width))
                 (seq 0 half_block)) <->
  i mod width = 0 /\ i < tile_elems.
Proof using width_pos half_block_pos.
  rewrite in_flat_map. split.
  - intros (cid & Hcid & Hi). apply in_seq in Hcid.
    apply strided_In in Hi; [| nia]. destruct Hi as (t & -> & Hlt).
    split; [| exact Hlt].
    replace (cid * width + t * (half_block * width))
      with ((cid + t * half_block) * width) by lia.
    apply Nat.Div0.mod_mul.
  - intros [Hmod Hlt].
    pose proof (Nat.div_mod_eq i width) as Ei. rewrite Hmod in Ei.
    pose proof (Nat.div_mod_eq (i / width) half_block) as Ec.
    pose proof (Nat.mod_upper_bound (i / width) half_block ltac:(lia)) as Hc.
    exists ((i / width) mod half_block). split; [apply in_seq; lia |].
    apply strided_In; [nia |].
    exists ((i / width) / half_block). split; [nia | exact Hlt].
Qed.

Hypothesis tile_chunked : tile_elems mod width = 0.

Lemma all_chunks_covered (j : nat) :
  covered width
    (flat_map (fun cid =>
                 strided (cid * width) tile_elems (half_block * width))
              (seq 0 half_block)) j
  = (j <? tile_elems).
Proof using width_pos half_block_pos tile_chunked.
  apply eq_true_iff_eq. unfold covered.
  rewrite existsb_exists, Nat.ltb_lt.
  pose proof (Nat.div_mod_eq tile_elems width) as Et.
  rewrite tile_chunked in Et.
  split.
  - intros (i & Hi & Hj). apply all_chunks_In in Hi. destruct Hi as [Hmod Hlt].
    apply andb_true_iff in Hj. destruct Hj as [H1 H2].
    apply Nat.leb_le in H1. apply Nat.ltb_lt in H2.
    pose proof (Nat.div_mod_eq i width) as Ei. rewrite Hmod in Ei.
    assert (i / width < tile_elems / width) by nia.
    nia.
  - intros Hj.
    pose proof (Nat.div_mod_eq j width) as Ej.
    pose proof (Nat.mod_upper_bound j width ltac:(lia)) as Hr.
    exists (width * (j / width)). split.
    + apply all_chunks_In. split.
      * rewrite Nat.mul_comm. apply Nat.Div0.mod_mul.
      * lia.
    + apply andb_true_iff. split; [apply Nat.leb_le | apply Nat.ltb_lt]; lia.
Qed.

(** All threads of the half block, each over its chunks: the tile holds
    the value of every position, shared memory behind it is untouched. *)
Lemma exec_tile (lds : list Fp.half) :
  tile_elems <= length lds ->
  exec_transfers gmem
    (flat_map (fun cid =>
                 flat_map chunk
                   (strided (cid * width) tile_elems (half_block * width)))
              (seq 0 half_block))
    lds
  = inr (map value (seq 0 tile_elems) ++ drop tile_elems lds).
Proof using width_pos chunk_exact half_block_pos tile_chunked.
  intros Hlen. rewrite flat_map_flat_map.
  pose proof (Nat.div_mod_eq tile_elems width) as Et.
  rewrite tile_chunked in Et.
  destruct (exec_chunks
              (flat_map (fun cid =>
                           strided (cid * width) tile_elems
                                   (half_block * width))
                        (seq 0 half_block)) lds)
    as (lds' & Hrun & Hlen' & Hlook).
  { intros i Hi. apply all_chunks_In in Hi. destruct Hi as [Hmod Hlt].
    split; [exact Hmod |].
    pose proof (Nat.div_mod_eq i width) as Ei. rewrite Hmod in Ei.
    assert (i / width < tile_elems / width) by nia.
    nia. }
  rewrite Hrun. f_equal. apply list_eq. intros j.
  rewrite Hlook, all_chunks_covered.
  destruct (j <? tile_elems) eqn:E.
  - apply Nat.ltb_lt in E. rewrite lookup_app_l by (rewrite length_map, length_seq; exact E).
    rewrite list_lookup_fmap, lookup_seq_lt by exact E. reflexivity.
  - apply Nat.ltb_ge in E.
    rewrite lookup_app_r by (rewrite length_map, length_seq; exact E).
    rewrite length_map, length_seq, lookup_drop. f_equal. lia.
Qed.

End Chunks.

(** One chunk of the A tile, by tile position. *)
Lemma wbv_load_a_chunk_tile (cfg : wmma_config) (A : list Fp.half)
    (M K block_row k_base : nat) :
  0 < vector_width cfg ->
  lds_stride_A cfg = block_m cfg ->
  block_m cfg mod vector_width cfg = 0 ->
  length A = M * K ->
  forall i lds,
    i mod vector_width cfg = 0 ->
    i + vector_width cfg <= length lds ->
    exists lds',
      exec_transfers A (wbv_load_a_chunk cfg M K block_row k_base i) lds
        = inr lds' /\
      length lds' = length lds /\
      (forall v, v < vector_width cfg ->
                 lds' !! (i + v)
                 = Some (tile_a_value cfg A M K block_row k_base (i + v))) /\
      (forall j, j < i \/ i + vector_width cfg <= j -> lds' !! j = lds !! j).
Proof.
  intros Hvw Hstride Hbm HA i lds Hi Hfit.
  pose proof (wbv_load_a_chunk_exact cfg A lds M K block_row k_base i Hvw HA)
    as H.
  cbv zeta in H. rewrite Hstride in H.
  assert (Edst : i / block_m cfg * block_m cfg + i mod block_m cfg = i)
    by (pose proof (Nat.div_mod_eq i (block_m cfg)); lia).
  rewrite Edst in H.
  destruct (H Hfit) as (lds' & Hrun & Hlen & Hin & Hout).
  exists lds'. split; [exact Hrun |]. split; [exact Hlen |].
  split; [| exact Hout].
  intros v Hv. rewrite Hin by exact Hv. f_equal.
  unfold staged_value, tile_a_value. cbv zeta.
  destruct (chunk_in_column (block_m cfg) (vector_width cfg) i v
              Hvw Hbm Hi Hv) as [-> ->].
  rewrite !Nat.add_assoc. reflexivity.
Qed.

(** One chunk of the B tile, by tile position. *)
Lemma wbv_load_b_chunk_tile (cfg : wmma_config) (B : list Fp.half)
    (N K block_col k_base : nat) :
  0 < vector_width cfg ->
  lds_stride_B cfg = block_n cfg ->
  block_n cfg mod vector_width cfg = 0 ->
  length B = K * N ->
  forall i lds,
    i mod vector_width cfg = 0 ->
    i + vector_width cfg <= length lds ->
    exists lds',
      exec_transfers B (wbv_load_b_chunk cfg N K block_col k_base i) lds
        = inr lds' /\
      length lds' = length lds /\
      (forall v, v < vector_width cfg ->
                 lds' !! (i + v)
                 = Some (tile_b_value cfg B N K block_col k_base (i + v))) /\
      (forall j, j < i \/ i + vector_width cfg <= j -> lds' !! j = lds !! j).
Proof.
  intros Hvw Hstride Hbn HB i lds Hi Hfit.
  pose proof (wbv_load_b_chunk_exact cfg B lds N K block_col k_base i Hvw HB)
    as H.
  cbv zeta in H. rewrite Hstride in H.
  assert (Edst : i / block_n cfg * block_n cfg + i mod block_n cfg = i)
    by (pose proof (Nat.div_mod_eq i (block_n cfg)); lia).
  rewrite Edst in H.
  destruct (H Hfit) as (lds' & Hrun & Hlen & Hin & Hout).
  exists lds'. split; [exact Hrun |]. split; [exact Hlen |].
  split; [| exact Hout].
  intros v Hv. rewrite Hin by exact Hv. f_equal.
  unfold staged_value, tile_b_value. cbv zeta.
  destruct (chunk_in_column (block_n cfg) (vector_width cfg) i v
              Hvw Hbn Hi Hv) as [-> ->].
  rewrite !Nat.add_assoc. reflexivity.
Qed.

Lemma mod_mul_l (a b w : nat) : a mod w = 0 -> (a * b) mod w = 0.
Proof.
  intros H. pose proof (Nat.div_mod_eq a w) as E. rewrite H in E.
  replace (a * b) with (a / w * b * w) by nia. apply Nat.Div0.mod_mul.
Qed.

(** Staging is exact: whatever M, N and K are, after the cooperative load
    every position of both tiles holds the matrix element it stands for,
    or zero where that element lies outside the matrix; no load leaves A
    or B. *)
Lemma wbv_stage_exact (cfg : wmma_config) (A B : list Fp.half)
    (M N K block_row block_col k_base : nat) (t : tiles) :
  0 < vector_width cfg ->
  0 < warp_size * total_warps cfg / 2 ->
  lds_stride_A cfg = block_m cfg ->
  lds_stride_B cfg = block_n cfg ->
  block_m cfg mod vector_width cfg = 0 ->
  block_n cfg mod vector_width cfg = 0 ->
  length A = M * K ->
  length B = K * N ->
  block_m cfg * block_k cfg <= length (a_tile t) ->
  block_k cfg * block_n cfg <= length (b_tile t) ->
  wbv_stage cfg A B M N K block_row block_col k_base t
  = inr (staged_tiles cfg A B M N K block_row block_col k_base t).
Proof.
  intros Hvw Hhb HsA HsB Hbm Hbn HA HB HtA HtB.
  unfold wbv_stage, wbv_load_a, wbv_load_b, chunks_of. cbv zeta.
  rewrite (exec_tile A (vector_width cfg)
             (wbv_load_a_chunk cfg M K block_row k_base)
             (tile_a_value cfg A M K block_row k_base) Hvw
             (wbv_load_a_chunk_tile cfg A M K block_row k_base
                Hvw HsA Hbm HA)
             (block_m cfg * block_k cfg) _ Hhb
             (mod_mul_l _ _ _ Hbm) (a_tile t) HtA).
  cbn [bind].
  rewrite (exec_tile B (vector_width cfg)
             (wbv_load_b_chunk cfg N K block_col k_base)
             (tile_b_value cfg B N K block_col k_base) Hvw
             (wbv_load_b_chunk_tile cfg B N K block_col k_base
                Hvw HsB Hbn HB)
             (block_k cfg * block_n cfg) _ Hhb
             (eq_trans (f_equal (fun x => x mod vector_width cfg)
                                (Nat.mul_comm _ _))
                       (mod_mul_l _ _ _ Hbn))
             (b_tile t) HtB).
  reflexivity.
Qed.

(* ===================================================================== *)
(** ** Epilogue: where the stores stay inside C *)
(* ===================================================================== *)

(** wmma_shared tests the row and column it stores to: every store of its
    epilogue goes to an element of C inside the M x N extent. *)
Lemma ws_epilogue_in_extent (c_frag : list Fp.half) (M N blockDim_x : nat)
    (t : thread_id) (st : store) :
  In st (ws_epilogue_stores c_frag M N blockDim_x t) ->
  exists r c, r < M /\ c < N /\ fst st = r * N + c /\ fst st < M * N.
Proof.
  unfold ws_epilogue_stores. rewrite in_flat_map.
  intros (i & _ & Hst).
  match type of Hst with
  | In _ (if (?r <? M) && (?c <? N) then _ else _) =>
      destruct ((r <? M) && (c <? N)) eqn:E; [| contradiction];
      apply andb_true_iff in E as [Hr Hc];
      apply Nat.ltb_lt in Hr, Hc;
      destruct Hst as [<- | []];
      exists r, c
  end.
  simpl. repeat split; [assumption | assumption |].
  apply index_in_extent; assumption.
Qed.

(* ===================================================================== *)
(** ** The ragged edge: where the kernels break the boundary law *)
(* ===================================================================== *)

(** The prefetch kernel has no element-wise branch: when the vector of a
    chunk does not fit below row M nothing is loaded, and the store phase
    copies the register as it was.  Thread 1 of block 0 with M = 20 owns
    the chunk of rows 16..31 of column 0. *)
Lemma pf_initial_stage_a_edge (A r tile : list Fp.half) :
  pf_initial_stage_a A 20 16 0 1 [r] tile = inr (list_inserts 16 r tile).
Proof.
  unfold pf_initial_stage_a, pf_load_a_regs, pf_store_a_regs.
  replace (chunks_of config_p (block_m config_p * block_k config_p) 1
             (warp_size * total_warps config_p / 2)) with [16]
    by (vm_compute; reflexivity).
  replace (chunks_of config_p (block_k config_p * block_n config_p) 1
             (warp_size * total_warps config_p / 2)) with [16]
    by (vm_compute; reflexivity).
  cbn [fold_left bind ret].
  replace ((0 + 16 mod block_m config_p + vector_width config_p - 1 <? 20)
           && (0 + 16 / block_m config_p <? 16)) with false
    by (vm_compute; reflexivity).
  cbn [bind ret].
  replace (16 / block_m config_p * lds_stride_A config_p
           + 16 mod block_m config_p) with 16 by (vm_compute; reflexivity).
  replace (16 / vector_width config_p / (warp_size * total_warps config_p / 2))
    with 0 by (vm_compute; reflexivity).
  reflexivity.
Qed.

(** C3, at a failing input.  In the prefetch variant, for M = 20 the chunk
    of rows 16..31 straddles the edge of A; no position is checked
    individually: the four in-range elements are not copied and the twelve
    out-of-range positions are not zeroed, the chunk receives the previous
    register content.  The sibling wmma_shared_warp_buf_vec path stages the
    same chunk as the policy asks. *)
Theorem prefetch_edge_chunk_not_checked :
  (exists tile,
     pf_initial_stage_a edge_A 20 16 0 1 stale_regs stale_tile = inr tile /\
     take 16 (drop 16 tile) = replicate 16 (Fp.h_of_nat 7) /\
     take 16 (drop 16 tile) <> edge_chunk_expected) /\
  (exists tile,
     wbv_initial_stage_a edge_A 20 16 0 1 (stale_tile ++ stale_tile) = inr tile /\
     take 16 (drop 16 tile) = edge_chunk_expected).
Proof.
  split.
  - eexists. split; [apply pf_initial_stage_a_edge |].
    split; [vm_compute; reflexivity | vm_compute; discriminate].
  - eexists. split; vm_compute; reflexivity.
Qed.

(** C1, at failing inputs.  (a) Naive kernel, M = N = K = 17: thread 32 of
    the launch works on the output tile at (16, 0); [store_matrix] makes it
    store C(16, 0) at index 272 and then, without a test on M, at indices
    306, 340, ... of C, all outside the 289 elements of C.  (b) Prefetch kernel, M = 20: the
    staging load before the main loop leaves row 20 of the A tile, which
    lies below the last row of A, holding the previous register content
    (7.0) instead of zero.  (c) Prefetch kernel, M = 16, K = 17: at
    k_tile = 0 the register load of the next A tile tests k_tile + col
    against K but reads column k_tile + block_k + col; thread 16 passes the
    test for col = 1 and loads from index 272 of A, past its 272 elements.
    (d) wmma_shared_warp_buf_vec (and wmma_prefetch, same loop), M = 17,
    N = 16: the store test leaves out the warp-tile row offset wm * 16, so
    thread 16 of block (0, 0) passes it for local row 1 of warp tile
    wm = 1 and stores to row 17, index 272 = M * N. *)
Theorem boundary_law_violations :
  (in_launch (hgemm_gpu wmma_naive 17 17 17) (mk_thread 0 0 32 0) /\
   exists sts,
     naive_thread_stores ones_17x17 ones_17x17 17 17 17 128 4
       (mk_thread 0 0 32 0) = inr sts /\
     map fst sts = [272; 306; 340; 374; 408; 442; 476; 510] /\
     Forall (fun st => 17 * 17 <= fst st) (tail sts)) /\
  (exists tile,
     pf_initial_stage_a edge_A 20 16 0 1 stale_regs stale_tile = inr tile /\
     tile !! 20 = Some (Fp.h_of_nat 7)) /\
  (length edge_A_k17 = 16 * 17 /\
   pf_prefetch_a edge_A_k17 16 17 0 0 16 stale_regs = inl (oob_read 272)) /\
  (in_launch (hgemm_gpu wmma_shared_warp_buf_vec 17 16 16) (mk_thread 0 0 16 0) /\
   forall c_frags,
     In (17 * 16)
        (map fst (tiled_epilogue_stores config_wbv c_frags 17 16 0 0 16))).
Proof.
  split; [| split; [| split]].
  - split; [vm_compute; repeat split; reflexivity |].
    eexists. split; [vm_compute; reflexivity |].
    split; [vm_compute; reflexivity |].
    repeat constructor; simpl; lia.
  - eexists. split; [apply pf_initial_stage_a_edge |].
    vm_compute. reflexivity.
  - split; vm_compute; reflexivity.
  - split; [vm_compute; repeat split; reflexivity |].
    intros c_frags.
    replace (map fst (tiled_epilogue_stores config_wbv c_frags 17 16 0 0 16))
      with (map (fun j => 16 + 32 * j) (seq 0 32))
      by (vm_compute; reflexivity).
    apply in_map_iff. exists 8. split; [reflexivity |].
    apply in_seq. lia.
Qed.

(** The first K slice of the ragged input, as staged. *)
Lemma ragged_stage :
  wbv_stage config_wbv ragged_A ragged_B 32 20 16 0 0 0 stale_lds
  = inr (staged_tiles config_wbv ragged_A ragged_B 32 20 16 0 0 0 stale_lds).
Proof.
  apply wbv_stage_exact;
    first [ by_running
          | apply Nat.ltb_lt; by_running
          | apply Nat.leb_le; by_running ].
Qed.

(** C9, at failing inputs.  (a) wmma_shared_warp_buf_vec, M = 32, N = 20,
    K = 16, A and B all ones.  The store test of the epilogue leaves out
    the column offset of the warp, so thread 32 (warp 1, columns 64..)
    passes it and stores its accumulator, 0, to C[64] = C(3,4), the element
    to which thread 20 (warp 0) stores the product 16.0.  (b) Naive kernel,
    M = N = K = 16, A and B all ones: lane 16 of the wave of tile (0, 0)
    stores 16.0 to C[16] = C(1,0) and lane 0 of the wave of tile (0, 16),
    which lies outside the matrix, stores 0 there.  In both kernels the two
    threads belong to different waves of one block and nothing orders their
    stores: the element ends with the value of whichever store is performed
    last. *)
Theorem store_races :
  (in_launch (hgemm_gpu wmma_shared_warp_buf_vec 32 20 16) (mk_thread 0 0 20 0) /\
   in_launch (hgemm_gpu wmma_shared_warp_buf_vec 32 20 16) (mk_thread 0 0 32 0) /\
   exists s1 s2,
     wbv_thread_stores ragged_A ragged_B 32 20 16 0 0 20 stale_lds stale_lds
       = inr s1 /\
     wbv_thread_stores ragged_A ragged_B 32 20 16 0 0 32 stale_lds stale_lds
       = inr s2 /\
     In (3 * 20 + 4, Fp.h_of_nat 16) s1 /\
     In (3 * 20 + 4, Fp.hzero) s2 /\
     apply_stores (s1 ++ s2) ragged_C !! (3 * 20 + 4) = Some Fp.hzero /\
     apply_stores (s2 ++ s1) ragged_C !! (3 * 20 + 4)
       = Some (Fp.h_of_nat 16)) /\
  (in_launch (hgemm_gpu wmma_naive 16 16 16) race_thread_1 /\
   in_launch (hgemm_gpu wmma_naive 16 16 16) race_thread_2 /\
   race_thread_1 <> race_thread_2 /\
   exists s1 s2,
     naive_thread_stores ones_16x16 ones_16x16 16 16 16 128 4 race_thread_1
       = inr s1 /\
     naive_thread_stores ones_16x16 ones_16x16 16 16 16 128 4 race_thread_2
       = inr s2 /\
     In (16, Fp.h_of_nat 16) s1 /\
     In (16, Fp.hzero) s2 /\
     apply_stores (s1 ++ s2) zeros_16x16 !! 16 = Some Fp.hzero /\
     apply_stores (s2 ++ s1) zeros_16x16 !! 16 = Some (Fp.h_of_nat 16)).
Proof.
  split.
  - split; [vm_compute; repeat split; reflexivity |].
    split; [vm_compute; repeat split; reflexivity |].
    eexists. eexists.
    split; [unfold wbv_thread_stores, wbv_main_loop; rewrite ragged_stage;
            by_running |].
    split; [unfold wbv_thread_stores, wbv_main_loop; rewrite ragged_stage;
            by_running |].
    split; [right; left; reflexivity |].
    split; [left; reflexivity |].
    split; by_running.
  - split; [vm_compute; repeat split; reflexivity |].
    split; [vm_compute; repeat split; reflexivity |].
    split; [discriminate |].
    eexists. eexists.
    split; [by_running |].
    split; [by_running |].
    split; [left; reflexivity |].
    split; [left; reflexivity |].
    split; by_running.
Qed.

(* ===================================================================== *)
(** ** Staged tiles, position by position *)
(* ===================================================================== *)

Lemma tile_index_div_mod (stride row col : nat) :
  row < stride ->
  (col * stride + row) / stride = col /\ (col * stride + row) mod stride = row.
Proof.
  intros H. split.
  - symmetry. apply (Nat.div_unique _ _ _ row); [exact H | lia].
  - symmetry. apply (Nat.mod_unique _ _ col); [exact H | lia].
Qed.

Lemma tile_index_lt (stride rows row col : nat) :
  row < stride -> col < rows -> col * stride + row < stride * rows.
Proof. intros Hr Hc. nia. Qed.

(** Position (row, col) of an A tile built by [tile_a_value]. *)
Lemma tile_a_value_at (cfg : wmma_config) (A : list Fp.half)
    (M K block_row k_base row col : nat) :
  row < block_m cfg ->
  tile_a_value cfg A M K block_row k_base (col * block_m cfg + row) =
  if (block_row + row <? M) && (k_base + col <? K)
  then default Fp.hzero (A !! ((k_base + col) * M + (block_row + row)))
  else Fp.hzero.
Proof.
  intros Hr. unfold tile_a_value. cbv zeta.
  destruct (tile_index_div_mod (block_m cfg) row col Hr) as [-> ->].
  replace (block_row + k_base * M + col * M + row)
    with ((k_base + col) * M + (block_row + row)) by lia.
  reflexivity.
Qed.

Lemma tile_b_value_at (cfg : wmma_config) (B : list Fp.half)
    (N K block_col k_base row col : nat) :
  col < block_n cfg ->
  tile_b_value cfg B N K block_col k_base (row * block_n cfg + col) =
  if (k_base + row <? K) && (block_col + col <? N)
  then default Fp.hzero (B !! ((k_base + row) * N + (block_col + col)))
  else Fp.hzero.
Proof.
  intros Hc. unfold tile_b_value. cbv zeta.
  destruct (tile_index_div_mod (block_n cfg) col row Hc) as [-> ->].
  replace (block_col + k_base * N + row * N + col)
    with ((k_base + row) * N + (block_col + col)) by lia.
  reflexivity.
Qed.

Lemma lookup_map_seq_app {X : Type} (f : nat -> X) (n j : nat) (l : list X) :
  (map f (seq 0 n) ++ l) !! j
  = if j <? n then Some (f j) else l !! (j - n).
Proof.
  destruct (j <? n) eqn:E.
  - apply Nat.ltb_lt in E.
    rewrite lookup_app_l by (rewrite length_map, length_seq; exact E).
    rewrite list_lookup_fmap, lookup_seq_lt by exact E. reflexivity.
  - apply Nat.ltb_ge in E.
    rewrite lookup_app_r by (rewrite length_map, length_seq; exact E).
    rewrite length_map, length_seq. reflexivity.
Qed.



Lemma flat_map_singleton {X Y : Type} (f : X -> Y) (l : list X) :
  flat_map (fun x => [f x]) l = map f l.
Proof. induction l as [|x l IH]; [reflexivity |]. cbn. rewrite IH. reflexivity. Qed.

(** The element loops of all threads of a block, as chunks of width 1. *)
Lemma exec_elements (gmem : list Fp.half) (elem : nat -> transfer)
    (value : nat -> Fp.half) (tile_elems num_threads : nat)
    (lds : list Fp.half) :
  0 < num_threads ->
  (forall i lds0, exec_transfer gmem lds0 (elem i) = inr (<[i := value i]> lds0)) ->
  tile_elems <= length lds ->
  exec_transfers gmem
    (flat_map (fun tid => map elem (strided tid tile_elems num_threads))
              (seq 0 num_threads))
    lds
  = inr (map value (seq 0 tile_elems) ++ drop tile_elems lds).
Proof.
  intros Hnt Helem Hlen.
  rewrite <- (exec_tile gmem 1 (fun i => [elem i]) value ltac:(lia))
    with (half_block := num_threads); try assumption.
  - f_equal. apply flat_map_ext. intros tid.
    rewrite flat_map_singleton, !Nat.mul_1_r. reflexivity.
  - intros i lds0 _ Hfit. exists (<[i := value i]> lds0).
    cbn [exec_transfers]. rewrite Helem. cbn [bind ret].
    split; [reflexivity |]. split; [apply length_insert |]. split.
    + intros v Hv. replace v with 0 by lia. rewrite Nat.add_0_r.
      apply list_lookup_insert_eq. lia.
    + intros j Hj. apply list_lookup_insert_ne. lia.
  - apply Nat.mod_1_r.
Qed.

(** One staging pass of wmma_shared leaves exactly the tiles the boundary
    policy asks for. *)
Lemma ws_stage_exact (A B : list Fp.half)
    (M N K block_row block_col k_tile num_threads : nat) (t : tiles) :
  0 < num_threads ->
  length A = M * K ->
  length B = K * N ->
  block_m config_s * block_k config_s <= length (a_tile t) ->
  block_k config_s * block_n config_s <= length (b_tile t) ->
  ws_stage A B M N K block_row block_col k_tile num_threads t
  = inr (staged_tiles config_s A B M N K block_row block_col k_tile t).
Proof.
  intros Hnt HA HB HtA HtB. unfold ws_stage, ws_load_a, ws_load_b.
  rewrite (exec_elements A (ws_load_a_elem M K block_row k_tile)
             (tile_a_value config_s A M K block_row k_tile)); try assumption.
  2:{ intros i lds0. rewrite ws_load_a_elem_exact by exact HA.
      change (lds_stride_A config_s) with (block_m config_s).
      pose proof (Nat.div_mod_eq i (block_m config_s)) as E.
      replace (i / block_m config_s * block_m config_s + i mod block_m config_s)
        with i by lia.
      unfold tile_a_value. cbv zeta.
      replace (block_row + k_tile * M + i / block_m config_s * M
               + i mod block_m config_s)
        with ((k_tile + i / block_m config_s) * M
              + (block_row + i mod block_m config_s)) by lia.
      reflexivity. }
  cbn [bind].
  rewrite (exec_elements B (ws_load_b_elem N K block_col k_tile)
             (tile_b_value config_s B N K block_col k_tile)); try assumption.
  2:{ intros i lds0. rewrite ws_load_b_elem_exact by exact HB.
      change (lds_stride_B config_s) with (block_n config_s).
      pose proof (Nat.div_mod_eq i (block_n config_s)) as E.
      replace (i / block_n config_s * block_n config_s + i mod block_n config_s)
        with i by lia.
      unfold tile_b_value. cbv zeta.
      replace (block_col + k_tile * N + i / block_n config_s * N
               + i mod block_n config_s)
        with ((k_tile + i / block_n config_s) * N
              + (block_col + i mod block_n config_s)) by lia.
      reflexivity. }
  reflexivity.
Qed.



(* ===================================================================== *)
(** ** Double buffering *)
(* ===================================================================== *)

Lemma staged_tiles_full (cfg : wmma_config) (A B : list Fp.half)
    (M N K block_row block_col k_base : nat) (t : tiles) :
  length (a_tile t) = block_m cfg * block_k cfg ->
  length (b_tile t) = block_k cfg * block_n cfg ->
  staged_tiles cfg A B M N K block_row block_col k_base t
  = slice_tiles cfg A B M N K block_row block_col k_base.
Proof.
  intros Ha Hb. unfold staged_tiles, slice_tiles. cbv zeta.
  rewrite !drop_ge by lia. rewrite !app_nil_r. reflexivity.
Qed.

Lemma steps_next_slice (K bk it : nat) :
  0 < bk -> S it < (K + bk - 1) / bk -> it * bk + bk < K.
Proof.
  intros Hbk H.
  pose proof (Nat.Div0.mul_div_le (K + bk - 1) bk) as Hq. nia.
Qed.



(* ===================================================================== *)
(** ** Epilogue of wmma_shared: every element once *)
(* ===================================================================== *)

(** Row-major positions with the column inside the row determine row and
    column. *)
Lemma index_split (N r1 c1 r2 c2 : nat) :
  c1 < N -> c2 < N -> r1 * N + c1 = r2 * N + c2 -> r1 = r2 /\ c1 = c2.
Proof.
  intros H1 H2 E.
  assert (E1 : r1 = (r1 * N + c1) / N)
    by (apply (Nat.div_unique _ _ _ c1); [assumption | lia]).
  assert (E2 : r2 = (r2 * N + c2) / N)
    by (apply (Nat.div_unique _ _ _ c2); [assumption | lia]).
  rewrite E, <- E2 in E1. subst r2. split; [reflexivity | lia].
Qed.

(** A guarded loop of single stores is the loop over the iterations that
    pass the guard. *)
Lemma flat_map_guard {X Y : Type} (g : X -> bool) (h : X -> Y) (l : list X) :
  flat_map (fun i => if g i then [h i] else []) l = map h (List.filter g l).
Proof.
  induction l as [|x l IH]; [reflexivity |].
  cbn [flat_map List.filter]. rewrite IH. destruct (g x); reflexivity.
Qed.

Lemma guarded_stores_NoDup (g : nat -> bool) (addr : nat -> nat)
    (val : nat -> Fp.half) (n : nat) :
  (forall i j, g i = true -> g j = true -> addr i = addr j -> i = j) ->
  List.NoDup
    (map fst (flat_map (fun i => if g i then [(addr i, val i)] else [])
                       (seq 0 n))).
Proof.
  intros Hinj.
  rewrite (flat_map_guard g (fun i => (addr i, val i))), map_map.
  cbn [fst].
  apply NoDup_map_NoDup_ForallPairs;
    [| apply List.NoDup_filter, seq_NoDup].
  intros i j Hi Hj E.
  apply filter_In in Hi as [_ Hi]. apply filter_In in Hj as [_ Hj].
  apply Hinj; assumption.
Qed.

(** The thread index of a 256 x 4 block, by warp and lane. *)
Lemma ws_thread_split (tx ty : nat) :
  tx < 256 -> ty < 4 ->
  exists a hw hl,
    a < 8 /\ hw < 2 /\ hl < 16 /\ tx = 32 * a + 16 * hw + hl /\
    (ty * 8 + tx / 32) mod 8 = a /\ (ty * 8 + tx / 32) / 8 = ty /\
    tx mod 32 / 16 = hw /\ tx mod 32 mod 16 = hl.
Proof.
  intros Hx Hy.
  pose proof (Nat.div_mod_eq tx 32) as E1.
  pose proof (Nat.mod_upper_bound tx 32 ltac:(lia)) as B1.
  pose proof (Nat.div_mod_eq (tx mod 32) 16) as E2.
  pose proof (Nat.mod_upper_bound (tx mod 32) 16 ltac:(lia)) as B2.
  exists (tx / 32), (tx mod 32 / 16), (tx mod 32 mod 16).
  assert (Ha : tx / 32 < 8) by (apply Nat.Div0.div_lt_upper_bound; lia).
  assert (Hhw : tx mod 32 / 16 < 2) by (apply Nat.Div0.div_lt_upper_bound; lia).
  repeat split; try lia.
  - symmetry. apply (Nat.mod_unique _ _ ty); lia.
  - symmetry. apply (Nat.div_unique _ _ _ (tx / 32)); lia.
Qed.

(** The stores of one thread of wmma_shared, by row and column of C. *)
Lemma ws_epilogue_In (c_frag : list Fp.half) (M N : nat) (t : thread_id)
    (st : store) :
  threadIdx_x t < 256 -> threadIdx_y t < 4 ->
  In st (ws_epilogue_stores c_frag M N 256 t) <->
  exists a hw hl i,
    a < 8 /\ hw < 2 /\ hl < 16 /\ i < 8 /\
    threadIdx_x t = 32 * a + 16 * hw + hl /\
    blockIdx_x t * 128 + a * 16 + (i * 2 + hw) < M /\
    blockIdx_y t * 64 + threadIdx_y t * 16 + hl < N /\
    st = ((blockIdx_x t * 128 + a * 16 + (i * 2 + hw)) * N
          + (blockIdx_y t * 64 + threadIdx_y t * 16 + hl),
          nth (i * 2) c_frag Fp.hzero).
Proof.
  intros Hx Hy. unfold ws_epilogue_stores.
  change (256 / warp_size) with 8.
  change (block_m config_s / wmma_tile) with 8.
  change (wmma_tile / 2) with 8.
  change (warp_size / 2) with 16.
  change warp_size with 32. change wmma_tile with 16.
  change (block_m config_s) with 128. change (block_n config_s) with 64.
  cbv zeta.
  destruct (ws_thread_split _ _ Hx Hy)
    as (a & hw & hl & Ha & Hhw & Hhl & Etx & -> & -> & -> & ->).
  rewrite in_flat_map. split.
  - intros (i & Hi & Hst). apply in_seq in Hi.
    destruct ((blockIdx_x t * 128 + a * 16 + (i * 2 + hw) <? M)
              && (blockIdx_y t * 64 + threadIdx_y t * 16 + hl <? N)) eqn:E;
      [| contradiction].
    apply andb_true_iff in E as [Hr Hc]. apply Nat.ltb_lt in Hr, Hc.
    destruct Hst as [<- | []].
    exists a, hw, hl, i. repeat split; assumption || lia.
  - intros (a' & hw' & hl' & i & Ha' & Hhw' & Hhl' & Hi & Etx' & Hr & Hc & ->).
    assert (a' = a /\ hw' = hw /\ hl' = hl) as (-> & -> & ->) by lia.
    exists i. split; [apply in_seq; lia |].
    apply Nat.ltb_lt in Hr, Hc. rewrite Hr, Hc. left. reflexivity.
Qed.





(* ===================================================================== *)
(** ** Epilogue of the tiled kernels: where it is safe *)
(* ===================================================================== *)

(** The thread index of a one-dimensional block of 16 warps, by warp row,
    warp column and lane. *)
Lemma tiled_thread_split (tid : nat) :
  tid < 512 ->
  exists wr wc hw hl,
    wr < 4 /\ wc < 4 /\ hw < 2 /\ hl < 16 /\
    tid = 32 * (4 * wr + wc) + 16 * hw + hl /\
    tid / 32 / 4 = wr /\ (tid / 32) mod 4 = wc /\
    tid mod 32 / 16 = hw /\ tid mod 16 = hl.
Proof.
  intros Ht.
  pose proof (Nat.div_mod_eq tid 32) as E1.
  pose proof (Nat.mod_upper_bound tid 32 ltac:(lia)) as B1.
  pose proof (Nat.div_mod_eq (tid / 32) 4) as E2.
  pose proof (Nat.mod_upper_bound (tid / 32) 4 ltac:(lia)) as B2.
  pose proof (Nat.div_mod_eq (tid mod 32) 16) as E3.
  pose proof (Nat.mod_upper_bound (tid mod 32) 16 ltac:(lia)) as B3.
  pose proof (Nat.div_mod_eq tid 16) as E4.
  pose proof (Nat.mod_upper_bound tid 16 ltac:(lia)) as B4.
  exists (tid / 32 / 4), ((tid / 32) mod 4), (tid mod 32 / 16), (tid mod 16).
  repeat split; lia.
Qed.

(** The stores of one thread of the tiled store loop, by warp tile and
    iteration. *)
Lemma tiled_epilogue_In (cfg : wmma_config)
    (c_frags : nat -> nat -> list Fp.half)
    (M N block_row block_col tid : nat) (st : store) :
  warps_n cfg = 4 -> warp_tile_m cfg = 4 -> warp_tile_n cfg = 4 ->
  tid < 512 ->
  In st (tiled_epilogue_stores cfg c_frags M N block_row block_col tid) ->
  exists wr wc hw hl wm wn i,
    wr < 4 /\ wc < 4 /\ hw < 2 /\ hl < 16 /\ wm < 4 /\ wn < 4 /\ i < 8 /\
    tid = 32 * (4 * wr + wc) + 16 * hw + hl /\
    block_row + wr * 64 + (i * 2 + hw) < M /\
    block_col + wn * 16 + hl < N /\
    st = ((block_row + wr * 64 + wm * 16 + (i * 2 + hw)) * N
          + (block_col + wc * 64 + wn * 16 + hl),
          nth (i * 2) (c_frags wm wn) Fp.hzero).
Proof.
  intros Hwn Htm Htn Ht. unfold tiled_epilogue_stores.
  rewrite Hwn, Htm, Htn.
  change (wmma_tile / 2) with 8. change (warp_size / 2) with 16.
  change warp_size with 32. change wmma_tile with 16. cbv zeta.
  destruct (tiled_thread_split tid Ht)
    as (wr & wc & hw & hl & Hwr & Hwc & Hhw & Hhl & Etid & E1 & E2 & E3 & E4).
  rewrite E1, E2, E3, E4.
  rewrite in_flat_map. intros (wm & Hwm & H). apply in_seq in Hwm.
  rewrite in_flat_map in H. destruct H as (wn & Hwn' & H). apply in_seq in Hwn'.
  rewrite in_flat_map in H. destruct H as (i & Hi & H). apply in_seq in Hi.
  destruct ((block_row + wr * 4 * 16 + (i * 2 + hw) <? M)
            && (block_col + (wn * 16 + hl) <? N)) eqn:E; [| contradiction].
  apply andb_true_iff in E as [Hr Hc]. apply Nat.ltb_lt in Hr, Hc.
  destruct H as [<- | []].
  exists wr, wc, hw, hl, wm, wn, i. repeat split; try lia.
  f_equal. ring.
Qed.


(** The store of the first iteration of a loop nest. *)
Ltac in_first_iteration :=
  apply in_flat_map; exists 0;
  split; [apply in_seq; split; [apply Nat.le_0_l | apply Nat.ltb_lt; by_running] |].


(* ===================================================================== *)
(** ** The naive kernel: fragment loads and aligned sizes *)
(* ===================================================================== *)

(** A guarded element-by-element load into a fragment. *)
Lemma load_loop (data : list Fp.half) (g : nat -> bool) (idx : nat -> nat)
    (n : nat) (frag : list Fp.half) :
  (forall i, i < n -> g i = true -> idx i < length data) ->
  n <= length frag ->
  exists frag',
    for_loop n 0
      (fun i f =>
         if g i
         then let* v := load_elem data (idx i) in ret (<[i := v]> f)
         else ret f)
      frag = inr frag' /\
    length frag' = length frag /\
    forall i, frag' !! i
              = if (i <? n) && g i then data !! idx i else frag !! i.
Proof.
  intros Hidx Hlen.
  destruct (for_loop_inv
              (fun k f =>
                 length f = length frag /\
                 forall i, f !! i
                           = if (i <? k) && g i then data !! idx i
                             else frag !! i)
              (fun i f =>
                 if g i
                 then let* v := load_elem data (idx i) in ret (<[i := v]> f)
                 else ret f)
              n 0 frag) as (frag' & Hrun & Hl & Hend).
  - split; [reflexivity |]. intros i. reflexivity.
  - intros k f Hk [Hl Hf]. destruct (g k) eqn:Eg.
    + destruct (lookup_lt_is_Some_2 data (idx k)) as [v Hv];
        [apply Hidx; [lia | assumption] |].
      unfold load_elem. rewrite Hv. cbn [bind ret].
      eexists. split; [reflexivity |]. split; [rewrite length_insert; exact Hl |].
      intros i. destruct (decide (i = k)) as [-> | Hne].
      * rewrite list_lookup_insert_eq by lia.
        replace (k <? S k) with true by (symmetry; apply Nat.ltb_lt; lia).
        rewrite Eg. symmetry. exact Hv.
      * rewrite list_lookup_insert_ne by lia. rewrite Hf.
        replace (i <? S k) with (i <? k); [reflexivity |].
        apply eq_true_iff_eq. rewrite !Nat.ltb_lt. lia.
    + eexists. split; [reflexivity |]. split; [exact Hl |].
      intros i. rewrite Hf. destruct (decide (i = k)) as [-> | Hne].
      * rewrite Eg, !andb_false_r. reflexivity.
      * replace (i <? S k) with (i <? k); [reflexivity |].
        apply eq_true_iff_eq. rewrite !Nat.ltb_lt. lia.
  - exists frag'. split; [exact Hrun |]. split; [exact Hl |]. exact Hend.
Qed.

(** The same loop when the source position is a pointer that is advanced
    by [step] in the iterations that pass the test; the test fails for good
    once it fails. *)
Lemma load_walk (data : list Fp.half) (g : nat -> bool) (base step : nat)
    (n : nat) (frag : list Fp.half) :
  (forall i, g (S i) = true -> g i = true) ->
  (forall i, i < n -> g i = true -> base + i * step < length data) ->
  n <= length frag ->
  exists frag',
    (let* p :=
       for_loop n 0
         (fun i '(f, tmp) =>
            if g i
            then let* v := load_elem data tmp in ret (<[i := v]> f, tmp + step)
            else ret (f, tmp))
         (frag, base) in
     ret (fst p)) = inr frag' /\
    length frag' = length frag /\
    forall i, frag' !! i
              = if (i <? n) && g i then data !! (base + i * step)
                else frag !! i.
Proof.
  intros Hmono Hidx Hlen.
  assert (Hdown : forall k i, i <= k -> g k = true -> g i = true).
  { induction k as [|k IH]; intros i Hi Hk.
    - replace i with 0 by lia. exact Hk.
    - destruct (decide (i = S k)) as [-> | Hne]; [exact Hk |].
      apply IH; [lia | apply Hmono; exact Hk]. }
  destruct (for_loop_inv
              (fun k (p : list Fp.half * nat) =>
                 length (fst p) = length frag /\
                 (forall i, fst p !! i
                            = if (i <? k) && g i then data !! (base + i * step)
                              else frag !! i) /\
                 ((forall i, i < k -> g i = true) -> snd p = base + k * step))
              (fun i '(f, tmp) =>
                 if g i
                 then let* v := load_elem data tmp in
                      ret (<[i := v]> f, tmp + step)
                 else ret (f, tmp))
              n 0 (frag, base)) as (p & Hrun & Hl & Hend & _).
  - cbn [fst snd]. split; [reflexivity |]. split; [| intros _; lia].
    intros i. reflexivity.
  - intros k [f tmp] Hk (Hl & Hf & Htmp). cbn [fst snd] in *.
    destruct (g k) eqn:Eg.
    + rewrite Htmp by (intros i Hi; apply (Hdown k); [lia | exact Eg]).
      destruct (lookup_lt_is_Some_2 data (base + k * step)) as [v Hv];
        [apply Hidx; [lia | assumption] |].
      unfold load_elem. rewrite Hv. cbn [bind ret].
      eexists. split; [reflexivity |]. cbn [fst snd].
      split; [rewrite length_insert; exact Hl |]. split; [| intros _; lia].
      intros i. destruct (decide (i = k)) as [-> | Hne].
      * rewrite list_lookup_insert_eq by lia.
        replace (k <? S k) with true by (symmetry; apply Nat.ltb_lt; lia).
        rewrite Eg. symmetry. exact Hv.
      * rewrite list_lookup_insert_ne by lia. rewrite Hf.
        replace (i <? S k) with (i <? k); [reflexivity |].
        apply eq_true_iff_eq. rewrite !Nat.ltb_lt. lia.
    + eexists. split; [reflexivity |]. cbn [fst snd].
      split; [exact Hl |]. split.
      * intros i. rewrite Hf. destruct (decide (i = k)) as [-> | Hne].
        -- rewrite Eg, !andb_false_r. reflexivity.
        -- replace (i <? S k) with (i <? k); [reflexivity |].
           apply eq_true_iff_eq. rewrite !Nat.ltb_lt. lia.
      * intros Hall. rewrite Hall in Eg by lia. discriminate.
  - rewrite Hrun. cbn [bind ret]. exists (fst p). split; [reflexivity |].
    split; [exact Hl | exact Hend].
Qed.


Lemma map_result_ok {X Y : Type} (f : X -> result Y) (l : list X) :
  (forall x, In x l -> exists y, f x = inr y) ->
  exists ys, map_result f l = inr ys /\ length ys = length l.
Proof.
  induction l as [|x l IH]; intros H.
  - exists []. split; reflexivity.
  - destruct (H x (or_introl eq_refl)) as [y Hy].
    destruct IH as (ys & Hys & Hl); [intros x' Hx'; apply H; right; exact Hx' |].
    exists (y :: ys). cbn [map_result]. rewrite Hy. cbn [bind].
    rewrite Hys. cbn [bind ret length]. split; [reflexivity | lia].
Qed.

(** The K loop of the naive kernel returns for any M, N, K and any output
    tile: its loads are guarded. *)
Lemma naive_wave_returns (A B : list Fp.half) (M N K c_row c_col : nat) :
  length A = M * K -> length B = K * N ->
  exists c_frags, naive_wave A B M N K c_row c_col = inr c_frags.
Proof.
  intros HA HB. unfold naive_wave. cbv zeta.
  match goal with
  | |- exists c, for_loop ?n 0 ?body ?init = inr c =>
      destruct (for_loop_inv (fun _ _ => True) body n 0 init)
        as (c & Hrun & _); [exact I | | exists c; exact Hrun]
  end.
  intros m c_frags _ _.
  destruct (map_result_ok
              (load_matrix_a_row_major frag_zero A c_row (m * wmma_tile) M K)
              (seq 0 warpSize)) as (a_frags & -> & _).
  { intros tx _.
    destruct (load_loop A
                (fun i => (c_row + tx mod half_warp <? M)
                          && (m * wmma_tile + i <? K))
                (fun i => (c_row + tx mod half_warp) * K + m * wmma_tile + i)
                wmma_tile frag_zero) as (f & Hf & _);
      [| reflexivity | exists f; exact Hf].
    intros i _ Hg. apply andb_true_iff in Hg as [H1 H2].
    apply Nat.ltb_lt in H1, H2. rewrite HA, <- Nat.add_assoc.
    apply index_in_extent; assumption. }
  destruct (map_result_ok
              (load_matrix_b_col_major frag_zero B (m * wmma_tile) c_col K N)
              (seq 0 warpSize)) as (b_frags & -> & _).
  { intros tx _.
    destruct (load_loop B
                (fun i => (c_col + tx mod half_warp <? N)
                          && (m * wmma_tile + i <? K))
                (fun i => (c_col + tx mod half_warp) * K + m * wmma_tile + i)
                wmma_tile frag_zero) as (f & Hf & _);
      [| reflexivity | exists f; exact Hf].
    intros i _ Hg. apply andb_true_iff in Hg as [H1 H2].
    apply Nat.ltb_lt in H1, H2. rewrite HB, (Nat.mul_comm K N), <- Nat.add_assoc.
    apply index_in_extent; assumption. }
  cbn [bind ret]. eexists. split; [reflexivity | exact I].
Qed.

(** The thread index of a 128 x 4 block of the naive kernel. *)
Lemma naive_thread_split (bx tx : nat) :
  tx < 128 ->
  exists a hw hl,
    a < 4 /\ hw < 2 /\ hl < 16 /\ tx = 32 * a + 16 * hw + hl /\
    (bx * 128 + tx) / 32 = bx * 4 + a /\
    tx mod 32 / 16 = hw /\ tx mod 16 = hl.
Proof.
  intros Hx.
  pose proof (Nat.div_mod_eq tx 32) as E1.
  pose proof (Nat.mod_upper_bound tx 32 ltac:(lia)) as B1.
  pose proof (Nat.div_mod_eq (tx mod 32) 16) as E2.
  pose proof (Nat.mod_upper_bound (tx mod 32) 16 ltac:(lia)) as B2.
  pose proof (Nat.div_mod_eq tx 16) as E3.
  pose proof (Nat.mod_upper_bound tx 16 ltac:(lia)) as B3.
  exists (tx / 32), (tx mod 32 / 16), (tx mod 16).
  repeat split; try lia.
  symmetry. apply (Nat.div_unique _ _ _ (tx mod 32)); lia.
Qed.

(** The stores of one thread of the naive kernel, by row and column. *)
Lemma naive_stores_In (frag : list Fp.half) (M N : nat) (t : thread_id)
    (st : store) :
  threadIdx_x t < 128 ->
  In st (store_matrix frag
           ((blockIdx_x t * 128 + threadIdx_x t) / warpSize * wmma_tile)
           ((blockIdx_y t * 4 + threadIdx_y t) * wmma_tile)
           M N (threadIdx_x t)) ->
  exists a hw hl i,
    a < 4 /\ hw < 2 /\ hl < 16 /\ i < 8 /\
    threadIdx_x t = 32 * a + 16 * hw + hl /\
    st = ((blockIdx_x t * 64 + a * 16 + (i * 2 + hw)) * N
          + (blockIdx_y t * 64 + threadIdx_y t * 16 + hl),
          nth (i * 2) frag Fp.hzero).
Proof.
  intros Hx. unfold store_matrix.
  change (wmma_tile / 2) with 8. change half_warp with 16.
  change warpSize with 32. change wmma_tile with 16. cbv zeta.
  destruct (naive_thread_split (blockIdx_x t) _ Hx)
    as (a & hw & hl & Ha & Hhw & Hhl & Etx & -> & -> & ->).
  rewrite in_map_iff. intros (i & <- & Hi). apply in_seq in Hi.
  exists a, hw, hl, i. repeat split; try lia.
  f_equal. f_equal; lia.
Qed.

Open Scope Z_scope.

(** The grid and block the naive dispatcher launches, for aligned sizes. *)
Lemma naive_launch_aligned (M N : nat) (K : Z) (t : thread_id) :
  1 <= Z.of_nat M <= INT_MAX -> 1 <= Z.of_nat N <= INT_MAX ->
  (M mod 64 = 0)%nat -> (N mod 64 = 0)%nat ->
  in_launch (hgemm_gpu wmma_naive (Z.of_nat M) (Z.of_nat N) K) t ->
  (blockIdx_x t * 64 + 64 <= M)%nat /\ (blockIdx_y t * 64 + 64 <= N)%nat /\
  (threadIdx_x t < 128)%nat /\ (threadIdx_y t < 4)%nat.
Proof.
  intros HM HN AM AN. unfold in_launch. cbn [hgemm_gpu].
  change (to_uint (Z.of_nat wmma_tile * to_uint (32 * 4)) / 32) with 64.
  change (to_uint (Z.of_nat wmma_tile * to_uint 4)) with 64.
  cbn [grid_dim block_dim dim3_2 dim_x dim_y dim_z].
  change (to_uint (32 * 4)) with 128. change (to_uint 4) with 4.
  destruct (ceil_div_small (Z.of_nat M) 64 HM ltac:(lia)) as [EM BM].
  destruct (ceil_div_small (Z.of_nat N) 64 HN ltac:(lia)) as [EN BN].
  rewrite !to_uint_small by lia. rewrite EM, EN.
  pose proof (Nat.div_mod_eq M 64) as DM. rewrite AM in DM.
  pose proof (Nat.div_mod_eq N 64) as DN. rewrite AN in DN.
  pose proof (is_ceil_div (Z.of_nat M) 64 ltac:(lia)) as CM.
  pose proof (is_ceil_div (Z.of_nat N) 64 ltac:(lia)) as CN.
  unfold is_ceil in CM, CN.
  intros (Hbx & Hby & Htx & Hty). lia.
Qed.

Close Scope Z_scope.




(* ===================================================================== *)
(** ** Verification: a result against itself *)
(* ===================================================================== *)

(** The relative difference of a value with itself is zero or NaN. *)
Lemma rel_diff_self (x : Fp.float) :
  rel_diff x x = S754_nan \/ exists s, rel_diff x x = S754_zero s.
Proof.
  unfold rel_diff.
  assert (Hsub : Fp.fsub x x = S754_nan \/ Fp.fsub x x = S754_zero false).
  { unfold Fp.fsub, SFsub. destruct x as [s | s | | s m e].
    - right. destruct s; reflexivity.
    - left. destruct s; reflexivity.
    - left. reflexivity.
    - right. rewrite Z.sub_diag. reflexivity. }
  destruct Hsub as [-> | ->].
  - left. reflexivity.
  - cbn [Fp.fabs SFabs].
    destruct (Fp.fmax (Fp.fabs x) Fp.f_1e_5) as [s | s | | s m e];
      cbn; eauto.
Qed.

(** Nothing that is not negative compares below zero or NaN. *)
Lemma fgt_zero_or_nan (rd tol : Fp.float) :
  Fp.flt tol Fp.fzero = false ->
  rd = S754_nan \/ (exists s, rd = S754_zero s) ->
  Fp.fgt rd tol = false.
Proof.
  unfold Fp.flt, Fp.fgt, Fp.fzero, SFltb. intros Htol [-> | [s ->]].
  - destruct tol; reflexivity.
  - destruct tol as [s' | s' | | s' m e]; cbn in *;
      try reflexivity; try destruct s'; try discriminate; reflexivity.
Qed.

(** X9.  [verify_results] of any result against itself, under any
    tolerance that is not negative, prints the pass line and returns true;
    this includes results that hold NaN or infinities. *)
Theorem verify_results_reflexive (m : matrix) (tol : Fp.float) :
  wf_matrix m ->
  Fp.flt tol Fp.fzero = false ->
  verify_results m m tol = inr (true, verification_passed).
Proof.
  intros Hwf Htol.
  destruct (verify_results_decides m m tol Hwf Hwf (le_n _) (le_n _))
    as [[Hpass _] | (i & j & _ & _ & Hgt & _)]; [exact Hpass |].
  unfold cell_rel in Hgt.
  rewrite (fgt_zero_or_nan _ tol Htol (rel_diff_self _)) in Hgt.
  discriminate.
Qed.

Lemma verify_results_reflexive_witness :
  verify_results nan_gpu_result nan_gpu_result Fp.f_5e_2
  = inr (true, verification_passed).
Proof.
  apply (verify_results_reflexive nan_gpu_result Fp.f_5e_2); reflexivity.
Defined.

(* ===================================================================== *)
(** ** The CPU reference: what it does to C *)
(* ===================================================================== *)

(** Every buffer position is the position of an element. *)
Lemma get_index_onto (A : matrix) (idx : nat) :
  idx < m_rows A * m_cols A ->
  exists r c, r < m_rows A /\ c < m_cols A /\ get_index A r c = idx.
Proof.
  intros H. unfold get_index. destruct (m_layout A).
  - assert (0 < m_cols A) by nia.
    pose proof (Nat.div_mod_eq idx (m_cols A)).
    pose proof (Nat.mod_upper_bound idx (m_cols A) ltac:(lia)).
    exists (idx / m_cols A), (idx mod m_cols A).
    split; [apply Nat.Div0.div_lt_upper_bound; lia |]. split; lia.
  - assert (0 < m_rows A) by nia.
    pose proof (Nat.div_mod_eq idx (m_rows A)).
    pose proof (Nat.mod_upper_bound idx (m_rows A) ltac:(lia)).
    exists (idx mod m_rows A), (idx / m_rows A).
    split; [lia |].
    split; [apply Nat.Div0.div_lt_upper_bound; lia | lia].
Qed.

(** Two well-formed matrices with the same tag, shape and elements are the
    same matrix. *)
Lemma matrix_ext (A A' : matrix) :
  wf_matrix A -> wf_matrix A' ->
  m_layout A = m_layout A' -> m_rows A = m_rows A' -> m_cols A = m_cols A' ->
  (forall r c, r < m_rows A -> c < m_cols A -> mat_get A r c = mat_get A' r c) ->
  A = A'.
Proof.
  destruct A as [L R C d], A' as [L' R' C' d']. unfold wf_matrix.
  cbn [m_layout m_rows m_cols m_data]. intros Hw Hw' <- <- <- Hget.
  f_equal. apply list_eq. intros idx.
  destruct (decide (idx < R * C)) as [Hlt | Hge].
  - destruct (get_index_onto (mk_matrix L R C d) idx Hlt)
      as (r & c & Hr & Hc & Hidx).
    cbn [m_rows m_cols] in Hr, Hc.
    specialize (Hget r c Hr Hc).
    rewrite !mat_get_in_range in Hget by assumption.
    injection Hget as Hget. unfold mat_at in Hget.
    change (get_index (mk_matrix L R C d') r c)
      with (get_index (mk_matrix L R C d) r c) in Hget.
    rewrite Hidx in Hget. cbn [m_data] in Hget.
    destruct (lookup_lt_is_Some_2 d idx ltac:(lia)) as [v Hv].
    destruct (lookup_lt_is_Some_2 d' idx ltac:(lia)) as [v' Hv'].
    rewrite Hv, Hv' in *. cbn in Hget. congruence.
  - rewrite !lookup_ge_None_2 by lia. reflexivity.
Qed.



(** X11.  [hgemm_cpu] with an empty inner dimension (A has no columns):
    no element of A or B is read, the call returns and every element of C
    is +0. *)
Theorem hgemm_cpu_empty_inner (C A B : matrix) :
  wf_matrix C -> m_cols A = 0 ->
  exists C',
    hgemm_cpu C A B = inr C' /\
    m_layout C' = m_layout C /\ m_rows C' = m_rows C /\
    m_cols C' = m_cols C /\
    forall i j, i < m_rows C -> j < m_cols C ->
      mat_get C' i j = inr Fp.hzero.
Proof.
  intros HC HK.
  set (Z0 := mk_matrix (m_layout A) (m_rows C) 0 []).
  set (Z1 := mk_matrix (m_layout B) 0 (m_cols C) []).
  assert (E : hgemm_cpu C A B = hgemm_cpu C Z0 Z1).
  { unfold hgemm_cpu. apply for_loop_ext. intros i C1 _.
    apply for_loop_ext. intros j C2 _.
    unfold hgemm_cpu_acc. rewrite HK. reflexivity. }
  rewrite E.
  assert (W0 : wf_matrix Z0) by (unfold wf_matrix; cbn; lia).
  assert (W1 : wf_matrix Z1) by reflexivity.
  destruct (hgemm_cpu_run C Z0 Z1 HC W0 W1 (le_n _) (le_n _) (le_n _))
    as (C' & Hrun & L & R & Cl & W & G).
  exists C'. split; [exact Hrun |]. split; [exact L |].
  split; [exact R |]. split; [exact Cl |]. exact G.
Qed.

Lemma hgemm_cpu_empty_inner_witness :
  exists C',
    hgemm_cpu ex_C (mk_matrix row_major 2 0 []) ex_B = inr C' /\
    m_layout C' = m_layout ex_C /\ m_rows C' = m_rows ex_C /\
    m_cols C' = m_cols ex_C /\
    forall i j, i < m_rows ex_C -> j < m_cols ex_C ->
      mat_get C' i j = inr Fp.hzero.
Proof.
  apply (hgemm_cpu_empty_inner ex_C (mk_matrix row_major 2 0 []) ex_B);
    reflexivity.
Defined.

(* ===================================================================== *)
(** ** Epilogue of wmma_opt_2 *)
(* ===================================================================== *)

Lemma o2_constants :
  o2_rows_per_chunk = 128 /\
  strided 0 (block_m config_o2) o2_rows_per_chunk = [0; 128] /\
  block_m config_o2 = 256 /\ block_n config_o2 = 256 /\
  vector_width config_o2 = 16 /\ warps_n config_o2 = 4 /\
  warp_tile_m config_o2 = 4 /\ warp_tile_n config_o2 = 4 /\
  128 * 256 <= lds_mem_elems wmma_opt_2.
Proof.
  repeat split; [by_running .. | apply Nat.leb_le; by_running].
Qed.

Lemma apply_stores_length (sts : list store) (mem : list Fp.half) :
  length (apply_stores sts mem) = length mem.
Proof.
  unfold apply_stores. revert mem.
  induction sts as [|st sts IH]; intros mem; [reflexivity |].
  cbn [fold_left]. rewrite IH. apply length_insert.
Qed.

(** Stores that agree on the value for a position leave that value there. *)
Lemma apply_stores_same (sts : list store) (mem : list Fp.half)
    (p : nat) (v : Fp.half) :
  p < length mem ->
  (exists st, In st sts /\ fst st = p) ->
  (forall st, In st sts -> fst st = p -> snd st = v) ->
  apply_stores sts mem !! p = Some v.
Proof.
  intros Hp. induction sts as [|st sts IH] using rev_ind;
    intros (st0 & Hin & Hst0) Hall; [contradiction |].
  unfold apply_stores. rewrite fold_left_app. cbn [fold_left].
  fold (apply_stores sts mem).
  destruct (decide (fst st = p)) as [E | Hne].
  - rewrite E, list_lookup_insert_eq by (rewrite apply_stores_length; exact Hp).
    f_equal. apply Hall; [apply in_or_app; right; left; reflexivity | exact E].
  - rewrite list_lookup_insert_ne by exact Hne.
    apply IH.
    + apply in_app_or in Hin as [Hin | [<- | []]];
        [exists st0; split; assumption | contradiction].
    + intros st' Hin' E'. apply Hall; [apply in_or_app; left |]; assumption.
Qed.

(** The stores of step 1 of one thread, by warp tile and iteration. *)
Lemma o2_stage_c_In (c_frags : nat -> nat -> list Fp.half)
    (tid row_start row_end : nat) (st : store) :
  tid < 512 ->
  In st (o2_stage_c c_frags tid row_start row_end) <->
  exists wr wc hw hl wm wn i,
    wr < 4 /\ wc < 4 /\ hw < 2 /\ hl < 16 /\ wm < 4 /\ wn < 4 /\ i < 8 /\
    tid = 32 * (4 * wr + wc) + 16 * hw + hl /\
    row_start <= wr * 64 + wm * 16 < row_end /\
    st = ((wr * 64 + wm * 16 - row_start + i * 2 + hw) * 256
          + (wc * 64 + wn * 16 + hl),
          nth (i * 2) (c_frags wm wn) Fp.hzero).
Proof.
  intros Ht. unfold o2_stage_c.
  destruct o2_constants as (_ & _ & _ & -> & _ & -> & -> & -> & _).
  change (wmma_tile / 2) with 8. change (warp_size / 2) with 16.
  change warp_size with 32. change wmma_tile with 16. cbv zeta.
  destruct (tiled_thread_split tid Ht)
    as (wr & wc & hw & hl & Hwr & Hwc & Hhw & Hhl & Etid & E1 & E2 & E3 & E4).
  rewrite E1, E2, E3, E4. rewrite in_flat_map. split.
  - intros (wm & Hwm & H). apply in_seq in Hwm.
    destruct ((wr * 4 * 16 + wm * 16 <? row_start)
              || (row_end <=? wr * 4 * 16 + wm * 16)) eqn:E; [contradiction |].
    apply orb_false_iff in E as [Ea Eb].
    apply Nat.ltb_ge in Ea. apply Nat.leb_gt in Eb.
    rewrite in_flat_map in H. destruct H as (wn & Hwn & H). apply in_seq in Hwn.
    rewrite in_map_iff in H. destruct H as (i & <- & Hi). apply in_seq in Hi.
    exists wr, wc, hw, hl, wm, wn, i. repeat split; try lia.
    f_equal. f_equal; lia.
  - intros (wr' & wc' & hw' & hl' & wm & wn & i & Hwr' & Hwc' & Hhw' & Hhl'
            & Hwm & Hwn & Hi & Etid' & Hrow & ->).
    assert (wr' = wr /\ wc' = wc /\ hw' = hw /\ hl' = hl)
      as (-> & -> & -> & ->) by lia.
    exists wm. split; [apply in_seq; lia |].
    replace ((wr * 4 * 16 + wm * 16 <? row_start)
             || (row_end <=? wr * 4 * 16 + wm * 16)) with false.
    2:{ symmetry. apply orb_false_iff.
        split; [apply Nat.ltb_ge | apply Nat.leb_gt]; lia. }
    apply in_flat_map. exists wn. split; [apply in_seq; lia |].
    apply in_map_iff. exists i. split; [| apply in_seq; lia].
    f_equal. f_equal; lia.
Qed.

(** The writes of step 2 of one thread, by vector and position in it. *)
Lemma o2_write_c_In (c_tile : list Fp.half)
    (M N block_row block_col tid num_threads row_start chunk_height : nat)
    (st : store) :
  In st (o2_write_c c_tile M N block_row block_col tid num_threads
           row_start chunk_height) <->
  exists i v,
    In i (strided (tid * 16) (chunk_height * 256) (num_threads * 16)) /\
    v < 16 /\
    block_row + row_start + i / 256 < M /\
    block_col + i mod 256 + v < N /\
    st = ((block_row + row_start + i / 256) * N
          + (block_col + i mod 256 + v),
          nth (i / 256 * 256 + i mod 256 + v) c_tile Fp.hzero).
Proof.
  unfold o2_write_c.
  destruct o2_constants as (_ & _ & _ & -> & -> & _). cbv zeta.
  rewrite in_flat_map. split.
  - intros (i & Hi & H). exists i.
    destruct (block_row + row_start + i / 256 <? M) eqn:Er;
      [apply Nat.ltb_lt in Er | rewrite andb_false_l in H; contradiction].
    destruct (block_col + i mod 256 + 16 - 1 <? N) eqn:Ec;
      cbn [andb] in H.
    + apply Nat.ltb_lt in Ec. apply in_map_iff in H as (v & <- & Hv).
      apply in_seq in Hv. exists v. repeat split; try assumption; try lia.
      f_equal. lia.
    + apply in_flat_map in H as (v & Hv & H). apply in_seq in Hv.
      destruct (block_col + i mod 256 + v <? N) eqn:Ev; [| contradiction].
      apply Nat.ltb_lt in Ev. destruct H as [<- | []].
      exists v. repeat split; try assumption; try lia.
      f_equal. lia.
  - intros (i & v & Hi & Hv & Hr & Hc & ->). exists i. split; [exact Hi |].
    apply Nat.ltb_lt in Hr. rewrite Hr.
    destruct (block_col + i mod 256 + 16 - 1 <? N) eqn:Ec; cbn [andb].
    + apply in_map_iff. exists v. split; [| apply in_seq; lia].
      f_equal. lia.
    + apply in_flat_map. exists v. split; [apply in_seq; lia |].
      apply Nat.ltb_lt in Hc. rewrite Hc. left. f_equal. lia.
Qed.

(** Row and column of the block tile, by warp, warp tile and lane. *)
Lemma o2_row_split (gr : nat) :
  gr < 256 ->
  exists wr wm i hw,
    wr < 4 /\ wm < 4 /\ i < 8 /\ hw < 2 /\
    gr = wr * 64 + wm * 16 + i * 2 + hw /\
    gr / 64 = wr /\ gr mod 64 / 16 = wm /\ gr mod 16 / 2 = i /\ gr mod 2 = hw.
Proof.
  intros H.
  pose proof (Nat.div_mod_eq gr 64). pose proof (Nat.mod_upper_bound gr 64 ltac:(lia)).
  pose proof (Nat.div_mod_eq (gr mod 64) 16).
  pose proof (Nat.mod_upper_bound (gr mod 64) 16 ltac:(lia)).
  pose proof (Nat.div_mod_eq gr 16). pose proof (Nat.mod_upper_bound gr 16 ltac:(lia)).
  pose proof (Nat.div_mod_eq (gr mod 16) 2).
  pose proof (Nat.mod_upper_bound (gr mod 16) 2 ltac:(lia)).
  pose proof (Nat.div_mod_eq gr 2). pose proof (Nat.mod_upper_bound gr 2 ltac:(lia)).
  exists (gr / 64), (gr mod 64 / 16), (gr mod 16 / 2), (gr mod 2).
  repeat split; lia.
Qed.

Lemma o2_col_split (lc : nat) :
  lc < 256 ->
  exists wc wn hl,
    wc < 4 /\ wn < 4 /\ hl < 16 /\ lc = wc * 64 + wn * 16 + hl /\
    lc / 64 = wc /\ lc mod 64 / 16 = wn /\ lc mod 16 = hl.
Proof.
  intros H.
  pose proof (Nat.div_mod_eq lc 64). pose proof (Nat.mod_upper_bound lc 64 ltac:(lia)).
  pose proof (Nat.div_mod_eq (lc mod 64) 16).
  pose proof (Nat.mod_upper_bound (lc mod 64) 16 ltac:(lia)).
  pose proof (Nat.div_mod_eq lc 16). pose proof (Nat.mod_upper_bound lc 16 ltac:(lia)).
  exists (lc / 64), (lc mod 64 / 16), (lc mod 16).
  repeat split; lia.
Qed.

(** After step 1 of all 512 threads, row [lr] and column [lc] of the chunk
    hold the accumulator entry of the block tile at row row_start + lr. *)
Lemma o2_c_tile_content (c_frags : nat -> nat -> nat -> list Fp.half)
    (row_start lr lc : nat) (lds_mem : list Fp.half) :
  row_start = 0 \/ row_start = 128 ->
  lr < 128 -> lc < 256 ->
  128 * 256 <= length lds_mem ->
  apply_stores
    (flat_map
       (fun tid =>
          o2_stage_c (c_frags tid) tid row_start
            (Nat.min (row_start + o2_rows_per_chunk) (block_m config_o2)))
       (seq 0 512))
    lds_mem !! (lr * 256 + lc)
  = Some (o2_owner_value c_frags (row_start + lr) lc).
Proof.
  intros Hrs Hlr Hlc Hlen.
  destruct o2_constants as (-> & _ & -> & _).
  destruct (o2_row_split (row_start + lr) ltac:(lia))
    as (wr & wm & i & hw & Hwr & Hwm & Hi & Hhw & Egr & D1 & D2 & D3 & D4).
  destruct (o2_col_split lc Hlc)
    as (wc & wn & hl & Hwc & Hwn & Hhl & Elc & D5 & D6 & D7).
  assert (Eval : o2_owner_value c_frags (row_start + lr) lc
                 = nth (i * 2)
                       (c_frags (32 * (4 * wr + wc) + 16 * hw + hl) wm wn)
                       Fp.hzero).
  { unfold o2_owner_value. cbv zeta. rewrite D1, D2, D3, D4, D5, D6, D7.
    reflexivity. }
  rewrite Eval.
  apply apply_stores_same.
  - nia.
  - exists (lr * 256 + lc,
            nth (i * 2) (c_frags (32 * (4 * wr + wc) + 16 * hw + hl) wm wn)
                Fp.hzero).
    split; [| reflexivity]. apply (proj2 (in_flat_map _ _ _)).
    exists (32 * (4 * wr + wc) + 16 * hw + hl).
    split; [apply in_seq; lia |].
    apply (proj2 (o2_stage_c_In _ (32 * (4 * wr + wc) + 16 * hw + hl) _ _ _
                    ltac:(lia))).
    exists wr, wc, hw, hl, wm, wn, i. repeat split; try lia.
    f_equal. lia.
  - intros st Hst Efst.
    destruct (proj1 (in_flat_map _ _ _) Hst) as (tid & Htid & Hst').
    apply in_seq in Htid.
    destruct (proj1 (o2_stage_c_In _ tid _ _ _ ltac:(lia)) Hst') as (wr' & wc' & hw' & hl' & wm' & wn' & i' & Hwr' & Hwc'
                     & Hhw' & Hhl' & Hwm' & Hwn' & Hi' & Etid & Hrow & ->).
    cbn [fst snd] in *.
    apply index_split in Efst as [ER EC]; [| lia ..].
    assert (wr' = wr /\ wm' = wm /\ i' = i /\ hw' = hw)
      as (-> & -> & -> & ->) by lia.
    assert (wc' = wc /\ wn' = wn /\ hl' = hl) as (-> & -> & ->) by lia.
    subst tid. reflexivity.
Qed.

Lemma o2_chunk_fst (c_frags : nat -> nat -> nat -> list Fp.half)
    (M N block_row block_col num_threads row_start : nat)
    (lds_mem : list Fp.half) :
  fst (o2_chunk c_frags M N block_row block_col num_threads row_start lds_mem)
  = apply_stores
      (flat_map
         (fun tid =>
            o2_stage_c (c_frags tid) tid row_start
              (Nat.min (row_start + o2_rows_per_chunk) (block_m config_o2)))
         (seq 0 num_threads))
      lds_mem.
Proof. reflexivity. Qed.

Lemma o2_chunk_snd_In (c_frags : nat -> nat -> nat -> list Fp.half)
    (M N block_row block_col num_threads row_start : nat)
    (lds_mem : list Fp.half) (st : store) :
  In st (snd (o2_chunk c_frags M N block_row block_col num_threads row_start
                lds_mem)) <->
  exists tid,
    tid < num_threads /\
    In st (o2_write_c
             (fst (o2_chunk c_frags M N block_row block_col num_threads
                     row_start lds_mem))
             M N block_row block_col tid num_threads row_start
             (Nat.min (row_start + o2_rows_per_chunk) (block_m config_o2)
              - row_start)).
Proof.
  unfold o2_chunk. cbn [fst snd]. rewrite in_flat_map.
  split; intros (tid & Htid & H); exists tid;
    (split; [| exact H]); [apply in_seq in Htid | apply in_seq]; lia.
Qed.

Lemma o2_epilogue_chunks (c_frags : nat -> nat -> nat -> list Fp.half)
    (M N block_row block_col num_threads : nat) (lds_mem : list Fp.half) :
  o2_epilogue c_frags M N block_row block_col num_threads lds_mem
  = snd (o2_chunk c_frags M N block_row block_col num_threads 0 lds_mem)
    ++ snd (o2_chunk c_frags M N block_row block_col num_threads 128
              (fst (o2_chunk c_frags M N block_row block_col num_threads 0
                      lds_mem))).
Proof.
  unfold o2_epilogue.
  destruct o2_constants as (_ & -> & _).
  cbn [fold_left]. unfold o2_chunk. cbn [fst snd app]. reflexivity.
Qed.

(** The writes to C of one chunk, by position in the chunk. *)
Lemma o2_chunk_In (c_frags : nat -> nat -> nat -> list Fp.half)
    (M N block_row block_col row_start : nat) (lds_mem : list Fp.half)
    (st : store) :
  row_start = 0 \/ row_start = 128 ->
  128 * 256 <= length lds_mem ->
  In st (snd (o2_chunk c_frags M N block_row block_col 512 row_start
                lds_mem)) <->
  exists lr lc,
    lr < 128 /\ lc < 256 /\
    block_row + row_start + lr < M /\ block_col + lc < N /\
    st = ((block_row + row_start + lr) * N + (block_col + lc),
          o2_owner_value c_frags (row_start + lr) lc).
Proof.
  intros Hrs Hlen.
  assert (Hch : Nat.min (row_start + o2_rows_per_chunk) (block_m config_o2)
                - row_start = 128).
  { destruct o2_constants as (-> & _ & -> & _). lia. }
  assert (Hval : forall i v, i mod 16 = 0 -> i < 128 * 256 -> v < 16 ->
            i / 256 < 128 /\ i mod 256 + v < 256 /\
            nth (i / 256 * 256 + i mod 256 + v)
                (fst (o2_chunk c_frags M N block_row block_col 512 row_start
                        lds_mem)) Fp.hzero
            = o2_owner_value c_frags (row_start + i / 256) (i mod 256 + v)).
  { intros i v Hmod Hi Hv.
    pose proof (Nat.div_mod_eq i 256) as E1.
    pose proof (Nat.mod_upper_bound i 256 ltac:(lia)) as B1.
    pose proof (Nat.div_mod_eq i 16) as E2. rewrite Hmod in E2.
    pose proof (Nat.div_mod_eq (i mod 256) 16) as E3.
    pose proof (Nat.mod_upper_bound (i mod 256) 16 ltac:(lia)) as B3.
    assert (Hr : i / 256 < 128) by (apply Nat.Div0.div_lt_upper_bound; lia).
    assert (Hc : i mod 256 + v < 256) by lia.
    split; [exact Hr |]. split; [exact Hc |].
    rewrite nth_lookup, <- Nat.add_assoc, o2_chunk_fst.
    rewrite o2_c_tile_content by assumption. reflexivity. }
  split.
  - intros H. destruct (proj1 (o2_chunk_snd_In _ _ _ _ _ _ _ _ _) H)
      as (tid & Htid & H1).
    rewrite Hch in H1.
    destruct (proj1 (o2_write_c_In _ _ _ _ _ _ _ _ _ _) H1)
      as (i & v & Hi & Hv & Hr & Hc & ->).
    destruct (proj1 (strided_In (tid * 16) (128 * 256) (512 * 16) i
                       ltac:(lia)) Hi) as (t & Ei & Hi').
    assert (Hmod : i mod 16 = 0).
    { rewrite Ei. replace (tid * 16 + t * (512 * 16))
        with ((tid + t * 512) * 16) by lia. apply Nat.Div0.mod_mul. }
    destruct (Hval i v Hmod Hi' Hv) as (Hlr & Hlc & ->).
    exists (i / 256), (i mod 256 + v).
    repeat split; try assumption; try lia.
    f_equal. f_equal. lia.
  - intros (lr & lc & Hlr & Hlc & Hr & Hc & ->).
    pose proof (Nat.div_mod_eq lc 16) as E1.
    pose proof (Nat.mod_upper_bound lc 16 ltac:(lia)) as B1.
    set (i := lr * 256 + 16 * (lc / 16)).
    assert (Ei1 : i / 256 = lr)
      by (symmetry; apply (Nat.div_unique _ _ _ (16 * (lc / 16))); lia).
    assert (Ei2 : i mod 256 = 16 * (lc / 16))
      by (symmetry; apply (Nat.mod_unique _ _ lr); lia).
    assert (Hmod : i mod 16 = 0).
    { unfold i. replace (lr * 256 + 16 * (lc / 16))
        with ((lr * 16 + lc / 16) * 16) by lia. apply Nat.Div0.mod_mul. }
    assert (Hi : i < 128 * 256) by lia.
    pose proof (proj2 (all_chunks_In 16 ltac:(lia) (128 * 256) 512
                         ltac:(lia) i) (conj Hmod Hi)) as Hin.
    destruct (proj1 (in_flat_map _ _ _) Hin) as (tid & Htid & Hin').
    apply (proj2 (o2_chunk_snd_In _ _ _ _ _ _ _ _ _)).
    exists tid. split; [apply in_seq in Htid; lia |].
    rewrite Hch.
    apply (proj2 (o2_write_c_In _ _ _ _ _ _ _ _ _ _)).
    exists i, (lc mod 16).
    destruct (Hval i (lc mod 16) Hmod Hi B1) as (_ & _ & Hv).
    rewrite Hv, Ei1, Ei2.
    repeat split; try assumption; try lia.
    f_equal; [f_equal; lia | f_equal; lia].
Qed.



Lemma o2_epilogue_In (c_frags : nat -> nat -> nat -> list Fp.half)
    (M N block_row block_col : nat) (lds_mem : list Fp.half) (st : store) :
  lds_mem_elems wmma_opt_2 <= length lds_mem ->
  In st (o2_epilogue c_frags M N block_row block_col 512 lds_mem) <->
  exists lr lc,
    lr < 256 /\ lc < 256 /\ block_row + lr < M /\ block_col + lc < N /\
    st = ((block_row + lr) * N + (block_col + lc),
          o2_owner_value c_frags lr lc).
Proof.
  intros Hlen.
  destruct o2_constants as (_ & _ & _ & _ & _ & _ & _ & _ & Hlds).
  rewrite o2_epilogue_chunks, in_app_iff.
  rewrite (o2_chunk_In c_frags M N block_row block_col 0 lds_mem st)
    by (lia || (left; reflexivity)).
  rewrite (o2_chunk_In c_frags M N block_row block_col 128 _ st).
  2:{ right; reflexivity. }
  2:{ unfold o2_chunk. cbn [fst]. rewrite apply_stores_length. lia. }
  split.
  - intros [(lr & lc & Hlr & Hlc & Hr & Hc & ->)
           | (lr & lc & Hlr & Hlc & Hr & Hc & ->)].
    + exists lr, lc. repeat split; try lia.
      rewrite Nat.add_0_r. reflexivity.
    + exists (128 + lr), lc. repeat split; try lia.
      replace (block_row + (128 + lr)) with (block_row + 128 + lr) by lia.
      reflexivity.
  - intros (lr & lc & Hlr & Hlc & Hr & Hc & ->).
    destruct (decide (lr < 128)) as [Hlow | Hhigh].
    + left. exists lr, lc. repeat split; try lia.
      rewrite Nat.add_0_r. reflexivity.
    + right. exists (lr - 128), lc. repeat split; try lia.
      replace (block_row + 128 + (lr - 128)) with (block_row + lr) by lia.
      replace (128 + (lr - 128)) with lr by lia. reflexivity.
Qed.



(* ===================================================================== *)
(** ** The compute step reads the tiles only *)
(* ===================================================================== *)

Lemma strided_tile_steps (block_k k_offset : nat) :
  block_k mod 16 = 0 ->
  In k_offset (strided 0 block_k 16) -> k_offset + 16 <= block_k.
Proof.
  intros Hk Hin.
  destruct (proj1 (strided_In 0 block_k 16 k_offset ltac:(lia)) Hin)
    as (t & -> & Hlt).
  pose proof (Nat.div_mod_eq block_k 16) as E. rewrite Hk in E. lia.
Qed.

(** X14.  The compute step of wmma_shared_warp_buf_vec (the same loops
    serve wmma_prefetch), for a warp of the block: every fragment element
    is read from inside the A tile or the B tile, so two staging buffers
    that agree on the tiles give the same accumulators, whatever lies
    behind the tiles in shared memory. *)
Theorem wbv_compute_reads_tiles (cfg : wmma_config) (t t' : tiles)
    (warp_id : nat) (acc : warp_acc) :
  0 < warps_n cfg ->
  warp_id < warps_m cfg * warps_n cfg ->
  block_m cfg = warps_m cfg * warp_tile_m cfg * wmma_tile ->
  block_n cfg = warps_n cfg * warp_tile_n cfg * wmma_tile ->
  lds_stride_A cfg = block_m cfg ->
  lds_stride_B cfg = block_n cfg ->
  block_k cfg mod 16 = 0 ->
  (forall j, j < block_m cfg * block_k cfg ->
     nth j (a_tile t) Fp.hzero = nth j (a_tile t') Fp.hzero) ->
  (forall j, j < block_k cfg * block_n cfg ->
     nth j (b_tile t) Fp.hzero = nth j (b_tile t') Fp.hzero) ->
  wbv_compute cfg t warp_id acc = wbv_compute cfg t' warp_id acc.
Proof.
  intros Hwn Hw Hbm Hbn HsA HsB Hk HA HB.
  assert (Hrow : warp_id / warps_n cfg < warps_m cfg)
    by (apply Nat.Div0.div_lt_upper_bound; lia).
  assert (Hcol : warp_id mod warps_n cfg < warps_n cfg)
    by (apply Nat.mod_upper_bound; lia).
  unfold wbv_compute. cbv zeta.
  set (ks := strided 0 (block_k cfg) wmma_tile).
  assert (Hks : forall k, In k ks -> k + 16 <= block_k cfg)
    by (intros k; apply strided_tile_steps; exact Hk).
  clearbody ks. revert acc.
  induction ks as [|k ks IH]; intros acc; [reflexivity |].
  cbn [fold_left].
  assert (Hk16 : k + 16 <= block_k cfg) by (apply Hks; left; reflexivity).
  assert (Ea : forall wm lane, wm < warp_tile_m cfg ->
            wbv_a_frag cfg (a_tile t) k
              (warp_id / warps_n cfg * warp_tile_m cfg * wmma_tile) wm lane
            = wbv_a_frag cfg (a_tile t') k
                (warp_id / warps_n cfg * warp_tile_m cfg * wmma_tile) wm lane).
  { intros wm lane Hwm. unfold wbv_a_frag. cbv zeta.
    apply map_ext_in. intros i Hi. apply in_seq in Hi. apply HA.
    rewrite HsA, Hbm. change (warp_size / 2) with 16.
    change wmma_tile with 16 in *.
    pose proof (Nat.mod_upper_bound lane 16 ltac:(lia)). nia. }
  assert (Eb : forall wn lane, wn < warp_tile_n cfg ->
            wbv_b_frag cfg (b_tile t) k
              (warp_id mod warps_n cfg * warp_tile_n cfg * wmma_tile) wn lane
            = wbv_b_frag cfg (b_tile t') k
                (warp_id mod warps_n cfg * warp_tile_n cfg * wmma_tile) wn lane).
  { intros wn lane Hwn'. unfold wbv_b_frag. cbv zeta.
    apply map_ext_in. intros i Hi. apply in_seq in Hi. apply HB.
    rewrite HsB, Hbn. change (warp_size / 2) with 16.
    change wmma_tile with 16 in *.
    pose proof (Nat.mod_upper_bound lane 16 ltac:(lia)). nia. }
  rewrite <- IH by (intros k' Hk'; apply Hks; right; exact Hk').
  f_equal.
  apply map_ext_in. intros wm Hwm. apply in_seq in Hwm.
  apply map_ext_in. intros wn Hwn'. apply in_seq in Hwn'.
  f_equal.
  - f_equal.
    + apply map_ext. intros lane. apply Ea. lia.
    + apply map_ext. intros lane. apply Eb. lia.
Qed.

Lemma wbv_compute_reads_tiles_witness :
  wbv_compute config_wbv stale_lds 5 (warp_acc_zero config_wbv)
  = wbv_compute config_wbv stale_lds_longer 5 (warp_acc_zero config_wbv).
Proof.
  apply (wbv_compute_reads_tiles config_wbv stale_lds stale_lds_longer 5
           (warp_acc_zero config_wbv));
    lazymatch goal with
    | |- _ < _ => apply Nat.ltb_lt; by_running
    | |- forall j, _ =>
        intros j Hj; unfold stale_lds_longer; cbn [a_tile b_tile];
        symmetry; apply app_nth1;
        match goal with
        | |- _ < length ?l =>
            replace (length l) with (256 * 32) by by_running
        end;
        revert Hj;
        match goal with
        | |- _ < ?n -> _ => replace n with (256 * 32) by by_running
        end;
        exact (fun H => H)
    | |- _ => by_running
    end.
Defined.

(* ===================================================================== *)
(** ** wmma_prefetch away from the edges *)
(* ===================================================================== *)

Lemma strided_single (start bound step : nat) :
  start < bound -> bound <= start + step ->
  strided start bound step = [start].
Proof.
  intros H1 H2. unfold strided.
  replace (start <? bound) with true by (symmetry; apply Nat.ltb_lt; exact H1).
  replace ((bound - start + step - 1) / step) with 1.
  - cbn [seq map]. rewrite Nat.mul_0_l, Nat.add_0_r. reflexivity.
  - apply (Nat.div_unique _ _ _ (bound - start - 1)); lia.
Qed.

(** A thread of the first half of the block owns one chunk of the A tile. *)
Lemma pf_chunks_single (cid : nat) :
  cid < 256 ->
  chunks_of config_p (block_m config_p * block_k config_p) cid
    (warp_size * total_warps config_p / 2) = [cid * 16] /\
  chunks_of config_p (block_k config_p * block_n config_p) cid
    (warp_size * total_warps config_p / 2) = [cid * 16].
Proof.
  intros H. unfold chunks_of.
  change (vector_width config_p) with 16.
  change (block_m config_p * block_k config_p) with (256 * 16).
  change (block_k config_p * block_n config_p) with (256 * 16).
  change (warp_size * total_warps config_p / 2) with 256.
  split; apply strided_single; lia.
Qed.

(** Register load and store of one chunk whose rows and K indices all lie
    inside A: [k_guard] is the K index the test uses, [k_base] the one the
    load reads at. *)
Lemma pf_chunk_interior (A : list Fp.half)
    (M K block_row k_guard k_base cid : nat)
    (regs : list (list Fp.half)) (tile : list Fp.half) :
  length A = M * K ->
  block_row + 256 <= M -> k_guard + 16 <= K -> k_base + 16 <= K ->
  cid < 256 -> 0 < length regs -> cid * 16 + 16 <= length tile ->
  exists regs',
    pf_load_a_regs config_p A M K block_row k_guard (block_row + k_base * M)
      cid (warp_size * total_warps config_p / 2) regs = inr regs' /\
    length (pf_store_a_regs config_p cid
              (warp_size * total_warps config_p / 2) regs' tile)
    = length tile /\
    (forall v, v < 16 ->
       pf_store_a_regs config_p cid (warp_size * total_warps config_p / 2)
         regs' tile !! (cid * 16 + v)
       = Some (tile_a_value config_p A M K block_row k_base (cid * 16 + v))) /\
    (forall j, j < cid * 16 \/ cid * 16 + 16 <= j ->
       pf_store_a_regs config_p cid (warp_size * total_warps config_p / 2)
         regs' tile !! j = tile !! j).
Proof.
  intros HA HM Hg Hb Hcid Hregs Htile.
  destruct (pf_chunks_single cid Hcid) as [E1 E2].
  unfold pf_load_a_regs, pf_store_a_regs. rewrite E1, E2.
  cbn [fold_left bind ret].
  change (vector_width config_p) with 16.
  change (block_m config_p) with 256.
  change (lds_stride_A config_p) with 256.
  change (warp_size * total_warps config_p / 2) with 256.
  pose proof (Nat.div_mod_eq (cid * 16) 256) as D.
  pose proof (Nat.mod_upper_bound (cid * 16) 256 ltac:(lia)) as B.
  assert (Hcol : cid * 16 / 256 < 16)
    by (apply Nat.Div0.div_lt_upper_bound; lia).
  assert (Hrow : (cid * 16) mod 256 + 16 <= 256).
  { destruct (chunk_in_column 256 16 (cid * 16) 15 ltac:(lia) eq_refl
                ltac:(apply Nat.Div0.mod_mul) ltac:(lia)) as [_ Em].
    pose proof (Nat.mod_upper_bound (cid * 16 + 15) 256 ltac:(lia)). lia. }
  set (col := cid * 16 / 256) in *. set (row := (cid * 16) mod 256) in *.
  replace ((block_row + row + 16 - 1 <? M) && (k_guard + col <? K)) with true.
  2:{ symmetry. apply andb_true_iff. split; apply Nat.ltb_lt; lia. }
  assert (Hsrc : block_row + k_base * M + col * M + row + 16 <= length A).
  { rewrite HA. nia. }
  unfold load_vec.
  replace (block_row + k_base * M + col * M + row + 16 <=? length A) with true
    by (symmetry; apply Nat.leb_le; exact Hsrc).
  cbn [bind ret].
  replace (cid * 16 / 16 / 256) with 0.
  2:{ rewrite Nat.div_mul by lia. symmetry. apply Nat.div_small. exact Hcid. }
  eexists. split; [reflexivity |].
  destruct regs as [|r0 regs]; [cbn in Hregs; lia |].
  cbn [insert list_insert nth].
  replace (col * 256 + row) with (cid * 16) by lia.
  set (vec := take 16 (drop (block_row + k_base * M + col * M + row) A)).
  assert (Hvec : length vec = 16)
    by (unfold vec; rewrite length_take, length_drop; lia).
  split; [apply length_inserts |]. split.
  - intros v Hv. rewrite list_lookup_inserts by lia.
    replace (cid * 16 + v - cid * 16) with v by lia.
    unfold vec. rewrite lookup_take_lt, lookup_drop by lia.
    unfold tile_a_value. cbv zeta. change (block_m config_p) with 256.
    destruct (chunk_in_column 256 16 (cid * 16) v ltac:(lia) eq_refl
                ltac:(apply Nat.Div0.mod_mul) Hv) as [-> ->].
    fold col row.
    replace ((block_row + (row + v) <? M) && (k_base + col <? K)) with true.
    2:{ symmetry. apply andb_true_iff. split; apply Nat.ltb_lt; lia. }
    rewrite Nat.add_assoc.
    destruct (lookup_lt_is_Some_2 A
                (block_row + k_base * M + col * M + row + v) ltac:(lia))
      as [x ->].
    reflexivity.
  - intros j [Hj | Hj].
    + apply list_lookup_inserts_lt. exact Hj.
    + apply list_lookup_inserts_ge. lia.
Qed.



(* ===================================================================== *)
(** ** wmma_shared: the whole kernel for one thread *)
(* ===================================================================== *)

(** The warp of a launched thread: one of the 32 of the block. *)
Lemma ws_warp_id_lt (tx ty : nat) :
  tx < 256 -> ty < 4 -> ty * (256 / warp_size) + tx / warp_size < 32.
Proof.
  intros Hx Hy. change (256 / warp_size) with 8. change warp_size with 32.
  assert (tx / 32 < 8) by (apply Nat.Div0.div_lt_upper_bound; lia). lia.
Qed.

(** The tests that guard the fragment loads pass for each of the 32
    warps. *)
Lemma ws_frag_guards (warp_id lane : nat) :
  warp_id < 32 ->
  (warp_id mod (block_m config_s / wmma_tile) * wmma_tile
   + lane mod (warp_size / 2) <? block_m config_s) = true /\
  (warp_id / (block_m config_s / wmma_tile) * wmma_tile
   + lane mod (warp_size / 2) <? block_n config_s) = true /\
  (warp_id / (block_m config_s / wmma_tile) * wmma_tile
   <? block_n config_s) = true.
Proof.
  intros Hw.
  change (block_m config_s / wmma_tile) with 8.
  change (block_m config_s) with 128. change (block_n config_s) with 64.
  change wmma_tile with 16. change (warp_size / 2) with 16.
  pose proof (Nat.mod_upper_bound warp_id 8 ltac:(lia)).
  pose proof (Nat.mod_upper_bound lane 16 ltac:(lia)).
  assert (warp_id / 8 < 4) by (apply Nat.Div0.div_lt_upper_bound; lia).
  repeat split; apply Nat.ltb_lt; lia.
Qed.


(* ===================================================================== *)
(** ** wmma_opt_2: fragment loads in the re-ordered loops *)
(* ===================================================================== *)

Lemma nth_map_seq {X : Type} (f : nat -> X) (n j : nat) (d : X) :
  j < n -> nth j (map f (seq 0 n)) d = f j.
Proof.
  intros Hj. rewrite (nth_indep _ d (f 0))
    by (rewrite length_map, length_seq; exact Hj).
  rewrite (map_nth f (seq 0 n) 0 j), seq_nth by exact Hj. reflexivity.
Qed.

Lemma insert_map_seq {X : Type} (g : nat -> X) (len n : nat) (x : X) :
  n < len ->
  <[n := x]> (map g (seq 0 len))
  = map (fun j => if j =? n then x else g j) (seq 0 len).
Proof.
  intros Hn. apply list_eq. intros j.
  destruct (decide (j = n)) as [-> | Hne].
  - rewrite list_lookup_insert_eq
      by (rewrite length_map, length_seq; exact Hn).
    pose proof (lookup_map_seq_app (fun j => if j =? n then x else g j)
                  len n []) as E.
    rewrite app_nil_r in E. rewrite E.
    apply Nat.ltb_lt in Hn. rewrite Hn, Nat.eqb_refl. reflexivity.
  - rewrite list_lookup_insert_ne by (intros E; apply Hne; symmetry; exact E).
    pose proof (lookup_map_seq_app (fun j => if j =? n then x else g j)
                  len j []) as E.
    pose proof (lookup_map_seq_app g len j []) as E'.
    rewrite app_nil_r in E, E'. rewrite E, E'.
    apply Nat.eqb_neq in Hne. rewrite Hne. reflexivity.
Qed.

Lemma fold_left_pair {X Y I : Type} (f : X -> I -> X) (g : Y -> I -> Y)
    (l : list I) (x : X) (y : Y) :
  fold_left (fun '(x, y) i => (f x i, g y i)) l (x, y)
  = (fold_left f l x, fold_left g l y).
Proof.
  revert x y. induction l as [|i l IH]; intros x y; [reflexivity |].
  cbn [fold_left]. apply IH.
Qed.

(** A fragment array is the table of its entries. *)
Lemma frag_array_table (n : nat) (a : list (list Fp.half)) :
  frag_array n a ->
  a = map (fun wm => map (fun i => nth i (nth wm a []) Fp.hzero)
                         (seq 0 wmma_tile))
          (seq 0 n).
Proof.
  intros [Hlen Hall].
  apply (nth_ext _ _ [] []).
  - rewrite length_map, length_seq. exact Hlen.
  - intros wm Hwm. rewrite nth_map_seq by lia.
    assert (Hf : length (nth wm a []) = wmma_tile).
    { apply (proj1 (List.Forall_forall _ a) Hall). apply nth_In. exact Hwm. }
    apply (nth_ext _ _ Fp.hzero Fp.hzero).
    + rewrite length_map, length_seq. exact Hf.
    + intros i Hi. rewrite nth_map_seq by lia. reflexivity.
Qed.

Section FragWalk.

Variable tile : list Fp.half.
Variable W : nat.

(** One walk over the warp tiles for the K position [i], the pointer
    starting at [src]. *)
Lemma frag_walk (i src : nat) (a : list (list Fp.half)) :
  length a = W ->
  fst (fold_left
         (fun '(a, s) wm =>
            (<[wm := <[i := nth s tile Fp.hzero]> (nth wm a [])]> a,
             s + wmma_tile))
         (seq 0 W) (a, src))
  = map (fun wm =>
           <[i := nth (src + wm * wmma_tile) tile Fp.hzero]> (nth wm a []))
        (seq 0 W).
Proof.
  intros Hlen.
  assert (G : forall n, n <= W ->
            fold_left
              (fun '(a, s) wm =>
                 (<[wm := <[i := nth s tile Fp.hzero]> (nth wm a [])]> a,
                  s + wmma_tile))
              (seq 0 n) (a, src)
            = (map (fun wm =>
                      if wm <? n
                      then <[i := nth (src + wm * wmma_tile) tile Fp.hzero]>
                             (nth wm a [])
                      else nth wm a [])
                   (seq 0 W),
               src + n * wmma_tile)).
  { induction n as [|n IH]; intros Hn.
    - cbn [seq fold_left]. f_equal; [| lia].
      apply (nth_ext _ _ [] []).
      + rewrite length_map, length_seq. exact Hlen.
      + intros j Hj. rewrite nth_map_seq by lia. reflexivity.
    - rewrite seq_S, fold_left_app, IH by lia. cbn [fold_left Nat.add].
      f_equal; [| lia].
      rewrite nth_map_seq by lia. rewrite Nat.ltb_irrefl.
      rewrite insert_map_seq by lia.
      apply map_ext. intros j.
      destruct (j =? n) eqn:E.
      + apply Nat.eqb_eq in E. subst j.
        assert ((n <? S n) = true) as -> by (apply Nat.ltb_lt; lia).
        reflexivity.
      + apply Nat.eqb_neq in E.
        destruct (j <? n) eqn:E1.
        * apply Nat.ltb_lt in E1.
          assert ((j <? S n) = true) as -> by (apply Nat.ltb_lt; lia).
          reflexivity.
        * apply Nat.ltb_ge in E1.
          assert ((j <? S n) = false) as -> by (apply Nat.ltb_ge; lia).
          reflexivity. }
  rewrite (G W (le_n W)). cbn [fst].
  apply map_ext_in. intros wm Hwm. apply in_seq in Hwm.
  assert ((wm <? W) = true) as -> by (apply Nat.ltb_lt; lia).
  reflexivity.
Qed.

(** The sixteen walks fill every fragment of the array. *)
Lemma frag_fill (curr stride : nat) (a : list (list Fp.half)) :
  frag_array W a ->
  fold_left
    (fun a i =>
       fst (fold_left
              (fun '(a, s) wm =>
                 (<[wm := <[i := nth s tile Fp.hzero]> (nth wm a [])]> a,
                  s + wmma_tile))
              (seq 0 W) (a, curr + i * stride)))
    (seq 0 wmma_tile) a
  = map (fun wm =>
           map (fun i =>
                  nth (curr + i * stride + wm * wmma_tile) tile Fp.hzero)
               (seq 0 wmma_tile))
        (seq 0 W).
Proof.
  intros Ha.
  assert (G : forall n, n <= wmma_tile ->
            fold_left
              (fun a i =>
                 fst (fold_left
                        (fun '(a, s) wm =>
                           (<[wm := <[i := nth s tile Fp.hzero]>
                                      (nth wm a [])]> a,
                            s + wmma_tile))
                        (seq 0 W) (a, curr + i * stride)))
              (seq 0 n) a
            = map (fun wm =>
                     map (fun i =>
                            if i <? n
                            then nth (curr + i * stride + wm * wmma_tile)
                                   tile Fp.hzero
                            else nth i (nth wm a []) Fp.hzero)
                         (seq 0 wmma_tile))
                  (seq 0 W)).
  { induction n as [|n IH]; intros Hn.
    - cbn [seq fold_left]. apply frag_array_table. exact Ha.
    - rewrite seq_S, fold_left_app, IH by lia. cbn [fold_left Nat.add].
      rewrite frag_walk by (rewrite length_map, length_seq; reflexivity).
      apply map_ext_in. intros wm Hwm. apply in_seq in Hwm.
      rewrite nth_map_seq by lia.
      rewrite insert_map_seq by lia.
      apply map_ext. intros j.
      destruct (j =? n) eqn:E.
      + apply Nat.eqb_eq in E. subst j.
        assert ((n <? S n) = true) as -> by (apply Nat.ltb_lt; lia).
        reflexivity.
      + apply Nat.eqb_neq in E.
        destruct (j <? n) eqn:E1.
        * apply Nat.ltb_lt in E1.
          assert ((j <? S n) = true) as -> by (apply Nat.ltb_lt; lia).
          reflexivity.
        * apply Nat.ltb_ge in E1.
          assert ((j <? S n) = false) as -> by (apply Nat.ltb_ge; lia).
          reflexivity. }
  rewrite (G wmma_tile (le_n _)).
  apply map_ext. intros wm. apply map_ext_in. intros i Hi.
  apply in_seq in Hi.
  assert ((i <? wmma_tile) = true) as -> by (apply Nat.ltb_lt; lia).
  reflexivity.
Qed.

End FragWalk.

(** The re-ordered loops leave in the fragment arrays what the loads of
    one warp tile at a time would. *)
Lemma o2_load_frags_eq (current : tiles)
    (k_offset warp_m_base warp_n_base tid : nat)
    (a_frag b_frag : list (list Fp.half)) :
  frag_array (warp_tile_m config_o2) a_frag ->
  frag_array (warp_tile_n config_o2) b_frag ->
  o2_load_frags current k_offset warp_m_base warp_n_base tid a_frag b_frag
  = (map (fun wm =>
            wbv_a_frag config_o2 (a_tile current) k_offset warp_m_base wm tid)
         (seq 0 (warp_tile_m config_o2)),
     map (fun wn =>
            wbv_b_frag config_o2 (b_tile current) k_offset warp_n_base wn tid)
         (seq 0 (warp_tile_n config_o2))).
Proof.
  intros Ha Hb. unfold o2_load_frags. cbv zeta.
  rewrite (fold_left_pair
             (fun a i =>
                fst (fold_left
                       (fun '(a, s) wm =>
                          (<[wm := <[i := nth s (a_tile current) Fp.hzero]>
                                     (nth wm a [])]> a,
                           s + wmma_tile))
                       (seq 0 (warp_tile_m config_o2))
                       (a, k_offset * lds_stride_A config_o2
                           + (warp_m_base + tid mod (warp_size / 2))
                           + i * lds_stride_A config_o2)))
             (fun b i =>
                fst (fold_left
                       (fun '(b, s) wn =>
                          (<[wn := <[i := nth s (b_tile current) Fp.hzero]>
                                     (nth wn b [])]> b,
                           s + wmma_tile))
                       (seq 0 (warp_tile_n config_o2))
                       (b, k_offset * lds_stride_B config_o2
                           + (warp_n_base + tid mod (warp_size / 2))
                           + i * lds_stride_B config_o2)))).
  rewrite (frag_fill (a_tile current) _ _ _ _ Ha).
  rewrite (frag_fill (b_tile current) _ _ _ _ Hb).
  unfold wbv_a_frag, wbv_b_frag. cbv zeta.
  f_equal; apply map_ext; intros w; apply map_ext; intros i; f_equal; lia.
Qed.

(** X17.  The fragment loads of wmma_opt_2, which walk the warp tiles
    inside the loop over the K positions: whatever the fragment arrays of
    the thread held, afterwards a_frag[wm][i] is the element of the
    current A tile in row warp_m_base + wm * 16 + half_lane and column
    k_offset + i, and b_frag[wn][i] the element of the current B tile in
    row k_offset + i and column warp_n_base + wn * 16 + half_lane; the
    arrays keep their shape. *)
Theorem o2_fragments_exact (current : tiles)
    (k_offset warp_m_base warp_n_base tid : nat)
    (a_frag b_frag : list (list Fp.half)) :
  frag_array (warp_tile_m config_o2) a_frag ->
  frag_array (warp_tile_n config_o2) b_frag ->
  let half_lane := tid mod 16 in
  let loaded :=
    o2_load_frags current k_offset warp_m_base warp_n_base tid
      a_frag b_frag in
  frag_array (warp_tile_m config_o2) (fst loaded) /\
  frag_array (warp_tile_n config_o2) (snd loaded) /\
  (forall wm i, wm < warp_tile_m config_o2 -> i < 16 ->
     nth i (nth wm (fst loaded) []) Fp.hzero
     = nth ((k_offset + i) * lds_stride_A config_o2
            + (warp_m_base + wm * 16 + half_lane))
         (a_tile current) Fp.hzero) /\
  (forall wn i, wn < warp_tile_n config_o2 -> i < 16 ->
     nth i (nth wn (snd loaded) []) Fp.hzero
     = nth ((k_offset + i) * lds_stride_B config_o2
            + (warp_n_base + wn * 16 + half_lane))
         (b_tile current) Fp.hzero).
Proof.
  intros Ha Hb half_lane loaded. subst loaded.
  rewrite o2_load_frags_eq by assumption. cbn [fst snd].
  split; [| split; [| split]].
  - split; [rewrite length_map, length_seq; reflexivity |].
    apply List.Forall_forall. intros f Hf. apply in_map_iff in Hf.
    destruct Hf as (wm & <- & _). unfold wbv_a_frag. cbv zeta.
    rewrite length_map, length_seq. reflexivity.
  - split; [rewrite length_map, length_seq; reflexivity |].
    apply List.Forall_forall. intros f Hf. apply in_map_iff in Hf.
    destruct Hf as (wn & <- & _). unfold wbv_b_frag. cbv zeta.
    rewrite length_map, length_seq. reflexivity.
  - intros wm i Hwm Hi. rewrite nth_map_seq by exact Hwm.
    unfold wbv_a_frag. cbv zeta.
    rewrite nth_map_seq by exact Hi. f_equal.
    subst half_lane. change (warp_size / 2) with 16.
    change wmma_tile with 16. lia.
  - intros wn i Hwn Hi. rewrite nth_map_seq by exact Hwn.
    unfold wbv_b_frag. cbv zeta.
    rewrite nth_map_seq by exact Hi. f_equal.
    subst half_lane. change (warp_size / 2) with 16.
    change wmma_tile with 16. lia.
Qed.

Lemma o2_fragments_exact_witness :
  frag_array (warp_tile_m config_o2) stale_regs_4 /\
  frag_array (warp_tile_n config_o2) stale_regs_4 /\
  frag_array (warp_tile_m config_o2)
    (fst (o2_load_frags stale_lds 16 64 128 37 stale_regs_4 stale_regs_4)) /\
  frag_array (warp_tile_n config_o2)
    (snd (o2_load_frags stale_lds 16 64 128 37 stale_regs_4 stale_regs_4)) /\
  (forall wm i, wm < warp_tile_m config_o2 -> i < 16 ->
     nth i (nth wm (fst (o2_load_frags stale_lds 16 64 128 37
                           stale_regs_4 stale_regs_4)) []) Fp.hzero
     = nth ((16 + i) * lds_stride_A config_o2 + (64 + wm * 16 + 37 mod 16))
         (a_tile stale_lds) Fp.hzero) /\
  (forall wn i, wn < warp_tile_n config_o2 -> i < 16 ->
     nth i (nth wn (snd (o2_load_frags stale_lds 16 64 128 37
                           stale_regs_4 stale_regs_4)) []) Fp.hzero
     = nth ((16 + i) * lds_stride_B config_o2 + (128 + wn * 16 + 37 mod 16))
         (b_tile stale_lds) Fp.hzero).
Proof.
  assert (Ha : frag_array (warp_tile_m config_o2) stale_regs_4).
  { split; [reflexivity |]. repeat constructor. }
  split; [exact Ha |]. split; [exact Ha |].
  exact (o2_fragments_exact stale_lds 16 64 128 37 stale_regs_4 stale_regs_4
           Ha Ha).
Defined.
(* ===================================================================== *)
(** ** wmma_opt_2: the whole block *)
(* ===================================================================== *)

Lemma nth_replicate_same {X : Type} (n i : nat) (x : X) :
  nth i (replicate n x) x = x.
Proof.
  revert i. induction n as [|n IH]; intros [|i]; cbn; auto.
Qed.

Lemma o2_warp_zero_ok : o2_warp_ok o2_warp_zero.
Proof.
  split; [reflexivity |].
  apply Forall_replicate. cbn [fst snd].
  split; (split; [reflexivity | repeat constructor]).
Qed.

Lemma wbv_frag_lane (cfg : wmma_config) (tile : list Fp.half)
    (k base w warp_id lane : nat) :
  wbv_a_frag cfg tile k base w (warp_id * warp_size + lane)
  = wbv_a_frag cfg tile k base w lane /\
  wbv_b_frag cfg tile k base w (warp_id * warp_size + lane)
  = wbv_b_frag cfg tile k base w lane.
Proof.
  unfold wbv_a_frag, wbv_b_frag. cbv zeta.
  change (warp_size / 2) with 16. change warp_size with 32.
  replace ((warp_id * 32 + lane) mod 16) with (lane mod 16).
  - split; reflexivity.
  - replace (warp_id * 32 + lane) with (lane + (warp_id * 2) * 16) by lia.
    rewrite Nat.Div0.mod_add. reflexivity.
Qed.

(** The compute step of wmma_opt_2 accumulates what the step of
    wmma_shared_warp_buf_vec does with the constants of wmma_opt_2. *)
Lemma o2_compute_acc (current : tiles) (warp_id : nat) (w : o2_warp) :
  o2_warp_ok w ->
  o2_warp_ok (o2_compute current warp_id w) /\
  w_acc (o2_compute current warp_id w)
  = wbv_compute config_o2 current warp_id (w_acc w).
Proof.
  unfold o2_compute, wbv_compute. cbv zeta.
  generalize (strided 0 (block_k config_o2) wmma_tile) as ks.
  intros ks. revert w.
  induction ks as [|k ks IH]; intros w Hw; [split; [exact Hw | reflexivity] |].
  cbn [fold_left].
  set (mb := warp_id / warps_n config_o2 * warp_tile_m config_o2 * wmma_tile).
  set (nb := warp_id mod warps_n config_o2 * warp_tile_n config_o2
             * wmma_tile).
  fold mb nb in IH.
  set (frags :=
         map (fun lane =>
                let '(a_frag, b_frag) := nth lane (w_frags w) ([], []) in
                o2_load_frags current k mb nb (warp_id * warp_size + lane)
                  a_frag b_frag)
             (seq 0 warp_size)).
  assert (Hfr : frags
                = map (fun lane =>
                         (map (fun wm =>
                                 wbv_a_frag config_o2 (a_tile current) k mb
                                   wm lane)
                              (seq 0 (warp_tile_m config_o2)),
                          map (fun wn =>
                                 wbv_b_frag config_o2 (b_tile current) k nb
                                   wn lane)
                              (seq 0 (warp_tile_n config_o2))))
                      (seq 0 warp_size)).
  { unfold frags. apply map_ext_in. intros lane Hl. apply in_seq in Hl.
    destruct Hw as [Hn Hall].
    assert (Hin : In (nth lane (w_frags w) ([], [])) (w_frags w))
      by (apply nth_In; lia).
    pose proof (proj1 (List.Forall_forall _ _) Hall _ Hin) as [Ha Hb].
    destruct (nth lane (w_frags w) ([], [])) as [a b].
    cbn [fst snd] in Ha, Hb.
    rewrite o2_load_frags_eq by assumption.
    f_equal; apply map_ext; intros x.
    + apply (proj1 (wbv_frag_lane _ _ _ _ _ _ _)).
    + apply (proj2 (wbv_frag_lane _ _ _ _ _ _ _)). }
  clearbody frags. subst frags.
  match goal with
  | |- o2_warp_ok (fold_left _ ks ?w1) /\
       w_acc (fold_left _ ks ?w1) = fold_left _ ks ?acc1 =>
      assert (Hok1 : o2_warp_ok w1);
      [| assert (Hacc1 : w_acc w1 = acc1);
         [| destruct (IH w1 Hok1) as [Hok Hacc]; split;
            [exact Hok | rewrite Hacc, Hacc1; reflexivity]]]
  end.
  - split; cbn [w_frags]; [rewrite length_map, length_seq; reflexivity |].
    apply List.Forall_forall. intros p Hp. apply in_map_iff in Hp.
    destruct Hp as (lane & <- & _). cbn [fst snd].
    split; (split; [rewrite length_map, length_seq; reflexivity |]);
      apply List.Forall_forall; intros f Hf; apply in_map_iff in Hf;
      destruct Hf as (x & <- & _);
      unfold wbv_a_frag, wbv_b_frag; cbv zeta;
      rewrite length_map, length_seq; reflexivity.
  - cbn [w_acc].
    apply map_ext_in. intros wm Hwm. apply in_seq in Hwm.
    apply map_ext_in. intros wn Hwn. apply in_seq in Hwn.
    match goal with
    | |- map (wmma_f16_16x16x16 ?X ?Y _) _ = _ =>
        assert (EX : X = map (wbv_a_frag config_o2 (a_tile current) k mb wm)
                             (seq 0 warp_size));
        [| assert (EY : Y = map (wbv_b_frag config_o2 (b_tile current) k nb
                                   wn)
                                (seq 0 warp_size));
           [| rewrite EX, EY; reflexivity]]
    end.
    + rewrite map_map. apply map_ext. intros lane. cbn [fst].
      rewrite nth_map_seq by lia. reflexivity.
    + rewrite map_map. apply map_ext. intros lane. cbn [snd].
      rewrite nth_map_seq by lia. reflexivity.
Qed.

Lemma wbv_stage_a_exact (cfg : wmma_config) (A : list Fp.half)
    (M K block_row k_base half_block : nat) (lds : list Fp.half) :
  0 < vector_width cfg ->
  0 < half_block ->
  lds_stride_A cfg = block_m cfg ->
  block_m cfg mod vector_width cfg = 0 ->
  length A = M * K ->
  length lds = block_m cfg * block_k cfg ->
  exec_transfers A
    (flat_map (fun cid => wbv_load_a cfg M K block_row k_base cid half_block)
              (seq 0 half_block))
    lds
  = inr (map (tile_a_value cfg A M K block_row k_base)
             (seq 0 (block_m cfg * block_k cfg))).
Proof.
  intros Hvw Hhb HsA Hbm HA Hl.
  unfold wbv_load_a, chunks_of.
  rewrite (exec_tile A (vector_width cfg)
             (wbv_load_a_chunk cfg M K block_row k_base)
             (tile_a_value cfg A M K block_row k_base) Hvw
             (wbv_load_a_chunk_tile cfg A M K block_row k_base
                Hvw HsA Hbm HA)
             (block_m cfg * block_k cfg) _ Hhb
             (mod_mul_l _ _ _ Hbm) lds ltac:(lia)).
  rewrite drop_ge by lia. rewrite app_nil_r. reflexivity.
Qed.

Lemma wbv_stage_b_exact (cfg : wmma_config) (B : list Fp.half)
    (N K block_col k_base half_block : nat) (lds : list Fp.half) :
  0 < vector_width cfg ->
  0 < half_block ->
  lds_stride_B cfg = block_n cfg ->
  block_n cfg mod vector_width cfg = 0 ->
  length B = K * N ->
  length lds = block_k cfg * block_n cfg ->
  exec_transfers B
    (flat_map (fun cid => wbv_load_b cfg N K block_col k_base cid half_block)
              (seq 0 half_block))
    lds
  = inr (map (tile_b_value cfg B N K block_col k_base)
             (seq 0 (block_k cfg * block_n cfg))).
Proof.
  intros Hvw Hhb HsB Hbn HB Hl.
  unfold wbv_load_b, chunks_of.
  rewrite (exec_tile B (vector_width cfg)
             (wbv_load_b_chunk cfg N K block_col k_base)
             (tile_b_value cfg B N K block_col k_base) Hvw
             (wbv_load_b_chunk_tile cfg B N K block_col k_base
                Hvw HsB Hbn HB)
             (block_k cfg * block_n cfg) _ Hhb
             (eq_trans (f_equal (fun x => x mod vector_width cfg)
                                (Nat.mul_comm _ _))
                       (mod_mul_l _ _ _ Hbn))
             lds ltac:(lia)).
  rewrite drop_ge by lia. rewrite app_nil_r. reflexivity.
Qed.

Lemma o2_config_facts :
  0 < vector_width config_o2 /\
  0 < warp_size * total_warps config_o2 / 2 /\
  0 < block_k config_o2 /\
  lds_stride_A config_o2 = block_m config_o2 /\
  lds_stride_B config_o2 = block_n config_o2 /\
  block_m config_o2 mod vector_width config_o2 = 0 /\
  block_n config_o2 mod vector_width config_o2 = 0 /\
  total_warps config_o2 = 16 /\
  lds_mem_elems wmma_opt_2
  = 2 * (block_m config_o2 * block_k config_o2
         + block_k config_o2 * block_n config_o2).
Proof.
  repeat split; first [ by_running | apply Nat.ltb_lt; by_running ].
Qed.

(** The main loop of wmma_opt_2: it returns, its buffers keep their size,
    and each warp holds the accumulators of the compute step folded over
    the exact K slices. *)
Lemma o2_main_loop_slices (A B : list Fp.half)
    (M N K block_row block_col : nat) (lds_0 lds_1 : tiles) :
  length A = M * K ->
  length B = K * N ->
  length (a_tile lds_0) = block_m config_o2 * block_k config_o2 ->
  length (b_tile lds_0) = block_k config_o2 * block_n config_o2 ->
  length (a_tile lds_1) = block_m config_o2 * block_k config_o2 ->
  length (b_tile lds_1) = block_k config_o2 * block_n config_o2 ->
  exists st,
    o2_main_loop A B M N K block_row block_col lds_0 lds_1 = inr st /\
    length (a_tile (o2_current st)) = block_m config_o2 * block_k config_o2 /\
    length (b_tile (o2_current st)) = block_k config_o2 * block_n config_o2 /\
    length (a_tile (o2_next st)) = block_m config_o2 * block_k config_o2 /\
    length (b_tile (o2_next st)) = block_k config_o2 * block_n config_o2 /\
    forall warp_id, warp_id < 16 ->
      w_acc (nth warp_id (o2_warps st) o2_warp_zero)
      = fold_left
          (fun acc it =>
             wbv_compute config_o2
               (slice_tiles config_o2 A B M N K block_row block_col
                  (it * block_k config_o2))
               warp_id acc)
          (seq 0 ((K + block_k config_o2 - 1) / block_k config_o2))
          (warp_acc_zero config_o2).
Proof.
  intros HA HB Ha0 Hb0 Ha1 Hb1.
  destruct o2_config_facts
    as (Hvw & Hhb & Hbk & HsA & HsB & Hbm & Hbn & Htw & _).
  unfold o2_main_loop. cbv zeta.
  rewrite wbv_stage_exact by (assumption || lia).
  rewrite staged_tiles_full by assumption. cbn [bind].
  set (steps := (K + block_k config_o2 - 1) / block_k config_o2).
  set (slice := fun it =>
         slice_tiles config_o2 A B M N K block_row block_col
           (it * block_k config_o2)).
  set (run := fun warp_id n =>
         fold_left
           (fun acc it => wbv_compute config_o2 (slice it) warp_id acc)
           (seq 0 n) (warp_acc_zero config_o2)).
  assert (Hlen : forall it,
            length (a_tile (slice it))
            = block_m config_o2 * block_k config_o2 /\
            length (b_tile (slice it))
            = block_k config_o2 * block_n config_o2).
  { intros it. unfold slice, slice_tiles. cbn [a_tile b_tile].
    rewrite !length_map, !length_seq. split; reflexivity. }
  rewrite Htw.
  match goal with
  | |- exists st, for_loop _ _ ?body ?init = _ /\ _ =>
      destruct (for_loop_inv
                  (fun it st =>
                     (it < steps -> o2_current st = slice it) /\
                     length (a_tile (o2_current st))
                     = block_m config_o2 * block_k config_o2 /\
                     length (b_tile (o2_current st))
                     = block_k config_o2 * block_n config_o2 /\
                     length (a_tile (o2_next st))
                     = block_m config_o2 * block_k config_o2 /\
                     length (b_tile (o2_next st))
                     = block_k config_o2 * block_n config_o2 /\
                     forall warp_id, warp_id < 16 ->
                       o2_warp_ok (nth warp_id (o2_warps st) o2_warp_zero) /\
                       w_acc (nth warp_id (o2_warps st) o2_warp_zero)
                       = run warp_id it)
                  body steps 0 init)
        as (st & Hrun & _ & Hca & Hcb & Hna & Hnb & Hw)
  end.
  - cbn [o2_current o2_next o2_warps].
    split; [intros _; reflexivity |].
    split; [apply (proj1 (Hlen 0)) |]. split; [apply (proj2 (Hlen 0)) |].
    split; [exact Ha1 |]. split; [exact Hb1 |].
    intros warp_id Hw.
    rewrite nth_replicate_same. split; [apply o2_warp_zero_ok | reflexivity].
  - intros it st Hit (Hcur & Hca & Hcb & Hna & Hnb & Hw).
    assert (Hw' : forall warp_id, warp_id < 16 ->
              o2_warp_ok
                (nth warp_id
                   (map (fun warp_id =>
                           o2_compute (o2_current st) warp_id
                             (nth warp_id (o2_warps st) o2_warp_zero))
                        (seq 0 16))
                   o2_warp_zero) /\
              w_acc
                (nth warp_id
                   (map (fun warp_id =>
                           o2_compute (o2_current st) warp_id
                             (nth warp_id (o2_warps st) o2_warp_zero))
                        (seq 0 16))
                   o2_warp_zero)
              = run warp_id (S it)).
    { intros warp_id Hlt. rewrite nth_map_seq by exact Hlt.
      destruct (Hw warp_id Hlt) as [Hok Hacc].
      destruct (o2_compute_acc (o2_current st) warp_id _ Hok) as [Hok' Hacc'].
      split; [exact Hok' |]. rewrite Hacc', Hacc, Hcur by lia.
      unfold run. rewrite seq_S, fold_left_app. reflexivity. }
    destruct (it * block_k config_o2 + block_k config_o2 <? K) eqn:E.
    + rewrite wbv_stage_a_exact by (assumption || lia). cbn [bind].
      rewrite wbv_stage_b_exact by (assumption || lia). cbn [bind ret].
      eexists. split; [reflexivity |].
      cbn [o2_current o2_next o2_warps a_tile b_tile].
      split; [| split; [| split; [| split; [| split]]]];
        try assumption.
      * intros _. unfold slice, slice_tiles. f_equal; f_equal; f_equal; lia.
      * rewrite length_map, length_seq. reflexivity.
      * rewrite length_map, length_seq. reflexivity.
    + cbn [bind ret]. eexists. split; [reflexivity |].
      cbn [o2_current o2_next o2_warps a_tile b_tile].
      split; [| split; [| split; [| split; [| split]]]];
        try assumption.
      intros Hlt. apply Nat.ltb_ge in E. exfalso.
      pose proof (steps_next_slice K (block_k config_o2) it Hbk Hlt). lia.
  - exists st. rewrite Nat.add_0_l in Hw.
    split; [exact Hrun |]. repeat (split; [assumption |]).
    intros warp_id Hlt. apply (proj2 (Hw warp_id Hlt)).
Qed.
(** The thread that owns an element of the block tile is one of the 512
    of the block. *)
Lemma o2_owner_warp (lr lc : nat) :
  lr < 256 -> lc < 256 ->
  (32 * (4 * (lr / 64) + lc / 64) + 16 * (lr mod 2) + lc mod 16) / 32 < 16.
Proof.
  intros Hlr Hlc.
  assert (lr / 64 < 4) by (apply Nat.Div0.div_lt_upper_bound; lia).
  assert (lc / 64 < 4) by (apply Nat.Div0.div_lt_upper_bound; lia).
  pose proof (Nat.mod_upper_bound lr 2 ltac:(lia)).
  pose proof (Nat.mod_upper_bound lc 16 ltac:(lia)).
  apply Nat.Div0.div_lt_upper_bound. lia.
Qed.



(* ===================================================================== *)
(** ** Epilogue of the tiled kernels: no element is left out *)
(* ===================================================================== *)

(** The owner of row [r] and column [c] of C in the tiled kernels: block,
    warp, warp tile, lane and fragment entry. *)
Lemma tiled_owner_split (r c : nat) :
  exists wr wm i hw wc wn hl,
    wr < 4 /\ wm < 4 /\ i < 8 /\ hw < 2 /\ wc < 4 /\ wn < 4 /\ hl < 16 /\
    r = r / 256 * 256 + wr * 64 + wm * 16 + (i * 2 + hw) /\
    c = c / 256 * 256 + wc * 64 + wn * 16 + hl.
Proof.
  pose proof (Nat.div_mod_eq r 256) as Er.
  pose proof (Nat.mod_upper_bound r 256 ltac:(lia)) as Br.
  pose proof (Nat.div_mod_eq (r mod 256) 64) as Er1.
  pose proof (Nat.mod_upper_bound (r mod 256) 64 ltac:(lia)) as Br1.
  pose proof (Nat.div_mod_eq (r mod 256 mod 64) 16) as Er2.
  pose proof (Nat.mod_upper_bound (r mod 256 mod 64) 16 ltac:(lia)) as Br2.
  pose proof (Nat.div_mod_eq (r mod 256 mod 64 mod 16) 2) as Er3.
  pose proof (Nat.mod_upper_bound (r mod 256 mod 64 mod 16) 2 ltac:(lia))
    as Br3.
  pose proof (Nat.div_mod_eq c 256) as Ec.
  pose proof (Nat.mod_upper_bound c 256 ltac:(lia)) as Bc.
  pose proof (Nat.div_mod_eq (c mod 256) 64) as Ec1.
  pose proof (Nat.mod_upper_bound (c mod 256) 64 ltac:(lia)) as Bc1.
  pose proof (Nat.div_mod_eq (c mod 256 mod 64) 16) as Ec2.
  pose proof (Nat.mod_upper_bound (c mod 256 mod 64) 16 ltac:(lia)) as Bc2.
  exists (r mod 256 / 64), (r mod 256 mod 64 / 16),
         (r mod 256 mod 64 mod 16 / 2), (r mod 256 mod 64 mod 16 mod 2),
         (c mod 256 / 64), (c mod 256 mod 64 / 16), (c mod 256 mod 64 mod 16).
  repeat split; lia.
Qed.


